(** * oss_dashboard: the resilient data-acquisition layer

    A shallow embedding of the paginated GraphQL client
    ([github_client.py]), the contributor poller
    ([fetchers/repository.py]), the filtering policy
    ([fetchers/utils.py]), the lookup-only enrichment steps
    ([fetchers/issues.py], [discussions.py], [downloads_pepy.py],
    [fetch_parquet.py]) and the entry point ([main.py]), with the
    properties of the specification stated over them. *)

From Stdlib Require Import ZArith Ascii String List Bool Lia PrimFloat.
From stdpp Require Import gmap strings list fin_maps.
Import ListNotations.

Set Warnings "-register-all,-clear-no-such-hyp".

Local Open Scope string_scope.
Local Open Scope list_scope.
Local Open Scope Z_scope.

(** ** Python values

    The values that travel through the code are the ones [json.loads]
    and the GraphQL requester produce: [None], booleans, integers,
    strings, lists and dicts.  A dict is an association list with
    unique keys kept in insertion order. *)

Inductive json : Type :=
| JNull
| JBool (b : bool)
| JNum (n : Z)
| JStr (s : string)
| JArr (items : list json)
| JObj (fields : list (string * json)).

Abbreviation dict := (list (string * json)).

(** The exceptions the modelled code can meet. *)
Inductive exn : Type :=
| KeyError (key : string)
| TypeError
| AttributeError
| ValueError
| JSONDecodeError
| RateLimitExceededException
| GithubException
| StopIteration.

Definition result (A : Type) : Type := exn + A.

Definition ret {A} (a : A) : result A := inr a.
Definition raise {A} (e : exn) : result A := inl e.
Definition bind {A B} (m : result A) (k : A -> result B) : result B :=
  match m with
  | inl e => inl e
  | inr a => k a
  end.

Notation "'try!' x ':=' m 'in' k" := (bind m (fun x => k))
  (at level 10, x name, m at level 100, k at level 200).

(** [d.get(key)] on a dict: the first (and only) binding of [key]. *)
Fixpoint dict_get (key : string) (d : dict) : option json :=
  match d with
  | [] => None
  | (k, v) :: rest => if String.eqb k key then Some v else dict_get key rest
  end.

(** [{**d, key: v}]: an existing key keeps its position and takes the
    new value, a fresh key is appended. *)
Fixpoint dict_set (key : string) (v : json) (d : dict) : dict :=
  match d with
  | [] => [(key, v)]
  | (k, w) :: rest =>
      if String.eqb k key then (k, v) :: rest else (k, w) :: dict_set key v rest
  end.

(** [bool(v)]. *)
Definition truthy (v : json) : bool :=
  match v with
  | JNull => false
  | JBool b => b
  | JNum n => negb (n =? 0)
  | JStr s => negb (String.eqb s "")
  | JArr l => match l with [] => false | _ => true end
  | JObj d => match d with [] => false | _ => true end
  end.

(** [v[key]] with a string key. *)
Definition subscript (v : json) (key : string) : result json :=
  match v with
  | JObj d => match dict_get key d with
              | Some w => ret w
              | None => raise (KeyError key)
              end
  | _ => raise TypeError
  end.

(** [v.get(key, default)]: only dicts have the method. *)
Definition get_method (v : json) (key : string) (default : json) : result json :=
  match v with
  | JObj d => ret (match dict_get key d with Some w => w | None => default end)
  | _ => raise AttributeError
  end.

(** [len(s)] for a [str]: the number of its code points.  A [string]
    here is the UTF-8 text of the Python [str], so the bytes that
    continue a code point (the bytes [10xxxxxx]) are not counted. *)
Definition is_continuation (a : ascii) : bool :=
  match a with
  | Ascii _ _ _ _ _ _ b6 b7 => b7 && negb b6
  end.

Fixpoint code_points (s : string) : nat :=
  match s with
  | EmptyString => 0
  | String a rest =>
      if is_continuation a then code_points rest else S (code_points rest)
  end.

(** [len(v)]. *)
Definition py_len (v : json) : result Z :=
  match v with
  | JStr s => ret (Z.of_nat (code_points s))
  | JArr l => ret (Z.of_nat (List.length l))
  | JObj d => ret (Z.of_nat (List.length d))
  | _ => raise TypeError
  end.

(** ** constants.py *)

Definition MAX_CONTRIBUTOR_RETRIES : nat := 20.
Definition CONTRIBUTOR_RETRY_SLEEP_SECONDS : Z := 10.
Definition RATE_LIMIT_SLEEP_SECONDS : Z := 60.
Definition EXCLUDED_REPO_PREFIXES : list string := ["slides-"; "course-"].

(** [http.HTTPStatus]. *)
Definition HTTP_OK : Z := 200.
Definition HTTP_ACCEPTED : Z := 202.
Definition HTTP_INTERNAL_SERVER_ERROR : Z := 500.

(** ** github_client.py: [GitHubClient.graphql_paginate]

    The provider behind [self.graphql] is a state machine: a request
    (query, variables) in a provider state gives a page or raises, and
    moves the provider to its next state.  The generator is run to
    exhaustion by its consumer; what it does is recorded as a list of
    events in program order. *)

Inductive event : Type :=
| Request (query : string) (vars : dict)
| Sleep (seconds : Z)
| Yield (page : json).

Inductive outcome : Type :=
| Finished
| Raised (e : exn)
| OutOfFuel.

(** [for key in path_to_connection: data = data[key]]. *)
Fixpoint navigate (data : json) (path : list string) : result json :=
  match path with
  | [] => ret data
  | key :: rest => try! d := subscript data key in navigate d rest
  end.

Definition is_rate_limit (e : exn) : bool :=
  match e with RateLimitExceededException => true | _ => false end.

Section Paginate.
Context {St : Type}.
Variable graphql : St -> string -> dict -> result json * St.
Variable query : string.
Variable variables : dict.
Variable path_to_connection : list string.

Definition run : Type := (list event * outcome * St)%type.

Definition emit (evs : list event) (r : run) : run :=
  let '(tr, out, st) := r in (evs ++ tr, out, st).

(** What follows [yield result] in one iteration: the three reads of
    the pagination metadata. *)
Definition next_position (data : json) : result (json * json) :=
  try! page_info := get_method data "pageInfo" (JObj []) in
  try! has_next_page := get_method page_info "hasNextPage" (JBool false) in
  try! cursor := get_method page_info "endCursor" JNull in
  ret (has_next_page, cursor).

(** The [while has_next_page] loop; one unit of fuel per iteration. *)
Fixpoint paginate_loop (fuel : nat) (st : St) (cursor has_next_page : json)
  : run :=
  if truthy has_next_page then
    match fuel with
    | O => ([], OutOfFuel, st)
    | S fuel' =>
        let vars_with_cursor := dict_set "cursor" cursor variables in
        let req := Request query vars_with_cursor in
        match graphql st query vars_with_cursor with
        | (inl e, st') =>
            if is_rate_limit e then
              emit [req; Sleep RATE_LIMIT_SLEEP_SECONDS]
                   (paginate_loop fuel' st' cursor has_next_page)
            else ([req], Raised e, st')
        | (inr result, st') =>
            match navigate result path_to_connection with
            | inl e => ([req], Raised e, st')
            | inr data =>
                match next_position data with
                | inl e => ([req; Yield result], Raised e, st')
                | inr (has_next_page', cursor') =>
                    emit [req; Yield result]
                         (paginate_loop fuel' st' cursor' has_next_page')
                end
            end
        end
    end
  else ([], Finished, st).

(** [cursor = None; has_next_page = True; while ...]. *)
Definition graphql_paginate (fuel : nat) (st : St) : run :=
  paginate_loop fuel st JNull (JBool true).
End Paginate.

(** Observations on a trace. *)
Definition yields (tr : list event) : list json :=
  omap (fun ev => match ev with Yield p => Some p | _ => None end) tr.

Definition requests (tr : list event) : list (string * dict) :=
  omap (fun ev => match ev with Request q v => Some (q, v) | _ => None end) tr.

Definition sleeps (tr : list event) : list Z :=
  omap (fun ev => match ev with Sleep s => Some s | _ => None end) tr.

Arguments yields : simpl never.
Arguments requests : simpl never.
Arguments sleeps : simpl never.

(** *** The provider's chain of pages, in the provider's own terms

    What a page says about its successor, read off the page data: the
    connection reached by [path] carries [pageInfo] with [hasNextPage]
    true and an [endCursor], or it is the last page because
    [hasNextPage] is false or the metadata is absent. *)

Definition has_more (path : list string) (page next : json) : Prop :=
  ∃ conn info,
    navigate page path = inr (JObj conn)
    ∧ dict_get "pageInfo" conn = Some (JObj info)
    ∧ dict_get "hasNextPage" info = Some (JBool true)
    ∧ next = default JNull (dict_get "endCursor" info).

Definition is_last (path : list string) (page : json) : Prop :=
  ∃ conn,
    navigate page path = inr (JObj conn)
    ∧ (dict_get "pageInfo" conn = None
       ∨ ∃ info, dict_get "pageInfo" conn = Some (JObj info)
                 ∧ (dict_get "hasNextPage" info = None
                    ∨ dict_get "hasNextPage" info = Some (JBool false))).

(** The [endCursor] a page carries ([None] when it carries none). *)
Definition end_cursor (path : list string) (page : json) : json :=
  match navigate page path with
  | inr (JObj conn) =>
      match dict_get "pageInfo" conn with
      | Some (JObj info) => default JNull (dict_get "endCursor" info)
      | _ => JNull
      end
  | _ => JNull
  end.

(** The cursor the client holds after it has yielded [pages]: the
    [endCursor] of the last of them, null before the first. *)
Definition cursor_after (path : list string) (pages : list json) : json :=
  match last pages with
  | Some page => end_cursor path page
  | None => JNull
  end.

Section Chain.
Context {St : Type}.
Variable graphql : St -> string -> dict -> result json * St.
Variable query : string.
Variable variables : dict.
Variable path : list string.

(** [serves st c pages st']: asked from state [st] with cursor [c],
    then with the cursor each page hands out, the provider answers
    with [pages], the last of which is the first to announce no
    successor, and is left in state [st']. *)
Inductive serves : St -> json -> list json -> St -> Prop :=
| serves_last st c p st' :
    graphql st query (dict_set "cursor" c variables) = (inr p, st') ->
    is_last path p ->
    serves st c [p] st'
| serves_more st c p st1 c' ps st' :
    graphql st query (dict_set "cursor" c variables) = (inr p, st1) ->
    has_more path p c' ->
    serves st1 c' ps st' ->
    serves st c (p :: ps) st'.
End Chain.

(** The request [graphql_paginate] issues at cursor [c]. *)
Definition request_for (query : string) (variables : dict) (c : json)
  : string * dict :=
  (query, dict_set "cursor" c variables).

(** A two-page provider addressed by cursor, for concrete runs. *)
Definition repositories_page (names : list string) (info : option (bool * json))
  : json :=
  JObj [("organization",
         JObj [("repositories",
                JObj (match info with
                      | Some (more, c) =>
                          [("pageInfo", JObj [("hasNextPage", JBool more);
                                              ("endCursor", c)])]
                      | None => []
                      end
                      ++ [("nodes",
                           JArr (map (fun n => JObj [("name", JStr n)]) names))]))])].

Definition two_page_stub (st : unit) (q : string) (vars : dict)
  : result json * unit :=
  match dict_get "cursor" vars with
  | Some JNull => (inr (repositories_page ["a"; "b"] (Some (true, JStr "c1"))), tt)
  | Some (JStr "c1") => (inr (repositories_page ["c"] None), tt)
  | _ => (inl GithubException, tt)
  end.


(** *** Rate-limit signals on top of a provider

    [rate_limited graphql] answers like [graphql], except that it first
    raises [RateLimitExceededException] as many times as the schedule
    says: the k-th number of the schedule is the number of refusals
    before the k-th request that reaches [graphql].  A refusal leaves
    the state of [graphql] untouched. *)
Definition rate_limited {St : Type}
    (graphql : St -> string -> dict -> result json * St)
    (s : St * list nat) (q : string) (vars : dict)
  : result json * (St * list nat) :=
  match s with
  | (st, S k :: rest) => (inl RateLimitExceededException, (st, k :: rest))
  | (st, O :: rest) => let '(r, st') := graphql st q vars in (r, (st', rest))
  | (st, []) => let '(r, st') := graphql st q vars in (r, (st', []))
  end.

(** The requests of a run in which the k-th request is issued once and
    then again for each refusal the schedule holds for it. *)
Fixpoint reissued {A : Type} (schedule : list nat) (reqs : list A) {struct reqs}
  : list A :=
  match reqs, schedule with
  | [], _ => []
  | r :: reqs', k :: schedule' => replicate (S k) r ++ reissued schedule' reqs'
  | _, [] => reqs
  end.

(** How a run against a rate-limited provider relates to the run
    against the provider underneath. *)
Definition shadows {St : Type} (schedule : list nat)
    (r' : @run (St * list nat)) (r : @run St) : Prop :=
  r'.1.2 = r.1.2
  ∧ r'.2.1 = r.2
  ∧ yields r'.1.1 = yields r.1.1
  ∧ requests r'.1.1 = reissued schedule (requests r.1.1)
  ∧ length (sleeps r'.1.1)
    = (length (sleeps r.1.1)
       + sum_list (take (length (requests r.1.1)) schedule))%nat.


(** ** models.py *)

Record Config : Type := {
  organization : string;
  include_forks : bool;
  include_archived : bool;
  since : option string;
}.

(** ** fetchers/utils.py

    [load_excluded_repos] is wrapped in [lru_cache(maxsize=1)] and is
    only ever called without argument: the first call reads
    [excluded_repos.json] ([file] is its content then, [None] when the
    file does not exist), every later call returns what the first one
    read.  The cache is the process state these functions thread. *)

Abbreviation cache := (option (list string)).

Definition load_excluded_repos (file : option (list string)) (c : cache)
  : list string * cache :=
  match c with
  | Some excluded => (excluded, c)
  | None =>
      let excluded := match file with Some names => names | None => [] end in
      (excluded, Some excluded)
  end.

(** [s.startswith(prefixes)] with a tuple of prefixes. *)
Definition startswith (s : string) (prefixes : list string) : bool :=
  existsb (fun p => String.prefix p s) prefixes.

(** [x in t] for a tuple of strings. *)
Definition contains (t : list string) (x : string) : bool :=
  existsb (String.eqb x) t.

Definition should_exclude_repo (file : option (list string)) (c : cache)
    (repo_name : string) (config : Config) : bool * cache :=
  let '(excluded, c') := load_excluded_repos file c in
  (contains excluded repo_name || startswith repo_name EXCLUDED_REPO_PREFIXES,
   c').

(** [for x in v]. *)
Definition py_iter (v : json) : result (list json) :=
  match v with
  | JArr items => ret items
  | JObj fields => ret (map (fun kv => JStr (fst kv)) fields)
  | JStr s => ret (map (fun a => JStr (String a EmptyString)) (list_ascii_of_string s))
  | _ => raise TypeError
  end.

(** The body of the [for repo in nodes] loop of [query_repo_names]:
    [Some repo] when the node is appended to [all_repos], [None] when
    one of the [continue]s is taken. *)
Definition select_repo (file : option (list string)) (c : cache)
    (config : Config) (repo : json) : result (option json * cache) :=
  match repo with
  | JNull => ret (None, c)
  | _ =>
      try! is_archived := get_method repo "isArchived" (JBool false) in
      try! is_fork := get_method repo "isFork" (JBool false) in
      if truthy is_archived && negb (include_archived config) then ret (None, c)
      else if truthy is_fork && negb (include_forks config) then ret (None, c)
      else
        try! name := subscript repo "name" in
        match name with
        | JStr repo_name =>
            let '(excluded, c') := should_exclude_repo file c repo_name config in
            if excluded then ret (None, c') else ret (Some repo, c')
        | _ => raise AttributeError
        end
  end.

Fixpoint select_repos (file : option (list string)) (c : cache)
    (config : Config) (nodes : list json) (all_repos : list json)
  : result (list json * cache) :=
  match nodes with
  | [] => ret (all_repos, c)
  | repo :: rest =>
      try! r := select_repo file c config repo in
      select_repos file (snd r) config rest
                   (match fst r with
                    | Some kept => all_repos ++ [kept]
                    | None => all_repos
                    end)
  end.

(** The outer [for result in client.graphql_paginate(...)] loop, over
    the pages the generator yields. *)
Fixpoint select_pages (file : option (list string)) (c : cache)
    (config : Config) (pages : list json) (all_repos : list json)
  : result (list json * cache) :=
  match pages with
  | [] => ret (all_repos, c)
  | page :: rest =>
      try! nodes := navigate page ["organization"; "repositories"; "nodes"] in
      try! items := py_iter nodes in
      try! r := select_repos file c config items all_repos in
      select_pages file (snd r) config rest (fst r)
  end.

(** The text of the query, its blanks collapsed. *)
Definition REPO_NAMES_QUERY : string :=
  "query ($cursor: String, $organization: String!) { organization(login:$organization) { repositories(privacy:PUBLIC, first:100, isFork:false, isArchived:false, after: $cursor) { pageInfo { hasNextPage endCursor } nodes { name isArchived isFork } } } }".

(** [query_repo_names]: [None] stands for a run that is still going
    when the fuel is spent.  An exception of the loop body ends the
    call before the generator is resumed, so it wins over whatever the
    generator would have done next. *)
Definition query_repo_names {St : Type}
    (graphql : St -> string -> dict -> result json * St)
    (fuel : nat) (st : St) (file : option (list string)) (c : cache)
    (config : Config) : option (result (list json * cache)) :=
  let '(tr, out, _) :=
    graphql_paginate graphql REPO_NAMES_QUERY
                     [("organization", JStr (organization config))]
                     ["organization"; "repositories"] fuel st in
  match select_pages file c config (yields tr) [] with
  | inl e => Some (inl e)
  | inr r =>
      match out with
      | Finished => Some (inr r)
      | Raised e => Some (inl e)
      | OutOfFuel => None
      end
  end.

(** *** The filtering policy in the words of the specification *)

Definition policy_excludes (excluded prefixes : list string) (config : Config)
    (name : string) (archived fork : bool) : Prop :=
  (archived = true ∧ include_archived config = false)
  ∨ (fork = true ∧ include_forks config = false)
  ∨ name ∈ excluded
  ∨ ∃ p, p ∈ prefixes ∧ String.prefix p name = true.

(** The flags of a repository node, read as the code reads them. *)
Definition node_flag (fields : dict) (key : string) : bool :=
  truthy (default (JBool false) (dict_get key fields)).

Definition default_config : Config :=
  {| organization := "org"; include_forks := false;
     include_archived := false; since := None |}.

(** ** [json.loads], for concrete runs

    The poller is stated over any [json_loads]; the reader below covers
    the JSON texts used to run it on examples: [null], [true], [false],
    integers, strings without escapes, arrays and objects, with blanks
    between tokens.  Anything else is a [JSONDecodeError]. *)

Module JsonText.
Local Open Scope char_scope.

Definition quote : ascii := "034".

Definition is_blank (a : ascii) : bool :=
  Ascii.eqb a " " || Ascii.eqb a "009" || Ascii.eqb a "010" || Ascii.eqb a "013".

Fixpoint skip_blanks (s : list ascii) : list ascii :=
  match s with
  | a :: rest => if is_blank a then skip_blanks rest else s
  | [] => []
  end.

(** [strip lit s]: [s] without its prefix [lit]. *)
Fixpoint strip (lit s : list ascii) : option (list ascii) :=
  match lit, s with
  | [], _ => Some s
  | l :: lit', a :: s' => if Ascii.eqb l a then strip lit' s' else None
  | _ :: _, [] => None
  end.

Definition digit (a : ascii) : option Z :=
  let n := Ascii.nat_of_ascii a in
  if ((48 <=? n)%nat && (n <=? 57)%nat)%bool
  then Some (Z.of_nat n - 48)%Z else None.

Fixpoint digits (acc : Z) (s : list ascii) : Z * list ascii :=
  match s with
  | a :: rest => match digit a with
                 | Some d => digits (10 * acc + d)%Z rest
                 | None => (acc, s)
                 end
  | [] => (acc, [])
  end.

Definition number (s : list ascii) : option (Z * list ascii) :=
  match s with
  | a :: rest =>
      match digit a with
      | Some _ => Some (digits 0 s)
      | None =>
          if Ascii.eqb a "-" then
            match rest with
            | b :: _ => match digit b with
                        | Some _ => let '(n, r) := digits 0 rest in Some (- n, r)%Z
                        | None => None
                        end
            | [] => None
            end
          else None
      end
  | [] => None
  end.

(** The characters up to the closing quote. *)
Fixpoint text (acc : string) (s : list ascii) : option (string * list ascii) :=
  match s with
  | a :: rest =>
      if Ascii.eqb a quote then Some (acc, rest)
      else if Ascii.eqb a "\" then None
      else text (acc +:+ String a EmptyString) rest
  | [] => None
  end.

Fixpoint value (fuel : nat) (s : list ascii) : option (json * list ascii) :=
  match fuel with
  | O => None
  | S fuel' =>
      match skip_blanks s with
      | [] => None
      | a :: rest =>
          if Ascii.eqb a "[" then
            match skip_blanks rest with
            | b :: rest' =>
                if Ascii.eqb b "]" then Some (JArr [], rest')
                else items fuel' rest []
            | [] => None
            end
          else if Ascii.eqb a "{" then
            match skip_blanks rest with
            | b :: rest' =>
                if Ascii.eqb b "}" then Some (JObj [], rest')
                else members fuel' rest []
            | [] => None
            end
          else if Ascii.eqb a quote then
            match text EmptyString rest with
            | Some (t, rest') => Some (JStr t, rest')
            | None => None
            end
          else
            match strip ["n"; "u"; "l"; "l"] (a :: rest),
                  strip ["t"; "r"; "u"; "e"] (a :: rest),
                  strip ["f"; "a"; "l"; "s"; "e"] (a :: rest) with
            | Some r, _, _ => Some (JNull, r)
            | _, Some r, _ => Some (JBool true, r)
            | _, _, Some r => Some (JBool false, r)
            | None, None, None =>
                match number (a :: rest) with
                | Some (n, r) => Some (JNum n, r)
                | None => None
                end
            end
      end
  end
with items (fuel : nat) (s : list ascii) (acc : list json)
     : option (json * list ascii) :=
  match fuel with
  | O => None
  | S fuel' =>
      match value fuel' s with
      | Some (v, rest) =>
          match skip_blanks rest with
          | a :: rest' =>
              if Ascii.eqb a "," then items fuel' rest' (acc ++ [v])
              else if Ascii.eqb a "]" then Some (JArr (acc ++ [v]), rest')
              else None
          | [] => None
          end
      | None => None
      end
  end
with members (fuel : nat) (s : list ascii) (acc : dict)
     : option (json * list ascii) :=
  match fuel with
  | O => None
  | S fuel' =>
      match skip_blanks s with
      | q :: rest =>
          if Ascii.eqb q quote then
            match text EmptyString rest with
            | Some (key, rest1) =>
                match skip_blanks rest1 with
                | c :: rest2 =>
                    if Ascii.eqb c ":" then
                      match value fuel' rest2 with
                      | Some (v, rest3) =>
                          match skip_blanks rest3 with
                          | a :: rest4 =>
                              if Ascii.eqb a ","
                              then members fuel' rest4 (dict_set key v acc)
                              else if Ascii.eqb a "}"
                              then Some (JObj (dict_set key v acc), rest4)
                              else None
                          | [] => None
                          end
                      | None => None
                      end
                    else None
                | [] => None
                end
            | None => None
            end
          else None
      | [] => None
      end
  end.

Definition loads (s : string) : result json :=
  match value (S (String.length s)) (list_ascii_of_string s) with
  | Some (v, rest) =>
      match skip_blanks rest with
      | [] => ret v
      | _ :: _ => raise JSONDecodeError
      end
  | None => raise JSONDecodeError
  end.
End JsonText.

(** ** github_client.py: [GitHubClient.rest_request]

    The requester behind it is a state machine answering a method and a
    URL with a status and a body ([None] for no body), or raising
    [GithubException] (the answer [None] below); exceptions of the
    transport underneath are not modelled. *)

Section RestRequest.
Context {St : Type}.
Variable requestJson : St -> string -> string -> option (Z * option string) * St.

Definition rest_request (st : St) (method url : string)
  : Z * option string * St :=
  match requestJson st method url with
  | (Some (status, data), st') => (status, data, st')
  | (None, st') => (HTTP_INTERNAL_SERVER_ERROR, None, st')
  end.
End RestRequest.

(** ** fetchers/repository.py: [_fetch_all_contributors]

    [repos] is the list of the [name] entries of the repository dicts,
    the only entry the function reads.  What the function does to the
    outside is logged: every request with its answer, and every
    sleep. *)

Inductive poll_event : Type :=
| Get (url : string) (status : Z) (data : option string)
| Wait (seconds : Z).

Definition contributors_url (org repo_name : string) : string :=
  "/repos/" +:+ org +:+ "/" +:+ repo_name +:+ "/stats/contributors".

(** The local variables of the function, with the log and the state of
    the requester. *)
Record poller {St : Type} : Type := {
  contributors_map : gmap string Z;
  pending_repos : list string;
  log : list poll_event;
  requester : St;
}.
Arguments poller : clear implicits.

(** [bool(data)] for a body. *)
Definition has_data (data : option string) : bool :=
  match data with
  | Some s => negb (String.eqb s "")
  | None => false
  end.

Section Poller.
Variable json_loads : string -> result json.
Context {St : Type}.
Variable requestJson : St -> string -> string -> option (Z * option string) * St.

(** One iteration of the first loop (lines 32-46). *)
Definition first_request (org : string) (p : poller St) (repo_name : string)
  : result (poller St) :=
  let url := contributors_url org repo_name in
  let '(status, data, st') := rest_request requestJson (requester p) "GET" url in
  let log' := log p ++ [Get url status data] in
  try! data_dict :=
    match data with
    | Some s => if has_data data then json_loads s else ret JNull
    | None => ret JNull
    end in
  if (status =? HTTP_OK) && truthy data_dict then
    try! n := py_len data_dict in
    ret {| contributors_map := <[repo_name := n]> (contributors_map p);
           pending_repos := pending_repos p;
           log := log'; requester := st' |}
  else if status =? HTTP_ACCEPTED then
    ret {| contributors_map := contributors_map p;
           pending_repos := pending_repos p ++ [repo_name];
           log := log'; requester := st' |}
  else
    ret {| contributors_map := <[repo_name := 0]> (contributors_map p);
           pending_repos := pending_repos p;
           log := log'; requester := st' |}.

Fixpoint first_pass (org : string) (p : poller St) (repos : list string)
  : result (poller St) :=
  match repos with
  | [] => ret p
  | repo_name :: rest =>
      try! p' := first_request org p repo_name in first_pass org p' rest
  end.

(** One iteration of the inner loop of a retry pass (lines 59-69);
    [pending_repos] of the record is [still_pending] here. *)
Definition retry_request (org : string) (p : poller St) (repo_name : string)
  : poller St :=
  let url := contributors_url org repo_name in
  let '(status, data, st') := rest_request requestJson (requester p) "GET" url in
  let log' := log p ++ [Get url status data] in
  if (status =? HTTP_OK) && has_data data then
    {| contributors_map :=
         <[repo_name := match data with
                        | Some s => Z.of_nat (code_points s)
                        | None => 0
                        end]> (contributors_map p);
       pending_repos := pending_repos p;
       log := log'; requester := st' |}
  else if status =? HTTP_ACCEPTED then
    {| contributors_map := contributors_map p;
       pending_repos := pending_repos p ++ [repo_name];
       log := log'; requester := st' |}
  else
    {| contributors_map := <[repo_name := 0]> (contributors_map p);
       pending_repos := pending_repos p;
       log := log'; requester := st' |}.

(** One turn of the [while] loop: the sleep, then one request for
    each pending repository, [still_pending] starting empty. *)
Definition retry_pass (org : string) (p : poller St) : poller St :=
  fold_left (retry_request org) (pending_repos p)
            {| contributors_map := contributors_map p;
               pending_repos := [];
               log := log p ++ [Wait CONTRIBUTOR_RETRY_SLEEP_SECONDS];
               requester := requester p |}.

(** [while pending_repos and retries_remaining > 0]. *)
Fixpoint retry_loop (retries_remaining : nat) (org : string) (p : poller St)
  : poller St :=
  match pending_repos p, retries_remaining with
  | _ :: _, S retries => retry_loop retries org (retry_pass org p)
  | _, _ => p
  end.

(** The last loop (lines 74-76). *)
Definition time_out (p : poller St) : poller St :=
  {| contributors_map :=
       fold_left (fun m repo_name => <[repo_name := 0]> m)
                 (pending_repos p) (contributors_map p);
     pending_repos := pending_repos p;
     log := log p; requester := requester p |}.

Definition _fetch_all_contributors (st : St) (org : string)
    (repos : list string) : result (gmap string Z * list poll_event * St) :=
  try! p := first_pass org {| contributors_map := ∅; pending_repos := [];
                              log := []; requester := st |} repos in
  let p' := time_out (retry_loop MAX_CONTRIBUTOR_RETRIES org p) in
  ret (contributors_map p', log p', requester p').
End Poller.

(** Observations on the poller's log. *)
Definition responses (url : string) (tr : list poll_event)
  : list (Z * option string) :=
  omap (fun ev => match ev with
                  | Get u status data =>
                      if String.eqb u url then Some (status, data) else None
                  | Wait _ => None
                  end) tr.

Definition waits (tr : list poll_event) : list Z :=
  omap (fun ev => match ev with Wait s => Some s | Get _ _ _ => None end) tr.

Arguments responses : simpl never.
Arguments waits : simpl never.


(** *** A requester for the three-unit scenario

    [ready] answers 200 with a body at once; [slow] answers 202 to its
    first two requests and 200 with a body from the third on; [stuck]
    answers 202 for ever.  The state counts the requests made for
    [slow]. *)
Definition scenario_requester (org ready slow stuck : string)
    (ready_body slow_body : string)
    (polls : nat) (method url : string) : option (Z * option string) * nat :=
  if String.eqb url (contributors_url org ready) then
    (Some (HTTP_OK, Some ready_body), polls)
  else if String.eqb url (contributors_url org slow) then
    (Some (if (polls <? 2)%nat then (HTTP_ACCEPTED, None)
           else (HTTP_OK, Some slow_body)), S polls)
  else if String.eqb url (contributors_url org stuck) then
    (Some (HTTP_ACCEPTED, None), polls)
  else (Some (404, None), polls).

(** *** The state of one unit, read off the poller's variables

    [all_pending rs]: every answer in [rs] is 202.  [settled v rs]: the
    answers are 202s followed by one last answer that is not 202, the
    unit holds [v], and [v] is 0 unless that last answer was 200. *)
Definition all_pending (rs : list (Z * option string)) : Prop :=
  Forall (fun r => r.1 = HTTP_ACCEPTED) rs.

Definition settled (v : option Z) (rs : list (Z * option string)) : Prop :=
  ∃ pre fin n,
    rs = pre ++ [fin] ∧ all_pending pre ∧ fin.1 ≠ HTTP_ACCEPTED
    ∧ v = Some n ∧ (fin.1 ≠ HTTP_OK -> n = 0).

(** [unit_inv org n todo p r]: where unit [r] stands while a pass goes
    over [todo], [n] answers per unit having been received before the
    pass. *)
Definition unit_inv {St : Type} (org : string) (n : nat) (todo : list string)
    (p : poller St) (r : string) : Prop :=
  let rs := responses (contributors_url org r) (log p) in
  let v := contributors_map p !! r in
  (r ∈ todo ∧ (r ∉ pending_repos p) ∧ v = None ∧ all_pending rs
   ∧ length rs = n)
  ∨ ((r ∉ todo) ∧ r ∈ pending_repos p ∧ v = None ∧ all_pending rs
     ∧ length rs = S n)
  ∨ ((r ∉ todo) ∧ (r ∉ pending_repos p)
     ∧ ((rs = [] ∧ v = None) ∨ settled v rs)).

Definition pass_inv {St : Type} (org : string) (n : nat) (todo : list string)
    (p : poller St) : Prop :=
  NoDup todo ∧ NoDup (pending_repos p) ∧ ∀ r, unit_inv org n todo p r.

(** What one request does to the poller, whichever loop issues it. *)
Definition requested {St : Type} (org x : string) (p p' : poller St) : Prop :=
  ∃ status data,
    log p' = log p ++ [Get (contributors_url org x) status data]
    ∧ ((status = HTTP_ACCEPTED
        ∧ contributors_map p' = contributors_map p
        ∧ pending_repos p' = pending_repos p ++ [x])
       ∨ (status ≠ HTTP_ACCEPTED
          ∧ pending_repos p' = pending_repos p
          ∧ ∃ v, contributors_map p' = <[x := v]> (contributors_map p)
                 ∧ (status ≠ HTTP_OK -> v = 0))).

(** Every body the requester hands out is empty or the text of a JSON
    array or object. *)
Definition json_bodies {St : Type} (json_loads : string -> result json)
    (requestJson : St -> string -> string -> option (Z * option string) * St)
  : Prop :=
  ∀ st method url status body st',
    requestJson st method url = (Some (status, Some body), st') ->
    body = "" ∨ (∃ items, json_loads body = inr (JArr items))
    ∨ (∃ fields, json_loads body = inr (JObj fields)).

(** One request for each unit of [todo], in order. *)
Inductive requests_all {St : Type} (org : string)
  : list string -> poller St -> poller St -> Prop :=
| requests_none p : requests_all org [] p p
| requests_next x todo p p1 p' :
    requested org x p p1 ->
    requests_all org todo p1 p' ->
    requests_all org (x :: todo) p p'.

(** The poller as a retry pass finds it: the sleep logged,
    [still_pending] empty. *)
Definition start_pass {St : Type} (p : poller St) : poller St :=
  {| contributors_map := contributors_map p;
     pending_repos := [];
     log := log p ++ [Wait CONTRIBUTOR_RETRY_SLEEP_SECONDS];
     requester := requester p |}.

(** Observations on what [_fetch_all_contributors] returns. *)
Definition count_of {St : Type}
    (run : result (gmap string Z * list poll_event * St)) (repo_name : string)
  : option Z :=
  match run with
  | inr (m, _, _) => m !! repo_name
  | inl _ => None
  end.

Definition total_wait (tr : list poll_event) : Z := foldr Z.add 0 (waits tr).

Definition total_wait_of {St : Type}
    (run : result (gmap string Z * list poll_event * St)) : option Z :=
  match run with
  | inr (_, tr, _) => Some (total_wait tr)
  | inl _ => None
  end.

(** The convergence property as the specification words it: the three
    units resolve to [ready_value], [slow_value] and 0, after one,
    three and [1 + MAX_CONTRIBUTOR_RETRIES] requests, and the waits add
    up to twice the retry interval. *)
Definition convergence_as_claimed {St : Type}
    (run : result (gmap string Z * list poll_event * St))
    (org ready slow stuck : string) (ready_value slow_value : Z) : Prop :=
  ∃ m tr st',
    run = inr (m, tr, st')
    ∧ m !! ready = Some ready_value
    ∧ length (responses (contributors_url org ready) tr) = 1%nat
    ∧ m !! slow = Some slow_value
    ∧ length (responses (contributors_url org slow) tr) = 3%nat
    ∧ m !! stuck = Some 0
    ∧ length (responses (contributors_url org stuck) tr)
      = S MAX_CONTRIBUTOR_RETRIES
    ∧ total_wait tr = 2 * CONTRIBUTOR_RETRY_SLEEP_SECONDS.

(** The scenario on concrete data: three and two contributor entries. *)
Definition scenario_run : result (gmap string Z * list poll_event * nat) :=
  _fetch_all_contributors
    JsonText.loads
    (scenario_requester "org" "a" "b" "c" "[{}, {}, {}]" "[{}, {}]")
    0%nat "org" ["a"; "b"; "c"].

(** The answer [slow] gets in the end, given at once instead. *)
Definition prompt_run : result (gmap string Z * list poll_event * nat) :=
  _fetch_all_contributors
    JsonText.loads
    (scenario_requester "org" "b" "a" "c" "[{}, {}]" "[{}, {}, {}]")
    0%nat "org" ["b"].

Definition late_run : result (gmap string Z * list poll_event * nat) :=
  _fetch_all_contributors
    JsonText.loads
    (scenario_requester "org" "a" "b" "c" "[{}, {}, {}]" "[{}, {}]")
    0%nat "org" ["b"].

(** An error page: status 502 with an HTML body.  [error_page_requester]
    answers every request with it; [late_error_page_requester] answers
    202 to the first request and the error page from then on (the
    state counts the requests). *)
Definition HTTP_BAD_GATEWAY : Z := 502.

Definition error_page : string := "<html>Bad Gateway</html>".

Definition error_page_requester (st : unit) (method url : string)
  : option (Z * option string) * unit :=
  (Some (HTTP_BAD_GATEWAY, Some error_page), tt).

Definition late_error_page_requester (polls : nat) (method url : string)
  : option (Z * option string) * nat :=
  (Some (if (polls =? 0)%nat then (HTTP_ACCEPTED, None)
         else (HTTP_BAD_GATEWAY, Some error_page)), S polls).

(** The error page as the answer to the first request for ["a"], and
    as the answer to its second request. *)
Definition error_run : result (gmap string Z * list poll_event * unit) :=
  _fetch_all_contributors JsonText.loads error_page_requester tt "org" ["a"].

Definition late_error_run : result (gmap string Z * list poll_event * nat) :=
  _fetch_all_contributors JsonText.loads late_error_page_requester
                          0%nat "org" ["a"].

(** ** models.py: the report *)

Record RepositoryResult : Type := {
  repository_name : string;
  repo_name_with_owner : string;
  license_name : string;
  topics : list string;
  projects_v2_count : Z;
  discussions_count : Z;
  forks_count : Z;
  total_issues_count : Z;
  open_issues_count : Z;
  closed_issues_count : Z;
  total_pull_requests_count : Z;
  open_pull_requests_count : Z;
  closed_pull_requests_count : Z;
  merged_pull_requests_count : Z;
  watchers_count : Z;
  stars_count : Z;
  collaborators_count : Z;
  total_download_count : Z;
  monthly_download_count : Z;
  weekly_download_count : Z;
  daily_download_count : Z;
  contributors_count : Z;
  conda_total_downloads : Z;
  conda_monthly_downloads : Z;
  discussions_enabled : bool;
  projects_enabled : bool;
  issues_enabled : bool;
  open_issues_average_age : float;
  open_issues_median_age : float;
  closed_issues_average_age : float;
  closed_issues_median_age : float;
  issues_response_average_age : float;
  issues_response_median_age : float;
}.

(** [RepositoryResult()]: every field at its default. *)
Definition RepositoryResult_default : RepositoryResult :=
  {| repository_name := "";
     repo_name_with_owner := "";
     license_name := "";
     topics := [];
     projects_v2_count := 0;
     discussions_count := 0;
     forks_count := 0;
     total_issues_count := 0;
     open_issues_count := 0;
     closed_issues_count := 0;
     total_pull_requests_count := 0;
     open_pull_requests_count := 0;
     closed_pull_requests_count := 0;
     merged_pull_requests_count := 0;
     watchers_count := 0;
     stars_count := 0;
     collaborators_count := 0;
     total_download_count := 0;
     monthly_download_count := 0;
     weekly_download_count := 0;
     daily_download_count := 0;
     contributors_count := 0;
     conda_total_downloads := 0;
     conda_monthly_downloads := 0;
     discussions_enabled := false;
     projects_enabled := false;
     issues_enabled := false;
     open_issues_average_age := 0%float;
     open_issues_median_age := 0%float;
     closed_issues_average_age := 0%float;
     closed_issues_median_age := 0%float;
     issues_response_average_age := 0%float;
     issues_response_median_age := 0%float |}.

(** The seven assignments of [add_issue_and_pr_data]. *)
Definition set_issue_and_pr_counts (total_issues open_issues closed_issues total_prs open_prs closed_prs
     merged_prs : Z) (r : RepositoryResult)
  : RepositoryResult :=
  {| repository_name := repository_name r;
     repo_name_with_owner := repo_name_with_owner r;
     license_name := license_name r;
     topics := topics r;
     projects_v2_count := projects_v2_count r;
     discussions_count := discussions_count r;
     forks_count := forks_count r;
     total_issues_count := total_issues;
     open_issues_count := open_issues;
     closed_issues_count := closed_issues;
     total_pull_requests_count := total_prs;
     open_pull_requests_count := open_prs;
     closed_pull_requests_count := closed_prs;
     merged_pull_requests_count := merged_prs;
     watchers_count := watchers_count r;
     stars_count := stars_count r;
     collaborators_count := collaborators_count r;
     total_download_count := total_download_count r;
     monthly_download_count := monthly_download_count r;
     weekly_download_count := weekly_download_count r;
     daily_download_count := daily_download_count r;
     contributors_count := contributors_count r;
     conda_total_downloads := conda_total_downloads r;
     conda_monthly_downloads := conda_monthly_downloads r;
     discussions_enabled := discussions_enabled r;
     projects_enabled := projects_enabled r;
     issues_enabled := issues_enabled r;
     open_issues_average_age := open_issues_average_age r;
     open_issues_median_age := open_issues_median_age r;
     closed_issues_average_age := closed_issues_average_age r;
     closed_issues_median_age := closed_issues_median_age r;
     issues_response_average_age := issues_response_average_age r;
     issues_response_median_age := issues_response_median_age r |}.

(** [r.discussions_count = n]. *)
Definition set_discussions_count (n : Z) (r : RepositoryResult)
  : RepositoryResult :=
  {| repository_name := repository_name r;
     repo_name_with_owner := repo_name_with_owner r;
     license_name := license_name r;
     topics := topics r;
     projects_v2_count := projects_v2_count r;
     discussions_count := n;
     forks_count := forks_count r;
     total_issues_count := total_issues_count r;
     open_issues_count := open_issues_count r;
     closed_issues_count := closed_issues_count r;
     total_pull_requests_count := total_pull_requests_count r;
     open_pull_requests_count := open_pull_requests_count r;
     closed_pull_requests_count := closed_pull_requests_count r;
     merged_pull_requests_count := merged_pull_requests_count r;
     watchers_count := watchers_count r;
     stars_count := stars_count r;
     collaborators_count := collaborators_count r;
     total_download_count := total_download_count r;
     monthly_download_count := monthly_download_count r;
     weekly_download_count := weekly_download_count r;
     daily_download_count := daily_download_count r;
     contributors_count := contributors_count r;
     conda_total_downloads := conda_total_downloads r;
     conda_monthly_downloads := conda_monthly_downloads r;
     discussions_enabled := discussions_enabled r;
     projects_enabled := projects_enabled r;
     issues_enabled := issues_enabled r;
     open_issues_average_age := open_issues_average_age r;
     open_issues_median_age := open_issues_median_age r;
     closed_issues_average_age := closed_issues_average_age r;
     closed_issues_median_age := closed_issues_median_age r;
     issues_response_average_age := issues_response_average_age r;
     issues_response_median_age := issues_response_median_age r |}.

(** The four assignments of [add_downloads_pepy]. *)
Definition set_download_counts (total monthly weekly daily : Z) (r : RepositoryResult)
  : RepositoryResult :=
  {| repository_name := repository_name r;
     repo_name_with_owner := repo_name_with_owner r;
     license_name := license_name r;
     topics := topics r;
     projects_v2_count := projects_v2_count r;
     discussions_count := discussions_count r;
     forks_count := forks_count r;
     total_issues_count := total_issues_count r;
     open_issues_count := open_issues_count r;
     closed_issues_count := closed_issues_count r;
     total_pull_requests_count := total_pull_requests_count r;
     open_pull_requests_count := open_pull_requests_count r;
     closed_pull_requests_count := closed_pull_requests_count r;
     merged_pull_requests_count := merged_pull_requests_count r;
     watchers_count := watchers_count r;
     stars_count := stars_count r;
     collaborators_count := collaborators_count r;
     total_download_count := total;
     monthly_download_count := monthly;
     weekly_download_count := weekly;
     daily_download_count := daily;
     contributors_count := contributors_count r;
     conda_total_downloads := conda_total_downloads r;
     conda_monthly_downloads := conda_monthly_downloads r;
     discussions_enabled := discussions_enabled r;
     projects_enabled := projects_enabled r;
     issues_enabled := issues_enabled r;
     open_issues_average_age := open_issues_average_age r;
     open_issues_median_age := open_issues_median_age r;
     closed_issues_average_age := closed_issues_average_age r;
     closed_issues_median_age := closed_issues_median_age r;
     issues_response_average_age := issues_response_average_age r;
     issues_response_median_age := issues_response_median_age r |}.

(** [r.conda_total_downloads += total]. *)
Definition add_conda_total_downloads (total : Z) (r : RepositoryResult)
  : RepositoryResult :=
  {| repository_name := repository_name r;
     repo_name_with_owner := repo_name_with_owner r;
     license_name := license_name r;
     topics := topics r;
     projects_v2_count := projects_v2_count r;
     discussions_count := discussions_count r;
     forks_count := forks_count r;
     total_issues_count := total_issues_count r;
     open_issues_count := open_issues_count r;
     closed_issues_count := closed_issues_count r;
     total_pull_requests_count := total_pull_requests_count r;
     open_pull_requests_count := open_pull_requests_count r;
     closed_pull_requests_count := closed_pull_requests_count r;
     merged_pull_requests_count := merged_pull_requests_count r;
     watchers_count := watchers_count r;
     stars_count := stars_count r;
     collaborators_count := collaborators_count r;
     total_download_count := total_download_count r;
     monthly_download_count := monthly_download_count r;
     weekly_download_count := weekly_download_count r;
     daily_download_count := daily_download_count r;
     contributors_count := contributors_count r;
     conda_total_downloads := conda_total_downloads r + total;
     conda_monthly_downloads := conda_monthly_downloads r;
     discussions_enabled := discussions_enabled r;
     projects_enabled := projects_enabled r;
     issues_enabled := issues_enabled r;
     open_issues_average_age := open_issues_average_age r;
     open_issues_median_age := open_issues_median_age r;
     closed_issues_average_age := closed_issues_average_age r;
     closed_issues_median_age := closed_issues_median_age r;
     issues_response_average_age := issues_response_average_age r;
     issues_response_median_age := issues_response_median_age r |}.

(** [r.conda_monthly_downloads += total]. *)
Definition add_conda_monthly_downloads (total : Z) (r : RepositoryResult)
  : RepositoryResult :=
  {| repository_name := repository_name r;
     repo_name_with_owner := repo_name_with_owner r;
     license_name := license_name r;
     topics := topics r;
     projects_v2_count := projects_v2_count r;
     discussions_count := discussions_count r;
     forks_count := forks_count r;
     total_issues_count := total_issues_count r;
     open_issues_count := open_issues_count r;
     closed_issues_count := closed_issues_count r;
     total_pull_requests_count := total_pull_requests_count r;
     open_pull_requests_count := open_pull_requests_count r;
     closed_pull_requests_count := closed_pull_requests_count r;
     merged_pull_requests_count := merged_pull_requests_count r;
     watchers_count := watchers_count r;
     stars_count := stars_count r;
     collaborators_count := collaborators_count r;
     total_download_count := total_download_count r;
     monthly_download_count := monthly_download_count r;
     weekly_download_count := weekly_download_count r;
     daily_download_count := daily_download_count r;
     contributors_count := contributors_count r;
     conda_total_downloads := conda_total_downloads r;
     conda_monthly_downloads := conda_monthly_downloads r + total;
     discussions_enabled := discussions_enabled r;
     projects_enabled := projects_enabled r;
     issues_enabled := issues_enabled r;
     open_issues_average_age := open_issues_average_age r;
     open_issues_median_age := open_issues_median_age r;
     closed_issues_average_age := closed_issues_average_age r;
     closed_issues_median_age := closed_issues_median_age r;
     issues_response_average_age := issues_response_average_age r;
     issues_response_median_age := issues_response_median_age r |}.

Record OrgInfo : Type := {
  login : string;
  name : string;
  description : option string;
  org_created_at : string;
  repositories_count : Z;
}.

Record Meta : Type := {
  created_at : string;
}.

Record Result : Type := {
  meta : Meta;
  org_info : OrgInfo;
  repositories : gmap string RepositoryResult;
}.

(** [Result()]. *)
Definition Result_default : Result :=
  {| meta := {| created_at := "" |};
     org_info := {| login := ""; name := ""; description := None;
                    org_created_at := ""; repositories_count := 0 |};
     repositories := ∅ |}.

(** [result.repositories = repos], the rest of the report kept. *)
Definition with_repositories (res : Result)
    (repos : gmap string RepositoryResult) : Result :=
  {| meta := meta res; org_info := org_info res; repositories := repos |}.


(** ** The lookup-only enrichment steps

    A value of the report typed [int] is read from the provider's data
    with [as_int]; a provider value of another type is outside the
    model and shows as a [TypeError]. *)

Definition as_int (v : json) : result Z :=
  match v with
  | JNum n => ret n
  | _ => raise TypeError
  end.

Definition as_str (v : json) : result string :=
  match v with
  | JStr s => ret s
  | _ => raise TypeError
  end.

Definition is_none (v : json) : bool :=
  match v with
  | JNull => true
  | _ => false
  end.

(** [all_repos.extend([n for n in nodes if n is not None])], page after
    page. *)
Fixpoint collect_nodes (pages : list json) (all_repos : list json)
  : result (list json) :=
  match pages with
  | [] => ret all_repos
  | page :: rest =>
      try! nodes := navigate page ["organization"; "repositories"; "nodes"] in
      try! items := py_iter nodes in
      collect_nodes rest
                    (all_repos ++ List.filter (fun n => negb (is_none n)) items)
  end.

(** [_get_issue_and_pr_data] and [_query_for_discussions]: the nodes of
    all pages of [query]; [None] for a run still going when the fuel is
    spent. *)
Definition query_nodes {St : Type}
    (graphql : St -> string -> dict -> result json * St)
    (query : string) (fuel : nat) (st : St) (config : Config)
  : option (result (list json)) :=
  let '(tr, out, _) :=
    graphql_paginate graphql query
                     [("organization", JStr (organization config))]
                     ["organization"; "repositories"] fuel st in
  match collect_nodes (yields tr) [] with
  | inl e => Some (inl e)
  | inr nodes =>
      match out with
      | Finished => Some (inr nodes)
      | Raised e => Some (inl e)
      | OutOfFuel => None
      end
  end.

Definition ISSUE_AND_PR_QUERY : string :=
  "query($cursor: String, $organization: String!) { organization(login:$organization){ repositories(privacy:PUBLIC, first:100, isFork:false, isArchived:false, after: $cursor) { totalCount pageInfo { hasNextPage endCursor } nodes { name totalIssues: issues { totalCount } closedIssues: issues(states:CLOSED) { totalCount } openIssues: issues(states:OPEN) { totalCount } openPullRequests: pullRequests(states:OPEN) { totalCount } totalPullRequests: pullRequests { totalCount } closedPullRequests: pullRequests(states:CLOSED) { totalCount } mergedPullRequests: pullRequests(states:MERGED) { totalCount } } } } }".


(** [repo["name"]], as [should_exclude_repo] needs it: a string. *)
Definition repo_name_of (repo : json) : result string :=
  try! n := subscript repo "name" in
  match n with
  | JStr s => ret s
  | _ => raise AttributeError
  end.

(** [repo[key]["totalCount"]]. *)
Definition total_count (repo : json) (key : string) : result Z :=
  try! conn := subscript repo key in
  try! n := subscript conn "totalCount" in
  as_int n.

(** *** fetchers/issues.py: [add_issue_and_pr_data] *)

Definition issue_and_pr_update (repo : json) (r : RepositoryResult)
  : result RepositoryResult :=
  try! total_issues := total_count repo "totalIssues" in
  try! open_issues := total_count repo "openIssues" in
  try! closed_issues := total_count repo "closedIssues" in
  try! total_prs := total_count repo "totalPullRequests" in
  try! open_prs := total_count repo "openPullRequests" in
  try! closed_prs := total_count repo "closedPullRequests" in
  try! merged_prs := total_count repo "mergedPullRequests" in
  ret (set_issue_and_pr_counts total_issues open_issues closed_issues
                               total_prs open_prs closed_prs merged_prs r).

(** The shape shared by the loops of [add_issue_and_pr_data] and
    [add_discussion_data]: the exclusion test, the lookup, the update
    [upd] of the record found. *)
Fixpoint lookup_loop (upd : json -> RepositoryResult -> result RepositoryResult)
    (file : option (list string)) (c : cache) (config : Config)
    (res : Result) (data_result : list json) : result (Result * cache) :=
  match data_result with
  | [] => ret (res, c)
  | repo :: rest =>
      try! repo_name := repo_name_of repo in
      let '(excluded, c') := should_exclude_repo file c repo_name config in
      if excluded then lookup_loop upd file c' config res rest
      else
        match repositories res !! repo_name with
        | None => lookup_loop upd file c' config res rest
        | Some r =>
            try! r' := upd repo r in
            lookup_loop upd file c' config
                        (with_repositories
                           res (<[repo_name := r']> (repositories res)))
                        rest
        end
  end.


(** *** fetchers/discussions.py: [add_discussion_data] *)

Definition discussions_update (repo : json) (r : RepositoryResult)
  : result RepositoryResult :=
  try! discussions := get_method repo "discussions" (JObj []) in
  try! n := get_method discussions "totalCount" (JNum 0) in
  try! discussions_count := as_int n in
  ret (set_discussions_count discussions_count r).


(** *** fetchers/fetch_parquet.py: [add_conda_data]

    The parquet files and DuckDB are outside the model.  What the step
    takes from them: [table], the total per package over all months
    ([pkg_name], [SUM(counts)] grouped by package), and [last_month],
    the same for the last month's file ([None] when that file does not
    exist); [failed] tells that DuckDB raised.  [legacy_file] is the
    content of [brainglobe_legacy.json] when it exists. *)

Record CondaData : Type := {
  table : list (string * Z);
  last_month : option (list (string * Z));
  failed : bool;
}.

Definition legacy_packages_map (config : Config) (legacy_file : option dict)
  : list (string * string) :=
  if String.eqb (organization config) "brainglobe" then
    match legacy_file with
    | Some legacy_packages =>
        omap (fun kv => match snd kv with
                        | JStr value => Some (fst kv, value)
                        | _ => None
                        end) legacy_packages
    | None => []
    end
  else [].

Fixpoint legacy_get (key : string) (m : list (string * string)) : option string :=
  match m with
  | [] => None
  | (k, v) :: rest => if String.eqb k key then Some v else legacy_get key rest
  end.

(** [if pkg_name in legacy_packages_map: pkg_name = legacy_packages_map[pkg_name]]. *)
Definition remap (legacy : list (string * string)) (pkg_name : string) : string :=
  match legacy_get pkg_name legacy with
  | Some current => current
  | None => pkg_name
  end.

(** [WHERE pkg_name IN (packages)]. *)
Definition rows_of (packages : list string) (rows : list (string * Z))
  : list (string * Z) :=
  List.filter (fun row => contains packages (fst row)) rows.

(** The two loops that end the step, [add] being the [+=] on the field
    at hand. *)
Fixpoint conda_loop (add : Z -> RepositoryResult -> RepositoryResult)
    (legacy : list (string * string)) (res : Result)
    (rows : list (string * Z)) : Result :=
  match rows with
  | [] => res
  | (pkg_name, total) :: rest =>
      let pkg_name := remap legacy pkg_name in
      match repositories res !! pkg_name with
      | None => conda_loop add legacy res rest
      | Some r =>
          conda_loop add legacy
                     (with_repositories
                        res (<[pkg_name := add total r]> (repositories res)))
                     rest
      end
  end.

(** [[repo["name"] for repo in repos]]. *)
Fixpoint names_of (repos : list json) : result (list string) :=
  match repos with
  | [] => ret []
  | repo :: rest =>
      try! repo_name := repo_name_of repo in
      try! names := names_of rest in
      ret (repo_name :: names)
  end.

Definition add_conda_data {St : Type}
    (graphql : St -> string -> dict -> result json * St)
    (fuel : nat) (st : St) (file : option (list string)) (c : cache)
    (legacy_file : option dict) (conda : CondaData)
    (res : Result) (config : Config) : option (result (Result * cache)) :=
  match query_repo_names graphql fuel st file c config with
  | None => None
  | Some (inl e) => Some (inl e)
  | Some (inr (repos, c')) =>
      match names_of repos with
      | inl e => Some (inl e)
      | inr names =>
          let legacy := legacy_packages_map config legacy_file in
          let packages := names ++ map fst legacy in
          if failed conda then Some (inr (res, c'))
          else
            let total_downloads := rows_of packages (table conda) in
            let last_month_downloads :=
              match last_month conda with
              | Some rows => rows_of packages rows
              | None => []
              end in
            let res1 :=
              conda_loop add_conda_total_downloads legacy res total_downloads in
            Some (inr (conda_loop add_conda_monthly_downloads legacy res1
                                  last_month_downloads, c'))
      end
  end.

(** *** fetchers/downloads_pepy.py *)

Definition PEPY_RATE_LIMIT_REQUESTS : Z := 8.
Definition PEPY_RATE_LIMIT_SLEEP_SECONDS : Z := 80.
Definition PEPY_MAX_RETRIES : nat := 2.
Definition HTTP_NOT_FOUND : Z := 404.
Definition HTTP_TOO_MANY_REQUESTS : Z := 429.

(** What [_fetch_downloads] comes back with: a [RequestException], or a
    response with its status and what [response.json()] gives ([None]
    when it raises, which [requests] does with a [RequestException]
    too). *)
Inductive pepy_answer : Type :=
| RequestException
| Response (status_code : Z) (body : option json).

Record pepy_state {P : Type} : Type := {
  project_results : list (string * json);
  num_requests : Z;
  pepy_sleeps : list Z;
  pepy : P;
}.
Arguments pepy_state : clear implicits.

Section Pepy.
Context {P : Type}.
Variable _fetch_downloads : P -> string -> string -> pepy_answer * P.

(** [retries -= 1; num_requests = 0; time.sleep(...)]. *)
Definition back_off (s : pepy_state P) (p' : P) : pepy_state P :=
  {| project_results := project_results s;
     num_requests := 0;
     pepy_sleeps := pepy_sleeps s ++ [PEPY_RATE_LIMIT_SLEEP_SECONDS];
     pepy := p' |}.

(** The [while retries > 0] loop for one repository. *)
Fixpoint attempts (retries : nat) (repo_name api_key : string)
    (s : pepy_state P) : pepy_state P :=
  match retries with
  | O => s
  | S retries' =>
      let throttled := PEPY_RATE_LIMIT_REQUESTS <=? num_requests s in
      let sleeps1 :=
        if throttled then pepy_sleeps s ++ [PEPY_RATE_LIMIT_SLEEP_SECONDS]
        else pepy_sleeps s in
      let n1 := (if throttled then 0 else num_requests s) + 1 in
      let '(answer, p') := _fetch_downloads (pepy s) repo_name api_key in
      let s1 := {| project_results := project_results s; num_requests := n1;
                   pepy_sleeps := sleeps1; pepy := p' |} in
      match answer with
      | RequestException => attempts retries' repo_name api_key (back_off s1 p')
      | Response status_code body =>
          if status_code =? HTTP_NOT_FOUND then s1
          else if status_code =? HTTP_TOO_MANY_REQUESTS then
            attempts retries' repo_name api_key (back_off s1 p')
          else
            match body with
            | None => attempts retries' repo_name api_key (back_off s1 p')
            | Some project_data =>
                if truthy project_data then
                  {| project_results :=
                       project_results s1 ++ [(repo_name, project_data)];
                     num_requests := n1; pepy_sleeps := sleeps1; pepy := p' |}
                else s1
            end
      end
  end.

Fixpoint query_projects (repositories : list json) (api_key : string)
    (s : pepy_state P) : result (pepy_state P) :=
  match repositories with
  | [] => ret s
  | repo :: rest =>
      try! repo_name := subscript repo "name" in
      try! repo_name := as_str repo_name in
      query_projects rest api_key
                     (attempts PEPY_MAX_RETRIES repo_name api_key s)
  end.

Definition _query_projects_for_repositories (repositories : list json)
    (api_key : string) (p : P) : result (list (string * json) * list Z * P) :=
  try! s := query_projects repositories api_key
                           {| project_results := []; num_requests := 0;
                              pepy_sleeps := []; pepy := p |} in
  ret (project_results s, pepy_sleeps s, pepy s).
End Pepy.

(** [_process_download_numbers].  A [datetime] is a number of
    microseconds; [now] is the reading of the clock, [strptime] parses
    a [%Y-%m-%d] date to its midnight (or raises [ValueError]), and
    [strftime] prints the date of a [datetime]. *)
Definition DAY : Z := 86400000000.

Section Downloads.
Variable now : Z.
Variable strptime : string -> result Z.
Variable strftime : Z -> string.

(** [sum(versions.values())]. *)
Fixpoint sum_values (versions : dict) : result Z :=
  match versions with
  | [] => ret 0
  | (_, v) :: rest =>
      try! n := as_int v in
      try! total := sum_values rest in
      ret (n + total)
  end.

(** [download_collapsed]. *)
Fixpoint collapse (downloads : dict) : result (list (string * Z)) :=
  match downloads with
  | [] => ret []
  | (date_str, versions) :: rest =>
      try! count := match versions with
                    | JObj d => sum_values d
                    | _ => raise AttributeError
                    end in
      try! collapsed := collapse rest in
      ret ((date_str, count) :: collapsed)
  end.

(** The sum of the counts of the dates after [bound]. *)
Fixpoint downloads_after (bound : Z) (collapsed : list (string * Z))
    (acc : Z) : result Z :=
  match collapsed with
  | [] => ret acc
  | (date_str, count) :: rest =>
      try! date := strptime date_str in
      downloads_after bound rest (if bound <? date then acc + count else acc)
  end.

Fixpoint collapsed_get (key : string) (collapsed : list (string * Z))
  : option Z :=
  match collapsed with
  | [] => None
  | (k, v) :: rest => if String.eqb k key then Some v else collapsed_get key rest
  end.

Definition _process_download_numbers (project_result : json)
  : result (Z * Z * Z * Z) :=
  let current_date := now - DAY in
  let end_date_month := current_date - 30 * DAY in
  let end_date_week := current_date - 7 * DAY in
  try! downloads := get_method project_result "downloads" (JObj []) in
  try! items := match downloads with
                | JObj d => ret d
                | _ => raise AttributeError
                end in
  try! download_collapsed := collapse items in
  try! monthly := downloads_after end_date_month download_collapsed 0 in
  try! weekly := downloads_after end_date_week download_collapsed 0 in
  let daily_date := strftime current_date in
  let daily := default 0 (collapsed_get daily_date download_collapsed) in
  try! total := get_method project_result "total_downloads" (JNum 0) in
  try! total := as_int total in
  ret (total, monthly, weekly, daily).

(** The loop that ends [add_downloads_pepy]. *)
Fixpoint downloads_loop (res : Result) (output : list (string * json))
  : result Result :=
  match output with
  | [] => ret res
  | (repo_name, data) :: rest =>
      match repositories res !! repo_name with
      | None => downloads_loop res rest
      | Some r =>
          try! processed := _process_download_numbers data in
          let '(total, monthly, weekly, daily) := processed in
          downloads_loop
            (with_repositories
               res (<[repo_name := set_download_counts total monthly weekly
                                                       daily r]>
                      (repositories res)))
            rest
      end
  end.

End Downloads.


(** *** fetchers/repository.py: the records [add_repositories_to_result] builds *)

(** [RepositoryResult(repository_name=..., ...)] with the twelve
    keyword arguments of the call; the other fields take their
    defaults. *)
Definition new_RepositoryResult (repo_name name_with_owner license : string)
    (topic_list : list string) (forks watchers stars collaborators : Z)
    (has_issues has_projects has_discussions : bool) (projects_v2 : Z)
  : RepositoryResult :=
  {| repository_name := repo_name;
     repo_name_with_owner := name_with_owner;
     license_name := license;
     topics := topic_list;
     projects_v2_count := projects_v2;
     discussions_count := discussions_count RepositoryResult_default;
     forks_count := forks;
     total_issues_count := total_issues_count RepositoryResult_default;
     open_issues_count := open_issues_count RepositoryResult_default;
     closed_issues_count := closed_issues_count RepositoryResult_default;
     total_pull_requests_count := total_pull_requests_count RepositoryResult_default;
     open_pull_requests_count := open_pull_requests_count RepositoryResult_default;
     closed_pull_requests_count := closed_pull_requests_count RepositoryResult_default;
     merged_pull_requests_count := merged_pull_requests_count RepositoryResult_default;
     watchers_count := watchers;
     stars_count := stars;
     collaborators_count := collaborators;
     total_download_count := total_download_count RepositoryResult_default;
     monthly_download_count := monthly_download_count RepositoryResult_default;
     weekly_download_count := weekly_download_count RepositoryResult_default;
     daily_download_count := daily_download_count RepositoryResult_default;
     contributors_count := contributors_count RepositoryResult_default;
     conda_total_downloads := conda_total_downloads RepositoryResult_default;
     conda_monthly_downloads := conda_monthly_downloads RepositoryResult_default;
     discussions_enabled := has_discussions;
     projects_enabled := has_projects;
     issues_enabled := has_issues;
     open_issues_average_age := open_issues_average_age RepositoryResult_default;
     open_issues_median_age := open_issues_median_age RepositoryResult_default;
     closed_issues_average_age := closed_issues_average_age RepositoryResult_default;
     closed_issues_median_age := closed_issues_median_age RepositoryResult_default;
     issues_response_average_age := issues_response_average_age RepositoryResult_default;
     issues_response_median_age := issues_response_median_age RepositoryResult_default |}.

Definition as_bool (v : json) : result bool :=
  match v with
  | JBool b => ret b
  | _ => raise TypeError
  end.

(** [[node["topic"]["name"] for node in nodes if node and node.get("topic")]]. *)
Fixpoint topic_names (nodes : list json) : result (list string) :=
  match nodes with
  | [] => ret []
  | node :: rest =>
      try! keep := (if truthy node
                    then try! topic := get_method node "topic" JNull in
                         ret (truthy topic)
                    else ret false) in
      if (keep : bool) then
        try! topic := subscript node "topic" in
        try! n := subscript topic "name" in
        try! s := as_str n in
        try! names := topic_names rest in
        ret (s :: names)
      else topic_names rest
  end.

Definition topics_of (repo : json) : result (list string) :=
  try! repository_topics := get_method repo "repositoryTopics" (JObj []) in
  try! nodes := get_method repository_topics "nodes" JNull in
  if truthy nodes then
    try! items := py_iter nodes in topic_names items
  else ret [].

Definition license_of (repo : json) : result string :=
  try! license_info := get_method repo "licenseInfo" JNull in
  if truthy license_info then
    try! n := get_method license_info "name" JNull in
    if truthy n then as_str n else ret "No License"
  else ret "No License".

(** [repo.get(key, {}).get("totalCount", 0)]. *)
Definition total_count_or_zero (repo : json) (key : string) : result Z :=
  try! conn := get_method repo key (JObj []) in
  try! n := get_method conn "totalCount" (JNum 0) in
  as_int n.

(** One turn of the loop of lines 166-193: the record built for [repo]
    and stored under its name, whatever was stored there before. *)
Definition store_repository (contributors_map : gmap string Z)
    (res : Result) (repo : json) : result Result :=
  try! repo_name := subscript repo "name" in
  try! repo_name := as_str repo_name in
  try! topic_list := topics_of repo in
  try! license := license_of repo in
  try! name_with_owner := get_method repo "nameWithOwner" (JStr "") in
  try! name_with_owner := as_str name_with_owner in
  try! forks := get_method repo "forkCount" (JNum 0) in
  try! forks := as_int forks in
  try! watchers := total_count_or_zero repo "watchers" in
  try! stars := get_method repo "stargazerCount" (JNum 0) in
  try! stars := as_int stars in
  let collaborators := default 0 (contributors_map !! repo_name) in
  try! has_issues := get_method repo "hasIssuesEnabled" (JBool false) in
  try! has_issues := as_bool has_issues in
  try! has_projects := get_method repo "hasProjectsEnabled" (JBool false) in
  try! has_projects := as_bool has_projects in
  try! has_discussions := get_method repo "hasDiscussionsEnabled" (JBool false) in
  try! has_discussions := as_bool has_discussions in
  try! projects_v2 := total_count_or_zero repo "projectsV2" in
  ret (with_repositories
         res
         (<[repo_name := new_RepositoryResult
                           repo_name name_with_owner license topic_list
                           forks watchers stars collaborators
                           has_issues has_projects has_discussions
                           projects_v2]> (repositories res))).

Fixpoint store_repositories (contributors_map : gmap string Z)
    (res : Result) (all_repos : list json) : result Result :=
  match all_repos with
  | [] => ret res
  | repo :: rest =>
      try! res' := store_repository contributors_map res repo in
      store_repositories contributors_map res' rest
  end.

(** *** What the claims on the steps speak about *)


(** The sum of the totals of the rows that land on record [name]. *)
Fixpoint contribution (legacy : list (string * string)) (name : string)
    (rows : list (string * Z)) : Z :=
  match rows with
  | [] => 0
  | (pkg_name, total) :: rest =>
      (if String.eqb (remap legacy pkg_name) name then total else 0)
      + contribution legacy name rest
  end.

(** Concrete data: a report holding the one record ["a"], the legacy
    name ["old"] of package ["a"], and a month of downloads under the
    legacy name. *)
Definition report_a : Result :=
  with_repositories
    Result_default
    {[ "a" := new_RepositoryResult "a" "org/a" "No License" [] 0 0 0 0
                                   false false false 0 ]}.









(** A report whose record ["a"] already counts five PyPI downloads. *)
Definition report_a5 : Result :=
  with_repositories
    Result_default
    {[ "a" := set_download_counts 5 0 0 0
                (new_RepositoryResult "a" "org/a" "No License" [] 0 0 0 0
                                      false false false 0) ]}.

(** What [downloads_loop] left in field [total_download_count] of
    record [name]. *)
Definition total_downloads_in (run : result Result) (name : string)
  : option Z :=
  match run with
  | inr res => total_download_count <$> repositories res !! name
  | inl _ => None
  end.

(** ** main.py: [main]

    The environment of a run: the three environment variables and
    what [load_config] returns: [{}] when [config.yml] does not exist,
    otherwise what [yaml.safe_load] makes of it, a mapping or any other
    YAML value ([None] for an empty file).  What
    the run does is a list of events; [run_pipeline] is where the
    network is used, building the client is not.  Log messages are kept
    without their format arguments. *)

Record Env : Type := {
  GRAPHQL_TOKEN : option string;
  PEPY_API_KEY : option string;
  ORGANIZATION_NAME : option string;
  yaml_config : json;
}.

Inductive level : Type := DEBUG | INFO | WARNING | ERROR.

Inductive main_event : Type :=
| Logged (l : level) (message : string)
| ClientCreated (token : string)
| PipelineRun (config : Config)
| ResultWritten (org_name : json) (res : Result).

Inductive ending : Type :=
| Returned
| Exited (code : Z)
| Uncaught (e : exn).

(** The exit status of the process. *)
Definition exit_status (e : ending) : Z :=
  match e with
  | Returned => 0
  | Exited code => code
  | Uncaught _ => 1
  end.

(** [not value] for what [os.getenv] returns. *)
Definition unset (value : option string) : bool :=
  match value with
  | Some s => String.eqb s ""
  | None => true
  end.

Section Main.
(** [datetime.fromisoformat(str(v)).isoformat()], and the default
    lower bound read off the clock. *)
Variable normalize_since : json -> result string.
Variable default_since : string.
(** [run_pipeline] with the eight fetchers. *)
Variable run_pipeline : string -> Config -> result Result.

(** The [for org_name in config_organization_names] loop. *)
Fixpoint fetch_organizations (token : string)
    (env_organization_name : option string) (yaml : dict) (since : string)
    (names : list json) : list main_event * ending :=
  match names with
  | [] => ([], Returned)
  | org_name :: rest =>
      let effective_org_name :=
        if unset env_organization_name then as_str org_name
        else ret (default "" env_organization_name) in
      match effective_org_name with
      | inl e => ([Logged INFO "Fetching data for organization"], Uncaught e)
      | inr effective =>
          let config :=
            {| organization := effective;
               include_forks :=
                 truthy (default (JBool false) (dict_get "includeForks" yaml));
               include_archived :=
                 truthy (default (JBool false) (dict_get "includeArchived" yaml));
               since := Some since |} in
          let before := [Logged INFO "Fetching data for organization";
                         Logged INFO "Configuration";
                         PipelineRun config] in
          match run_pipeline token config with
          | inl e => (before, Uncaught e)
          | inr res =>
              let '(evs, e) :=
                fetch_organizations token env_organization_name yaml since rest in
              (before ++ [ResultWritten org_name res;
                          Logged INFO "Finished fetching data for organization";
                          Logged INFO "Time taken"] ++ evs, e)
          end
      end
  end.

Definition main (env : Env) : list main_event * ending :=
  let graphql_token := GRAPHQL_TOKEN env in
  let warn_token :=
    if unset graphql_token
    then [Logged WARNING "GRAPHQL_TOKEN not provided - running in CI mode"]
    else [] in
  let pepy_api_key := PEPY_API_KEY env in
  let warn_key :=
    if unset pepy_api_key
    then [Logged WARNING "PEPY_API_KEY not provided - running in CI mode"]
    else [] in
  if unset graphql_token || unset pepy_api_key then
    (warn_token ++ warn_key
     ++ [Logged WARNING "Missing secrets - skipping fetch step"], Returned)
  else
    let token := default "" graphql_token in
    let started := [Logged INFO "Starting GitHub organization metrics fetcher";
                    ClientCreated token] in
    let env_organization_name := ORGANIZATION_NAME env in
    (* [yaml_config.get("organization", [])]: only a mapping has [get] *)
    match yaml_config env with
    | JObj yaml =>
        let config_organization_names :=
          default (JArr []) (dict_get "organization" yaml) in
        if unset env_organization_name
           && negb (truthy config_organization_names)
        then
          (started
           ++ [Logged ERROR
                      "ORGANIZATION_NAME or config.yml organization required"],
           Exited 1)
        else
          let names :=
            match config_organization_names with
            | JStr s => ret [JStr s]
            | other => py_iter other
            end in
          let since :=
            match dict_get "since" yaml with
            | Some since_config =>
                if truthy since_config then normalize_since since_config
                else ret default_since
            | None => ret default_since
            end in
          match since with
          | inl e => (started, Uncaught e)
          | inr since =>
              match names with
              | inl e => (started, Uncaught e)
              | inr names =>
                  let '(evs, e) :=
                    fetch_organizations token env_organization_name yaml since
                                        names in
                  (started ++ evs, e)
              end
          end
    | _ => (started, Uncaught AttributeError)
    end.
End Main.

(** [yaml_config.get(key)] where the configuration is a mapping. *)
Definition yaml_get (key : string) (config : json) : option json :=
  match config with
  | JObj yaml => dict_get key yaml
  | _ => None
  end.

(** The configuration is a mapping: [config.yml] is absent, or holds
    one. *)
Definition is_mapping (config : json) : bool :=
  match config with
  | JObj _ => true
  | _ => false
  end.

(** Where the network is used, and where a report is produced. *)
Definition uses_network (ev : main_event) : Prop :=
  match ev with
  | PipelineRun _ => True
  | _ => False
  end.

Definition writes_report (ev : main_event) : Prop :=
  match ev with
  | ResultWritten _ _ => True
  | _ => False
  end.

Definition is_message (l : level) (ev : main_event) : Prop :=
  match ev with
  | Logged l' _ => l' = l
  | _ => False
  end.

(** A run that lacks a required identifier. *)
Definition missing_secret (env : Env) : Prop :=
  unset (GRAPHQL_TOKEN env) = true ∨ unset (PEPY_API_KEY env) = true.

Definition missing_organization (env : Env) : Prop :=
  unset (ORGANIZATION_NAME env) = true
  ∧ truthy (default (JArr []) (yaml_get "organization" (yaml_config env)))
    = false.

(** The environment of a run in CI: no secret, the organization set. *)
Definition ci_env : Env :=
  {| GRAPHQL_TOKEN := None; PEPY_API_KEY := None;
     ORGANIZATION_NAME := Some "org"; yaml_config := JObj [] |}.

(** Both secrets set, no organization anywhere. *)
Definition no_org_env : Env :=
  {| GRAPHQL_TOKEN := Some "t"; PEPY_API_KEY := Some "k";
     ORGANIZATION_NAME := None; yaml_config := JObj [] |}.

(** Both secrets set, no organization in the environment, and a
    [config.yml] that exists but is empty: [yaml.safe_load] gives
    [None]. *)
Definition empty_config_env : Env :=
  {| GRAPHQL_TOKEN := Some "t"; PEPY_API_KEY := Some "k";
     ORGANIZATION_NAME := None; yaml_config := JNull |}.

(** [main] with the simplest collaborators, for concrete runs. *)
Definition main_with_stubs : Env -> list main_event * ending :=
  main (fun _ => inr "2024-01-01T00:00:00") "2024-01-01T00:00:00"
       (fun _ _ => inr Result_default).

Definition quiet (ev : main_event) : Prop :=
  ¬ uses_network ev ∧ ¬ writes_report ev.


(** ** Further providers for concrete runs *)

(** A provider whose quota never comes back. *)
Definition exhausted_provider (st : unit) (q : string) (vars : dict)
  : result json * unit :=
  (inl RateLimitExceededException, tt).

(** A provider handing out one page [p], whatever it is asked. *)
Definition one_page_provider (p : json) (st : unit) (q : string) (vars : dict)
  : result json * unit :=
  (inr p, tt).

(** The URLs the poller asked for, in order. *)
Definition gets (tr : list poll_event) : list string :=
  omap (fun ev => match ev with Get u _ _ => Some u | Wait _ => None end) tr.

Arguments gets : simpl never.

(** A requester that answers every request with 200 and two
    contributor entries. *)
Definition ready_requester (st : unit) (method url : string)
  : option (Z * option string) * unit :=
  (Some (HTTP_OK, Some "[{}, {}]"), tt).

(** How many times [x] occurs in [l], and how many requests of a log
    were made for repository [x]. *)
Definition times (x : string) (l : list string) : nat :=
  count_occ string_dec l x.

Definition asked (org x : string) (tr : list poll_event) : nat :=
  times (contributors_url org x) (gets tr).

(** A requester that never answers 202. *)
Definition never_pending {St : Type}
    (requestJson : St -> string -> string -> option (Z * option string) * St)
  : Prop :=
  ∀ st method url status body st',
    requestJson st method url = (Some (status, body), st') ->
    status ≠ HTTP_ACCEPTED.

(** A requester every call of which raises [GithubException]. *)
Definition failing_requester (st : unit) (method url : string)
  : option (Z * option string) * unit :=
  (None, tt).

(** A node the discovery loop reads to the end and keeps: a dict with a
    string name that none of the four rules drops. *)
Definition passes_policy (excluded : list string) (config : Config)
    (repo : json) : Prop :=
  ∃ fields name,
    repo = JObj fields
    ∧ dict_get "name" fields = Some (JStr name)
    ∧ ¬ policy_excludes excluded EXCLUDED_REPO_PREFIXES config name
          (node_flag fields "isArchived") (node_flag fields "isFork").

(** [result["organization"]["repositories"]["nodes"]], as the [for]
    loops iterate it. *)
Definition page_items (page : json) : result (list json) :=
  try! nodes := navigate page ["organization"; "repositories"; "nodes"] in
  py_iter nodes.

(** A page whose nodes the discovery loop can read: each node is
    [null] or a dict with a string name. *)
Definition named_or_null (repo : json) : Prop :=
  repo = JNull
  ∨ ∃ fields name, repo = JObj fields ∧ dict_get "name" fields = Some (JStr name).

Definition readable_page (page : json) : Prop :=
  ∃ items, page_items page = inr items ∧ Forall named_or_null items.

(** The nodes of [pages]. *)
Definition node_of (pages : list json) (repo : json) : Prop :=
  ∃ page items, page ∈ pages ∧ page_items page = inr items ∧ repo ∈ items.

(** Every record of the report is stored under its own
    [repository_name]. *)
Definition keyed_by_name (res : Result) : Prop :=
  ∀ name r, repositories res !! name = Some r -> repository_name r = name.

(** A report that holds a record whose name starts with an excluded
    prefix, and a response that counts three discussions for it. *)
Definition report_slides : Result :=
  with_repositories
    Result_default
    {[ "slides-x" := new_RepositoryResult "slides-x" "org/slides-x" "No License"
                                          [] 0 0 0 0 false false false 0 ]}.

Definition slides_node : json :=
  JObj [("name", JStr "slides-x");
        ("discussions", JObj [("totalCount", JNum 3)])].

(** [_fetch_downloads] with a record of the calls made to it: the
    project name and the key of each call, in order. *)
Definition recording {P : Type}
    (_fetch_downloads : P -> string -> string -> pepy_answer * P)
    (s : P * list (string * string)) (project_name api_key : string)
  : pepy_answer * (P * list (string * string)) :=
  let '(answer, p') := _fetch_downloads (fst s) project_name api_key in
  (answer, (p', snd s ++ [(project_name, api_key)])).

(** [_fetch_downloads] with a record of its answers: the project name
    and the answer of each call, in order. *)
Definition noting {P : Type}
    (_fetch_downloads : P -> string -> string -> pepy_answer * P)
    (s : P * list (string * pepy_answer)) (project_name api_key : string)
  : pepy_answer * (P * list (string * pepy_answer)) :=
  let '(answer, p') := _fetch_downloads (fst s) project_name api_key in
  (answer, (p', snd s ++ [(project_name, answer)])).

(** The project a call ends with: the data of an answer whose status
    is neither 404 nor 429 and whose JSON is not empty. *)
Definition returned (call : string * pepy_answer) : option (string * json) :=
  match snd call with
  | Response status_code (Some project_data) =>
      if (status_code =? HTTP_NOT_FOUND)
         || (status_code =? HTTP_TOO_MANY_REQUESTS)
         || negb (truthy project_data)
      then None
      else Some (fst call, project_data)
  | _ => None
  end.

(** A PePy that knows project ["a"] alone, and says so in the body of
    its 404 answers. *)
Definition pepy_knows_a (p : unit) (project_name api_key : string)
  : pepy_answer * unit :=
  if String.eqb project_name "a"
  then (Response HTTP_OK (Some (JObj [("total_downloads", JNum 7)])), tt)
  else (Response HTTP_NOT_FOUND (Some (JObj [("error", JStr "not found")])), tt).

(** A PePy that answers every project with 429. *)
Definition pepy_busy (p : unit) (project_name api_key : string)
  : pepy_answer * unit :=
  (Response HTTP_TOO_MANY_REQUESTS None, tt).

(** The download counts of a PePy answer are not negative. *)
Definition nonneg_versions (versions : json) : Prop :=
  match versions with
  | JObj d => Forall (fun kv => match snd kv with
                                | JNum n => 0 ≤ n
                                | _ => True
                                end) d
  | _ => True
  end.

Definition nonneg_counts (project_result : json) : Prop :=
  match project_result with
  | JObj fields =>
      match dict_get "downloads" fields with
      | Some (JObj items) => Forall (fun kv => nonneg_versions (snd kv)) items
      | _ => True
      end
  | _ => True
  end.

(** The organizations the pipeline was run for, and the names the
    reports were written under, in order. *)
Definition pipeline_orgs (evs : list main_event) : list string :=
  omap (fun ev => match ev with
                  | PipelineRun config => Some (organization config)
                  | _ => None
                  end) evs.

Definition written_names (evs : list main_event) : list json :=
  omap (fun ev => match ev with
                  | ResultWritten org_name _ => Some org_name
                  | _ => None
                  end) evs.

(** Both secrets and [ORGANIZATION_NAME] set, [config.yml] absent. *)
Definition env_org_only : Env :=
  {| GRAPHQL_TOKEN := Some "t"; PEPY_API_KEY := Some "k";
     ORGANIZATION_NAME := Some "org"; yaml_config := JObj [] |}.

(** Both secrets and [ORGANIZATION_NAME] set, [config.yml] empty. *)
Definition env_org_empty_config : Env :=
  {| GRAPHQL_TOKEN := Some "t"; PEPY_API_KEY := Some "k";
     ORGANIZATION_NAME := Some "org"; yaml_config := JNull |}.

(** Both secrets and [ORGANIZATION_NAME] set, two organizations in
    [config.yml]. *)
Definition env_and_config_orgs : Env :=
  {| GRAPHQL_TOKEN := Some "t"; PEPY_API_KEY := Some "k";
     ORGANIZATION_NAME := Some "org";
     yaml_config := JObj [("organization", JArr [JStr "x"; JStr "y"])] |}.

(** Three organizations in [config.yml], and a pipeline that fails for
    the second. *)
Definition three_orgs_env : Env :=
  {| GRAPHQL_TOKEN := Some "t"; PEPY_API_KEY := Some "k";
     ORGANIZATION_NAME := None;
     yaml_config := JObj [("organization", JArr [JStr "x"; JStr "y"; JStr "z"])] |}.

Definition pipeline_failing_for (org : string) (token : string)
    (config : Config) : result Result :=
  if String.eqb (organization config) org then inl GithubException
  else inr Result_default.

(** ** fetchers/issues.py: the paging of the issue metrics

    The ages and response times are floating-point statistics of
    dates; the model stops where the issues have been collected. *)

(** [except GithubException]: [RateLimitExceededException] is one. *)
Definition is_github_exception (e : exn) : bool :=
  match e with
  | GithubException | RateLimitExceededException => true
  | _ => false
  end.

(** [[n for n in nodes if n is not None]]. *)
Definition not_none_nodes (nodes : json) : result (list json) :=
  try! items := py_iter nodes in
  ret (List.filter (fun n => negb (is_none n)) items).

(** One side of an answer of [_fetch_issue_metrics_for_repo]: the
    nodes to add, then [hasNextPage] and [endCursor], all three read
    with subscripts. *)
Definition issues_side (data : json) (key : string)
  : result (list json * json * json) :=
  try! repository := subscript data "repository" in
  try! side := subscript repository key in
  try! nodes := subscript side "nodes" in
  try! found := not_none_nodes nodes in
  try! page_info := subscript side "pageInfo" in
  try! has_next := subscript page_info "hasNextPage" in
  try! page_info := subscript side "pageInfo" in
  try! cursor := subscript page_info "endCursor" in
  ret (found, has_next, cursor).

Record issue_paging : Type := {
  all_open_issues : list json;
  all_closed_issues : list json;
  open_cursor : json;
  closed_cursor : json;
  open_has_next : json;
  closed_has_next : json;
}.

(** [open_cursor = None; ...; open_has_next = True; ...]. *)
Definition issue_paging_start : issue_paging :=
  {| all_open_issues := []; all_closed_issues := [];
     open_cursor := JNull; closed_cursor := JNull;
     open_has_next := JBool true; closed_has_next := JBool true |}.

Definition issue_metrics_variables (organization repo_name : string)
    (s : issue_paging) : dict :=
  [("organization", JStr organization);
   ("repoName", JStr repo_name);
   ("openCursor", if truthy (open_has_next s) then open_cursor s else JNull);
   ("closedCursor", if truthy (closed_has_next s) then closed_cursor s else JNull)].

(** What one answer does to the state (lines 221-237). *)
Definition issue_paging_step (data : json) (s : issue_paging)
  : result issue_paging :=
  try! s1 :=
    (if truthy (open_has_next s) then
       try! side := issues_side data "openIssues" in
       let '(found, has_next, cursor) := side in
       ret {| all_open_issues := all_open_issues s ++ found;
              all_closed_issues := all_closed_issues s;
              open_cursor := cursor; closed_cursor := closed_cursor s;
              open_has_next := has_next;
              closed_has_next := closed_has_next s |}
     else ret s) in
  if truthy (closed_has_next s1) then
    try! side := issues_side data "closedIssues" in
    let '(found, has_next, cursor) := side in
    ret {| all_open_issues := all_open_issues s1;
           all_closed_issues := all_closed_issues s1 ++ found;
           open_cursor := open_cursor s1; closed_cursor := cursor;
           open_has_next := open_has_next s1;
           closed_has_next := has_next |}
  else ret s1.

Section IssueMetrics.
Context {St : Type}.
Variable graphql : St -> string -> dict -> result json * St.
Variable query : string.
Variable organization_name : string.
Variable repo_name : string.

(** The [while open_has_next or closed_has_next] loop of
    [_fetch_issue_metrics_for_repo]; one unit of fuel per iteration.
    The result: the variables of the requests made, and the issues
    collected when the loop ends ([None] when the fuel is spent). *)
Fixpoint issue_metrics_loop (fuel : nat) (st : St) (s : issue_paging)
  : list dict * option (result (list json * list json)) * St :=
  if truthy (open_has_next s) || truthy (closed_has_next s) then
    match fuel with
    | O => ([], None, st)
    | S fuel' =>
        let variables := issue_metrics_variables organization_name repo_name s in
        match graphql st query variables with
        | (inl e, st') =>
            if is_github_exception e
            then ([variables],
                  Some (inr (all_open_issues s, all_closed_issues s)), st')
            else ([variables], Some (inl e), st')
        | (inr data, st') =>
            match get_method data "repository" JNull with
            | inl e => ([variables], Some (inl e), st')
            | inr repository =>
                if negb (truthy repository)
                then ([variables],
                      Some (inr (all_open_issues s, all_closed_issues s)), st')
                else
                  match issue_paging_step data s with
                  | inl e => ([variables], Some (inl e), st')
                  | inr s' =>
                      let '(asked, out, st'') :=
                        issue_metrics_loop fuel' st' s' in
                      (variables :: asked, out, st'')
                  end
            end
        end
    end
  else ([], Some (inr (all_open_issues s, all_closed_issues s)), st).

Definition fetch_issue_pages (fuel : nat) (st : St)
  : list dict * option (result (list json * list json)) * St :=
  issue_metrics_loop fuel st issue_paging_start.
End IssueMetrics.

(** The page loop of [_fetch_response_time_for_repo] (lines 304-307)
    over the pages the generator yields: [inl] when the body raises,
    [inr (issues, stopped)] otherwise, [stopped] telling that the
    [break] was taken. *)
Fixpoint response_pages (pages : list json) (all_issues : list json)
  : result (list json * bool) :=
  match pages with
  | [] => ret (all_issues, false)
  | page_result :: rest =>
      try! repository := get_method page_result "repository" JNull in
      if negb (truthy repository) then ret (all_issues, true)
      else
        try! nodes := navigate page_result ["repository"; "issues"; "nodes"] in
        try! found := not_none_nodes nodes in
        response_pages rest (all_issues ++ found)
  end.

(** [since = config.since or datetime.now(timezone.utc).isoformat()]. *)
Definition since_or (config : Config) (now_isoformat : string) : string :=
  match since config with
  | Some s => if String.eqb s "" then now_isoformat else s
  | None => now_isoformat
  end.

(** The issues [_fetch_response_time_for_repo] collects (lines
    292-307): [None] for a run still going when the fuel is spent. *)
Definition response_time_issues {St : Type}
    (graphql : St -> string -> dict -> result json * St)
    (query : string) (now_isoformat : string)
    (fuel : nat) (st : St) (config : Config) (repo_name : string)
  : option (result (list json)) :=
  let '(tr, out, _) :=
    graphql_paginate graphql query
                     [("organization", JStr (organization config));
                      ("repoName", JStr repo_name);
                      ("since", JStr (since_or config now_isoformat))]
                     ["repository"; "issues"] fuel st in
  match response_pages (yields tr) [] with
  | inl e => Some (inl e)
  | inr (all_issues, true) => Some (inr all_issues)
  | inr (all_issues, false) =>
      match out with
      | Finished => Some (inr all_issues)
      | Raised e => Some (inl e)
      | OutOfFuel => None
      end
  end.

(** The answer for a repository that does not exist. *)
Definition no_repository : json := JObj [("repository", JNull)].

(** ** fetchers/repository.py: [add_repositories_to_result] as a whole *)

Definition REPOSITORIES_QUERY : string :=
  "query ($cursor: String, $organization: String!) { organization(login:$organization) { repositories(privacy:PUBLIC, first:100, isFork:false, isArchived:false, after: $cursor) { pageInfo { hasNextPage endCursor } nodes { name nameWithOwner forkCount stargazerCount isFork isArchived hasIssuesEnabled hasProjectsEnabled hasDiscussionsEnabled projectsV2 { totalCount } discussions { totalCount } licenseInfo { name } watchers { totalCount } repositoryTopics(first: 20) { nodes { topic { name } } } } } } }".

(** The discovery loop (lines 137-158, the one of [query_repo_names]
    over the nodes of this query), the poller on the repositories
    kept, then the records.  The result carries the poller's log;
    [None] stands for a discovery still going when the fuel is spent.
    The names the poller reads with [repo["name"]] are read here
    before its first request: the discovery loop has read the name of
    every repository it kept. *)
Definition add_repositories_to_result {St R : Type}
    (graphql : St -> string -> dict -> result json * St)
    (json_loads : string -> result json)
    (requestJson : R -> string -> string -> option (Z * option string) * R)
    (fuel : nat) (st : St) (rst : R) (file : option (list string)) (c : cache)
    (res : Result) (config : Config)
  : option (result (Result * cache * list poll_event)) :=
  let '(tr, out, _) :=
    graphql_paginate graphql REPOSITORIES_QUERY
                     [("organization", JStr (organization config))]
                     ["organization"; "repositories"] fuel st in
  match select_pages file c config (yields tr) [] with
  | inl e => Some (inl e)
  | inr (all_repos, c') =>
      match out with
      | OutOfFuel => None
      | Raised e => Some (inl e)
      | Finished =>
          Some (try! names := names_of all_repos in
                try! polled := _fetch_all_contributors
                                 json_loads requestJson rst
                                 (organization config) names in
                let '(contributors_map, log, _) := polled in
                try! res' := store_repositories contributors_map res all_repos in
                ret (res', c', log))
      end
  end.

(** ** fetchers/fetch_parquet.py: which file is the last month's

    [missing year month] tells that the file of that month is neither
    on disk nor downloadable (the URL does not exist, or the download
    fails): the condition under which the download loop of
    [add_conda_data] (lines 98-117) breaks. *)

(** [month - 1 if month > 1 else 12]. *)
Definition month_before (month : Z) : Z :=
  if 1 <? month then month - 1 else 12.

(** The two [for] loops: [last_month] and [curr_year] when they end. *)
Fixpoint scan_years (missing : Z -> Z -> bool) (years : list Z)
    (last_month curr_year : Z) : Z * Z :=
  match years with
  | [] => (last_month, curr_year)
  | year :: rest =>
      match List.find (missing year) (seqZ 1 12) with
      | Some month => (month_before month, year)
      | None => scan_years missing rest last_month curr_year
      end
  end.

(** The year and the month of [last_month_file] (lines 94-142). *)
Definition last_month_file (missing : Z -> Z -> bool)
    (start_year now_year : Z) : Z * Z :=
  let '(last_month, curr_year) :=
    scan_years missing (seqZ start_year (now_year + 1 - start_year))
               1 now_year in
  let curr_year := if last_month =? 12 then curr_year - 1 else curr_year in
  (curr_year, last_month).

(** * Properties *)

(** ** Dicts *)

Lemma dict_get_set_eq key v (d : dict) : dict_get key (dict_set key v d) = Some v.
Proof.
  induction d as [|[k w] d IH]; cbn.
  - by rewrite String.eqb_refl.
  - destruct (String.eqb k key) eqn:Hk; cbn; rewrite Hk; [done | exact IH].
Qed.

Lemma dict_get_set_ne key key' v (d : dict) :
  key' ≠ key -> dict_get key' (dict_set key v d) = dict_get key' d.
Proof.
  intros Hne. induction d as [|[k w] d IH]; cbn.
  - apply String.eqb_neq in Hne. by rewrite String.eqb_sym, Hne.
  - destruct (String.eqb k key) eqn:Hk; cbn.
    + apply String.eqb_eq in Hk. subst k.
      assert (String.eqb key key' = false) as ->; [|done].
      apply String.eqb_neq. congruence.
    + by rewrite IH.
Qed.

(** ** Pagination *)

Section PaginateFacts.
Context {St : Type}.
Variable graphql : St -> string -> dict -> result json * St.
Variable query : string.
Variable variables : dict.
Variable path : list string.

Lemma next_position_last p conn :
  navigate p path = inr (JObj conn) ->
  is_last path p ->
  ∃ h c, next_position (JObj conn) = inr (h, c) ∧ truthy h = false.
Proof.
  intros Hnav (conn' & Hnav' & Hlast).
  rewrite Hnav in Hnav'. injection Hnav' as <-.
  unfold next_position. cbn.
  destruct Hlast as [-> | (info & -> & [Hn | Hn])]; cbn; try rewrite Hn; cbn; eauto.
Qed.

Lemma next_position_more p conn c' :
  navigate p path = inr (JObj conn) ->
  has_more path p c' ->
  next_position (JObj conn) = inr (JBool true, c').
Proof.
  intros Hnav (conn' & info & Hnav' & Hinfo & Hnext & ->).
  rewrite Hnav in Hnav'. injection Hnav' as <-.
  unfold next_position. cbn. rewrite Hinfo. cbn. by rewrite Hnext.
Qed.

Lemma has_more_end_cursor p c' : has_more path p c' -> end_cursor path p = c'.
Proof.
  intros (conn & info & Hnav & Hinfo & _ & ->).
  unfold end_cursor. by rewrite Hnav, Hinfo.
Qed.

Lemma has_more_not_last p c' : has_more path p c' -> ¬ is_last path p.
Proof.
  intros (conn & info & Hnav & Hinfo & Hnext & _) (conn' & Hnav' & Hlast).
  rewrite Hnav in Hnav'. injection Hnav' as <-.
  destruct Hlast as [Hnone | (info' & Hinfo' & Hlast)]; [congruence|].
  rewrite Hinfo in Hinfo'. injection Hinfo' as <-.
  destruct Hlast; congruence.
Qed.


Lemma paginate_loop_serves st c pages st' :
  serves graphql query variables path st c pages st' ->
  ∀ fuel, (length pages ≤ fuel)%nat ->
  ∃ tr, paginate_loop graphql query variables path fuel st c (JBool true)
          = (tr, Finished, st')
        ∧ yields tr = pages
        ∧ requests tr
            = map (request_for query variables) (c :: map (end_cursor path) (removelast pages))
        ∧ sleeps tr = [].
Proof.
  induction 1 as [st c p st' Hreq Hlast | st c p st1 c' ps st' Hreq Hmore Hps IH];
    intros [|fuel] Hfuel; cbn in Hfuel; try lia.
  - pose proof Hlast as (conn & Hnav & _).
    destruct (next_position_last _ _ Hnav Hlast) as (h & c1 & Hpos & Hh).
    cbn. rewrite Hreq, Hnav, Hpos.
    destruct fuel; cbn; rewrite Hh; cbn; eauto.
  - pose proof Hmore as (conn & info & Hnav & _).
    pose proof (next_position_more _ _ _ Hnav Hmore) as Hpos.
    destruct (IH fuel ltac:(lia)) as (tr & Hrun & Hy & Hr & Hs).
    cbn. rewrite Hreq, Hnav, Hpos, Hrun. cbn.
    eexists; split; [reflexivity|].
    unfold yields, requests, sleeps in *. cbn. rewrite Hy, Hr, Hs.
    repeat split.
    destruct ps; [inversion Hps|]. cbn [removelast map].
    by rewrite (has_more_end_cursor _ _ Hmore).
Qed.

Lemma serves_last_position st c pages st' :
  serves graphql query variables path st c pages st' ->
  ∀ (i : nat) p, pages !! i = Some p ->
                 (is_last path p ↔ S i = length pages).
Proof.
  induction 1 as [st c p st' Hreq Hlast | st c p st1 c' ps st' Hreq Hmore Hps IH];
    intros [|i] q Hq; cbn in Hq.
  - injection Hq as <-. cbn. tauto.
  - destruct i; discriminate.
  - injection Hq as <-. split.
    + intros Hl. by destruct (has_more_not_last _ _ Hmore).
    + cbn. intros Hlen. destruct ps; [inversion Hps | discriminate].
  - rewrite (IH i q Hq). cbn. lia.
Qed.

Lemma serves_length_removelast st c pages st' :
  serves graphql query variables path st c pages st' ->
  S (length (removelast pages)) = length pages.
Proof.
  induction 1 as [st c p st' _ _ | st c p st1 c' ps st' _ _ Hps IH]; [done|].
  destruct ps as [|p' ps]; [inversion Hps|].
  cbn [removelast length] in *. by rewrite IH.
Qed.

(** C1. For a provider serving a finite chain of N pages, a run of
    [graphql_paginate] with enough fuel finishes normally; it makes N
    requests, each with the caller's query and the caller's variables
    but for ["cursor"]; the first request binds ["cursor"] to null and
    every later request binds it to the [endCursor] of the page before
    it, whatever the caller passed under that name; it yields exactly
    the N pages of the chain, in chain order, never sleeps, and the
    page it stops after is exactly the one whose [hasNextPage] is false
    or whose pagination metadata is absent. *)
Theorem graphql_paginate_yields_chain st pages st' fuel :
  serves graphql query variables path st JNull pages st' ->
  (length pages ≤ fuel)%nat ->
  ∃ tr,
    graphql_paginate graphql query variables path fuel st
      = (tr, Finished, st')
    ∧ yields tr = pages
    ∧ length (yields tr) = length pages
    ∧ requests tr
        = map (request_for query variables) (JNull :: map (end_cursor path) (removelast pages))
    ∧ map fst (requests tr) = replicate (length pages) query
    ∧ map (fun req => dict_get "cursor" req.2) (requests tr)
      = Some JNull :: map (fun page => Some (end_cursor path page))
                          (removelast pages)
    ∧ (∀ req key, req ∈ requests tr -> key ≠ "cursor" ->
                  dict_get key req.2 = dict_get key variables)
    ∧ sleeps tr = []
    ∧ ∀ (i : nat) p, pages !! i = Some p ->
                     (is_last path p ↔ S i = length pages).
Proof.
  intros Hchain Hfuel.
  destruct (paginate_loop_serves _ _ _ _ Hchain fuel Hfuel)
    as (tr & Hrun & Hy & Hr & Hs).
  exists tr. unfold graphql_paginate. rewrite Hy.
  split_and!; try assumption; try reflexivity.
  - rewrite Hr, map_map. cbn [request_for fst].
    rewrite <- (serves_length_removelast _ _ _ _ Hchain).
    cbn [map replicate]. f_equal.
    generalize (removelast pages). intros l.
    induction l as [|p l IH]; [done|]. cbn. by rewrite IH.
  - rewrite Hr. cbn [map request_for snd]. rewrite dict_get_set_eq. f_equal.
    rewrite !map_map. apply map_ext. intros page. cbn.
    by rewrite dict_get_set_eq.
  - intros req key Hreq Hkey. rewrite Hr in Hreq.
    apply list_elem_of_fmap in Hreq as (c & -> & _). cbn.
    by apply dict_get_set_ne.
  - by apply (serves_last_position _ _ _ _ Hchain).
Qed.
End PaginateFacts.

Lemma graphql_paginate_yields_chain_witness :
  ∃ tr,
    graphql_paginate two_page_stub "q"
                     [("cursor", JStr "mine"); ("organization", JStr "org")]
                     ["organization"; "repositories"] 2 tt
      = (tr, Finished, tt)
    ∧ yields tr = [repositories_page ["a"; "b"] (Some (true, JStr "c1"));
                   repositories_page ["c"] None]
    ∧ map (fun req => dict_get "cursor" req.2) (requests tr)
      = [Some JNull; Some (JStr "c1")].
Proof.
  destruct (graphql_paginate_yields_chain
              two_page_stub "q"
              [("cursor", JStr "mine"); ("organization", JStr "org")]
              ["organization"; "repositories"] tt
              [repositories_page ["a"; "b"] (Some (true, JStr "c1"));
               repositories_page ["c"] None] tt 2)
    as (tr & Hrun & Hy & _ & _ & _ & Hcursors & _).
  - eapply serves_more with (c' := JStr "c1");
      [reflexivity | | eapply serves_last; [reflexivity|]].
    + eexists _, _. repeat split; reflexivity.
    + eexists. split; [reflexivity|]. by left.
  - cbn. lia.
  - exists tr. split_and!; [exact Hrun | exact Hy | exact Hcursors].
Defined.

(** ** Rate-limit backoff *)

Section RateLimit.
Context {St : Type}.
Variable graphql : St -> string -> dict -> result json * St.
Variable query : string.
Variable variables : dict.
Variable path : list string.

Local Abbreviation base := (paginate_loop graphql query variables path).
Local Abbreviation flaky :=
  (paginate_loop (rate_limited graphql) query variables path).

Lemma yields_emit {S'} evs (r : @run S') :
  yields (emit evs r).1.1 = yields evs ++ yields r.1.1.
Proof. destruct r as [[tr out] st]. cbn. unfold yields. apply omap_app. Qed.

Lemma requests_emit {S'} evs (r : @run S') :
  requests (emit evs r).1.1 = requests evs ++ requests r.1.1.
Proof. destruct r as [[tr out] st]. cbn. unfold requests. apply omap_app. Qed.

Lemma sleeps_emit {S'} evs (r : @run S') :
  sleeps (emit evs r).1.1 = sleeps evs ++ sleeps r.1.1.
Proof. destruct r as [[tr out] st]. cbn. unfold sleeps. apply omap_app. Qed.

Lemma emit_outcome {S'} evs (r : @run S') :
  (emit evs r).1.2 = r.1.2 ∧ (emit evs r).2 = r.2.
Proof. by destruct r as [[tr out] st]. Qed.

(** Every sleep of the loop is the process-wide cooldown. *)
Lemma paginate_loop_sleeps {S'} (g : S' -> string -> dict -> result json * S')
      fuel st c h :
  Forall (eq RATE_LIMIT_SLEEP_SECONDS)
         (sleeps (paginate_loop g query variables path fuel st c h).1.1).
Proof.
  revert st c h. induction fuel as [|fuel IH]; intros st c h; cbn;
    destruct (truthy h); cbn; try constructor.
  destruct (g st query _) as [[e|p] st1].
  - destruct (is_rate_limit e); [|cbn; constructor].
    rewrite sleeps_emit. cbn. constructor; [reflexivity | apply IH].
  - destruct (navigate p path) as [e|data]; [cbn; constructor|].
    destruct (next_position data) as [e|[h' c']]; [cbn; constructor|].
    rewrite sleeps_emit. apply IH.
Qed.

Lemma base_first_request fuel st c h :
  truthy h = true ->
  ∃ rest, requests (base (S fuel) st c h).1.1
          = (query, dict_set "cursor" c variables) :: rest.
Proof.
  intros Hh. cbn. rewrite Hh.
  destruct (graphql st query _) as [[e|p] st1].
  - destruct (is_rate_limit e); [rewrite requests_emit|]; cbn; eauto.
  - destruct (navigate p path) as [e|data]; [cbn; eauto|].
    destruct (next_position data) as [e|[h' c']]; [cbn; eauto|].
    rewrite requests_emit. cbn. eauto.
Qed.

Lemma paginate_loop_done {S'} (g : S' -> string -> dict -> result json * S')
      fuel st c h :
  truthy h = false ->
  paginate_loop g query variables path fuel st c h = ([], Finished, st).
Proof. intros Hh. destruct fuel; cbn; by rewrite Hh. Qed.

Lemma shadows_done schedule (st : St) :
  @shadows St schedule ([], Finished, (st, schedule)) ([], Finished, st).
Proof. unfold shadows. cbn. by rewrite take_0. Qed.

Lemma shadows_step evs schedule (r' : @run (St * list nat)) (r : @run St) :
  length (requests evs) = 1%nat ->
  shadows (tail schedule) r' r ->
  head schedule = Some O ∨ schedule = [] ->
  shadows schedule (emit evs r') (emit evs r).
Proof.
  intros Hre (Ho & Hst & Hy & Hr & Hs) Hsched. unfold shadows.
  rewrite !yields_emit, !requests_emit, !sleeps_emit, !length_app.
  destruct (emit_outcome evs r') as [-> ->].
  destruct (emit_outcome evs r) as [-> ->].
  destruct (requests evs) as [|rq [|??]]; try discriminate.
  rewrite Hy, Hr, Hs.
  destruct Hsched as [Hhd | ->]; [destruct schedule as [|[|k] rest]|];
    try discriminate; cbn; repeat split; try done.
  all: try by destruct (requests r.1.1).
  all: rewrite ?take_nil; cbn; lia.
Qed.

Lemma shadows_stop evs out schedule schedule' (st : St) :
  length (requests evs) = 1%nat ->
  head schedule = Some O ∨ schedule = [] ->
  @shadows St schedule (evs, out, (st, schedule')) (evs, out, st).
Proof.
  intros Hre Hsched. unfold shadows. cbn.
  destruct (requests evs) as [|rq [|??]]; try discriminate.
  destruct Hsched as [Hhd | ->]; [destruct schedule as [|[|k] rest]|];
    try discriminate; cbn; repeat split; try done.
  all: rewrite ?take_nil, ?take_0; cbn; lia.
Qed.

Lemma shadows_refused q vars k rest (r' : @run (St * list nat))
      (r : @run St) tl :
  requests r.1.1 = (q, vars) :: tl ->
  shadows (k :: rest) r' r ->
  shadows (S k :: rest)
          (emit [Request q vars; Sleep RATE_LIMIT_SLEEP_SECONDS] r') r.
Proof.
  intros Hhd (Ho & Hst & Hy & Hr & Hs). unfold shadows.
  rewrite !yields_emit, !requests_emit, !sleeps_emit.
  destruct (emit_outcome [Request q vars; Sleep RATE_LIMIT_SLEEP_SECONDS] r')
    as [-> ->].
  change (yields [Request q vars; Sleep RATE_LIMIT_SLEEP_SECONDS]) with (@nil json).
  change (requests [Request q vars; Sleep RATE_LIMIT_SLEEP_SECONDS])
    with [(q, vars)].
  change (sleeps [Request q vars; Sleep RATE_LIMIT_SLEEP_SECONDS])
    with [RATE_LIMIT_SLEEP_SECONDS].
  rewrite Hhd in *. rewrite Hy, Hr. cbn in *. rewrite Hs.
  repeat split; try done; lia.
Qed.

Lemma paginate_loop_rate_limited fuel :
  ∀ st c h schedule,
    (base fuel st c h).1.2 ≠ OutOfFuel ->
    shadows schedule
            (flaky (fuel + sum_list schedule) (st, schedule) c h)
            (base fuel st c h).
Proof.
  induction fuel as [|fuel IH]; intros st c h schedule Hout.
  - destruct (truthy h) eqn:Hh;
      [cbn in Hout; rewrite Hh in Hout; by destruct Hout|].
    rewrite !paginate_loop_done by done. apply shadows_done.
  - destruct (truthy h) eqn:Hh; cycle 1.
    { rewrite !paginate_loop_done by done.
      apply shadows_done. }
    assert (Hstep : ∀ sch rest, sch = [] ∨ sch = O :: rest ->
              shadows sch
                (flaky (S fuel + sum_list sch) (st, sch) c h)
                (base (S fuel) st c h)).
    { clear schedule. intros schedule rest Hsched.
      assert (Hfuel : sum_list schedule = sum_list (tail schedule))
        by (destruct Hsched as [-> | ->]; reflexivity).
      assert (Hhead : head schedule = Some O ∨ schedule = [])
        by (destruct Hsched as [-> | ->]; [by right | by left]).
      assert (Hrl : ∀ q vars,
                 rate_limited graphql (st, schedule) q vars
                 = ((graphql st q vars).1, ((graphql st q vars).2, tail schedule))).
      { intros q vars. destruct Hsched as [-> | ->]; cbn;
          by destruct (graphql st q vars). }
      rewrite Hfuel. cbn in *. rewrite Hh in *.
      rewrite Hrl. clear Hrl.
      destruct (graphql st query _) as [[e|p] st1]; cbn in *.
      - destruct (is_rate_limit e); [|by apply shadows_stop].
        destruct (emit_outcome
                    [Request query (dict_set "cursor" c variables);
                     Sleep RATE_LIMIT_SLEEP_SECONDS]
                    (paginate_loop graphql query variables path fuel st1 c h))
          as [Ho _].
        rewrite Ho in Hout.
        apply shadows_step; [reflexivity | by apply IH | done].
      - destruct (navigate p path) as [e|data]; [by apply shadows_stop|].
        destruct (next_position data) as [e|[h' c']]; [by apply shadows_stop|].
        destruct (emit_outcome
                    [Request query (dict_set "cursor" c variables); Yield p]
                    (paginate_loop graphql query variables path fuel st1 c' h'))
          as [Ho _].
        rewrite Ho in Hout.
        apply shadows_step; [reflexivity | by apply IH | done]. }
    destruct schedule as [|k rest]; [apply (Hstep [] []); by left|].
    induction k as [|k IHk]; [apply (Hstep _ rest); by right|].
    destruct (base_first_request fuel st c h Hh) as [tl Htl].
    pose proof (shadows_refused _ _ _ _ _ _ _ Htl IHk) as Hsh.
    replace (flaky (S fuel + sum_list (S k :: rest)) (st, S k :: rest) c h)
      with (emit [Request query (dict_set "cursor" c variables);
                  Sleep RATE_LIMIT_SLEEP_SECONDS]
                 (flaky (S fuel + sum_list (k :: rest)) (st, k :: rest) c h));
      [exact Hsh|].
    change (sum_list (S k :: rest)) with (S (sum_list (k :: rest))).
    rewrite (Nat.add_succ_r (S fuel)).
    set (n := (S fuel + sum_list (k :: rest))%nat).
    cbn. by rewrite Hh.
Qed.

(** C2. Put rate-limit signals, any finite number before any request,
    in front of a provider: the run of [graphql_paginate] ends the
    same way and leaves the provider in the same state, it yields
    exactly the same pages in the same order (nothing added, skipped
    or repeated), every refused request is issued again unchanged
    (same query, same variables, same cursor), there is one sleep per
    refusal, and every sleep lasts [RATE_LIMIT_SLEEP_SECONDS]. *)
Theorem graphql_paginate_rate_limit_transparent fuel st schedule :
  let quiet := graphql_paginate graphql query variables path fuel st in
  let noisy :=
    graphql_paginate (rate_limited graphql) query variables path
                     (fuel + sum_list schedule) (st, schedule) in
  quiet.1.2 ≠ OutOfFuel ->
  noisy.1.2 = quiet.1.2
  ∧ noisy.2.1 = quiet.2
  ∧ yields noisy.1.1 = yields quiet.1.1
  ∧ requests noisy.1.1 = reissued schedule (requests quiet.1.1)
  ∧ length (sleeps noisy.1.1)
    = (length (sleeps quiet.1.1)
       + sum_list (take (length (requests quiet.1.1)) schedule))%nat
  ∧ Forall (eq RATE_LIMIT_SLEEP_SECONDS) (sleeps noisy.1.1).
Proof.
  intros quiet noisy Hout.
  destruct (paginate_loop_rate_limited fuel st JNull (JBool true) schedule Hout)
    as (Ho & Hst & Hy & Hr & Hs).
  repeat split; try assumption. apply paginate_loop_sleeps.
Qed.
End RateLimit.

Lemma graphql_paginate_rate_limit_transparent_witness :
  let noisy :=
    graphql_paginate (rate_limited two_page_stub) "q"
                     [("organization", JStr "org")]
                     ["organization"; "repositories"] 5 (tt, [2; 1]%nat) in
  noisy.1.2 = Finished
  ∧ yields noisy.1.1 = [repositories_page ["a"; "b"] (Some (true, JStr "c1"));
                        repositories_page ["c"] None]
  ∧ length (sleeps noisy.1.1) = 3%nat.
Proof.
  destruct (graphql_paginate_rate_limit_transparent
              two_page_stub "q" [("organization", JStr "org")]
              ["organization"; "repositories"] 2 tt [2; 1]%nat)
    as (Ho & _ & Hy & _ & Hs & _).
  - vm_compute. discriminate.
  - cbv zeta. split; [exact Ho | split; [exact Hy | exact Hs]].
Defined.

(** ** Filtering policy *)

Lemma contains_elem_of (t : list string) (x : string) :
  contains t x = true ↔ x ∈ t.
Proof.
  unfold contains. rewrite existsb_exists. split.
  - intros (y & Hin & Heq). apply String.eqb_eq in Heq. subst.
    by apply list_elem_of_In.
  - intros Hin. exists x. split; [by apply list_elem_of_In | apply String.eqb_refl].
Qed.

Lemma startswith_elem_of (s : string) (prefixes : list string) :
  startswith s prefixes = true ↔ ∃ p, p ∈ prefixes ∧ String.prefix p s = true.
Proof.
  unfold startswith. rewrite existsb_exists. split.
  - intros (p & Hin & Hp). exists p. split; [by apply list_elem_of_In | done].
  - intros (p & Hin & Hp). exists p. split; [by apply list_elem_of_In | done].
Qed.

Lemma prefix_refl (s : string) : String.prefix s s = true.
Proof.
  induction s as [|a s IH]; [reflexivity|]. cbn.
  destruct (Ascii.ascii_dec a a); [exact IH | congruence].
Qed.

(** The exclusion list in force: the cached one, or the file's. *)
Lemma load_excluded_repos_stable file c :
  load_excluded_repos file (load_excluded_repos file c).2
  = load_excluded_repos file c.
Proof. by destruct c. Qed.

Lemma select_repo_decision file c config fields name :
  dict_get "name" fields = Some (JStr name) ->
  let archived := node_flag fields "isArchived" in
  let fork := node_flag fields "isFork" in
  let excluded := (load_excluded_repos file c).1 in
  ∃ kept c',
    select_repo file c config (JObj fields) = inr (kept, c')
    ∧ (kept = None ∨ kept = Some (JObj fields))
    ∧ (kept = None
       ↔ policy_excludes excluded EXCLUDED_REPO_PREFIXES config
                         name archived fork).
Proof.
  intros Hname archived fork excluded.
  assert (Hrun : select_repo file c config (JObj fields)
                 = if archived && negb (include_archived config)
                   then inr (None, c)
                   else if fork && negb (include_forks config)
                        then inr (None, c)
                        else
                          let '(ex, c') :=
                            should_exclude_repo file c name config in
                          if ex then inr (None, c')
                          else inr (Some (JObj fields), c')).
  { unfold select_repo, get_method, subscript, bind, ret. by rewrite Hname. }
  rewrite Hrun. clear Hrun.
  unfold should_exclude_repo, policy_excludes.
  destruct (load_excluded_repos file c) as [ex c1] eqn:Hload.
  subst excluded. cbn [fst].
  pose proof (contains_elem_of ex name) as Hex.
  pose proof (startswith_elem_of name EXCLUDED_REPO_PREFIXES) as Hpre.
  destruct archived, fork, (include_archived config), (include_forks config),
    (contains ex name), (startswith name EXCLUDED_REPO_PREFIXES);
    cbn; eexists _, _; (split; [reflexivity|]);
    (split; [(by left) || (by right)|]);
    split; try done; try (intros _; tauto).
  all: intros [[? ?] | [[? ?] | [Hin | Hp]]]; try discriminate.
  all: try (apply Hex in Hin; discriminate).
  all: try (apply Hpre in Hp; discriminate).
Qed.

(** C7. A repository node (a dict with a string name) is dropped by the
    discovery loop of [query_repo_names] exactly when it is archived
    and [include_archived] is off, or it is a fork and [include_forks]
    is off, or its name is in the exclusion list, or its name starts
    with one of [EXCLUDED_REPO_PREFIXES]; otherwise it is kept as it
    is.  In particular an archived node is dropped when
    [include_archived] is off, the fork rule drops nothing when
    [include_forks] is on, and a name equal to an excluded prefix is
    dropped whatever the flags. *)
Theorem filtering_policy file c config fields name :
  dict_get "name" fields = Some (JStr name) ->
  let archived := node_flag fields "isArchived" in
  let fork := node_flag fields "isFork" in
  let excluded := (load_excluded_repos file c).1 in
  ∃ kept c',
    select_repo file c config (JObj fields) = inr (kept, c')
    ∧ select_repos file c config [JObj fields] []
      = inr (match kept with Some r => [r] | None => [] end, c')
    ∧ (kept = None ∨ kept = Some (JObj fields))
    ∧ (kept = None
       ↔ policy_excludes excluded EXCLUDED_REPO_PREFIXES config
                         name archived fork)
    ∧ (archived = true -> include_archived config = false -> kept = None)
    ∧ (fork = true -> include_forks config = true ->
       (kept = None
        ↔ (archived = true ∧ include_archived config = false)
          ∨ name ∈ excluded
          ∨ ∃ p, p ∈ EXCLUDED_REPO_PREFIXES ∧ String.prefix p name = true))
    ∧ (name ∈ EXCLUDED_REPO_PREFIXES -> kept = None).
Proof.
  intros Hname archived fork excluded.
  destruct (select_repo_decision file c config fields name Hname)
    as (kept & c' & Hrun & Hshape & Hiff).
  fold archived fork excluded in Hiff.
  exists kept, c'. split; [exact Hrun|]. split.
  { unfold select_repos, bind. rewrite Hrun. cbn. by destruct kept. }
  split; [exact Hshape|]. split; [exact Hiff|].
  unfold policy_excludes in Hiff. repeat split.
  - intros Ha Hia. apply Hiff. by left.
  - rewrite Hiff. intros [?|[[_ Hf]|[?|?]]]; [tauto | congruence | tauto | tauto].
  - rewrite Hiff. tauto.
  - intros Hin. apply Hiff. right. right. right.
    exists name. split; [exact Hin | apply prefix_refl].
Qed.

Lemma filtering_policy_witness :
  ∃ c', select_repo None None default_config
                    (JObj [("name", JStr "slides-"); ("isFork", JBool true)])
        = inr (None, c').
Proof.
  destruct (filtering_policy None None default_config
              [("name", JStr "slides-"); ("isFork", JBool true)] "slides-"
              eq_refl)
    as (kept & c' & Hrun & _ & _ & _ & _ & _ & Hprefix).
  exists c'. rewrite Hrun.
  rewrite (Hprefix ltac:(by apply list_elem_of_In; left)). reflexivity.
Defined.

(** C10. [should_exclude_repo] does not read its configuration: with
    the same name, cache and file, any two configurations give the same
    verdict and the same cache; the verdict is a function of the name,
    the exclusion list in force and [EXCLUDED_REPO_PREFIXES]; and once
    the list is cached, the file no longer matters either. *)
Theorem should_exclude_repo_ignores_config file c name (c1 c2 : Config) :
  should_exclude_repo file c name c1 = should_exclude_repo file c name c2
  ∧ (should_exclude_repo file c name c1).1
    = contains (load_excluded_repos file c).1 name
      || startswith name EXCLUDED_REPO_PREFIXES
  ∧ ∀ file' cached,
      should_exclude_repo file (Some cached) name c1
      = should_exclude_repo file' (Some cached) name c2.
Proof.
  repeat split. unfold should_exclude_repo.
  by destruct (load_excluded_repos file c).
Qed.

(** ** The contributor poller *)

Lemma string_length_app (a b : string) :
  String.length (a +:+ b) = (String.length a + String.length b)%nat.
Proof.
  induction a as [|c a IH]; [done|].
  change (String c a +:+ b) with (String c (a +:+ b)). cbn. by rewrite IH.
Qed.

Lemma string_app_inj_r (s a b : string) : a +:+ s = b +:+ s -> a = b.
Proof.
  revert b. induction a as [|c a IH]; intros [|d b] Heq.
  - done.
  - apply (f_equal String.length) in Heq.
    rewrite !string_length_app in Heq. cbn in Heq. lia.
  - apply (f_equal String.length) in Heq.
    rewrite !string_length_app in Heq. cbn in Heq. lia.
  - change (String c (a +:+ s) = String d (b +:+ s)) in Heq.
    injection Heq as -> Heq. f_equal. by apply IH.
Qed.

Lemma contributors_url_inj org a b :
  contributors_url org a = contributors_url org b -> a = b.
Proof.
  unfold contributors_url. intros Heq.
  do 3 apply String.app_inj in Heq. by apply string_app_inj_r in Heq.
Qed.

Lemma contributors_url_eqb org a b :
  String.eqb (contributors_url org a) (contributors_url org b)
  = bool_decide (a = b).
Proof.
  case_bool_decide as Hab.
  - subst. apply String.eqb_refl.
  - apply String.eqb_neq. intros Heq. by apply contributors_url_inj in Heq.
Qed.

Lemma responses_snoc url tr u status data :
  responses url (tr ++ [Get u status data])
  = responses url tr ++ (if String.eqb u url then [(status, data)] else []).
Proof.
  unfold responses. rewrite omap_app. cbn. by destruct (String.eqb u url).
Qed.

Lemma responses_app url tr1 tr2 :
  responses url (tr1 ++ tr2) = responses url tr1 ++ responses url tr2.
Proof. unfold responses. apply omap_app. Qed.

Lemma responses_cons_get url u status data tr :
  responses url (Get u status data :: tr)
  = (if String.eqb u url then [(status, data)] else []) ++ responses url tr.
Proof. unfold responses. cbn. by destruct (String.eqb u url). Qed.

Lemma responses_cons_wait url s tr :
  responses url (Wait s :: tr) = responses url tr.
Proof. reflexivity. Qed.

Lemma waits_app tr1 tr2 : waits (tr1 ++ tr2) = waits tr1 ++ waits tr2.
Proof. unfold waits. apply omap_app. Qed.

Lemma waits_cons_get u status data tr :
  waits (Get u status data :: tr) = waits tr.
Proof. reflexivity. Qed.

Lemma waits_cons_wait s tr : waits (Wait s :: tr) = s :: waits tr.
Proof. reflexivity. Qed.

Lemma responses_wait url tr s : responses url (tr ++ [Wait s]) = responses url tr.
Proof. unfold responses. rewrite omap_app. cbn. by rewrite app_nil_r. Qed.

Lemma waits_snoc_get tr u status data : waits (tr ++ [Get u status data]) = waits tr.
Proof. unfold waits. rewrite omap_app. cbn. by rewrite app_nil_r. Qed.

Lemma waits_snoc_wait tr s : waits (tr ++ [Wait s]) = waits tr ++ [s].
Proof. unfold waits. by rewrite omap_app. Qed.

Section PollerFacts.
Variable json_loads : string -> result json.
Context {St : Type}.
Variable requestJson : St -> string -> string -> option (Z * option string) * St.
Variable org : string.

Lemma retry_request_requested p x :
  requested org x p (retry_request requestJson org p x).
Proof.
  unfold retry_request, requested.
  destruct (rest_request requestJson (requester p) "GET" _)
    as [[status data] st'].
  exists status, data.
  destruct (status =? HTTP_OK) eqn:Hok; cbn [andb].
  - apply Z.eqb_eq in Hok. subst.
    destruct (has_data data); cbn; (split; [done|]); right;
      (split; [done|]); (split; [done|]); eexists; split; done.
  - apply Z.eqb_neq in Hok.
    destruct (status =? HTTP_ACCEPTED) eqn:Hacc; cbn; (split; [done|]).
    + apply Z.eqb_eq in Hacc. by left.
    + apply Z.eqb_neq in Hacc. right. repeat split; try done.
      eexists; split; done.
Qed.

Lemma first_request_requested p x :
  json_bodies json_loads requestJson ->
  ∃ p', first_request json_loads requestJson org p x = inr p'
        ∧ requested org x p p'.
Proof.
  intros Hbodies. unfold first_request, requested, rest_request.
  destruct (requestJson (requester p) "GET" _) as [[[status data]|] st'] eqn:Hreq.
  2:{ cbn. eexists. split; [reflexivity|]. eexists _, _. split; [done|].
      right. cbn. repeat split; try done. eexists; split; done. }
  assert (Hdict : ∃ data_dict,
             match data with
             | Some s => if has_data data then json_loads s else ret JNull
             | None => ret JNull
             end = inr data_dict
             ∧ (truthy data_dict = true -> ∃ n, py_len data_dict = inr n)).
  { destruct data as [body|]; [|by exists JNull].
    destruct (has_data (Some body)) eqn:Hd; [|by exists JNull].
    destruct (Hbodies _ _ _ _ _ _ Hreq) as [-> | [[l Hl] | [l Hl]]];
      [discriminate | |]; rewrite Hl; eexists; (split; [done|]);
      cbn; eauto. }
  destruct Hdict as (data_dict & -> & Hlen). cbn [bind].
  destruct (status =? HTTP_OK) eqn:Hok; cbn [andb].
  - apply Z.eqb_eq in Hok. subst.
    destruct (truthy data_dict) eqn:Ht.
    + destruct (Hlen eq_refl) as [n ->]. cbn.
      eexists. split; [reflexivity|]. eexists _, _. split; [done|].
      right. cbn. repeat split; try done. eexists; split; done.
    + cbn. eexists. split; [reflexivity|]. eexists _, _. split; [done|].
      right. cbn. repeat split; try done. eexists; split; done.
  - apply Z.eqb_neq in Hok.
    destruct (status =? HTTP_ACCEPTED) eqn:Hacc; cbn;
      (eexists; split; [reflexivity|]); eexists _, _; (split; [done|]).
    + apply Z.eqb_eq in Hacc. by left.
    + apply Z.eqb_neq in Hacc. right. cbn. repeat split; try done.
      eexists; split; done.
Qed.

Lemma requested_pass_inv n x todo (p p' : poller St) :
  requested org x p p' ->
  pass_inv org n (x :: todo) p -> pass_inv org n todo p'.
Proof.
  intros (status & data & Hlog & Hcase) (Hnd & Hndp & Hunits).
  apply NoDup_cons in Hnd as [Hx Hnd].
  destruct (Hunits x) as [(_ & Hxp & Hxm & Hxall & Hxlen)
                         | [(Hx' & _) | (Hx' & _)]];
    [| destruct Hx'; by left ..].
  assert (Hresp : ∀ r, responses (contributors_url org r) (log p')
                       = responses (contributors_url org r) (log p)
                         ++ (if bool_decide (x = r) then [(status, data)]
                             else [])).
  { intros r. by rewrite Hlog, responses_snoc, contributors_url_eqb. }
  split; [exact Hnd|]. split.
  { destruct Hcase as [(_ & _ & ->) | (_ & -> & _)]; [|done].
    apply NoDup_app. repeat split; [done | | apply NoDup_singleton].
    intros y Hy ->%list_elem_of_singleton. done. }
  intros r. unfold unit_inv. rewrite Hresp.
  destruct (decide (x = r)) as [<- | Hne].
  - rewrite bool_decide_eq_true_2 by done.
    destruct Hcase as [(-> & -> & ->) | (Hst & -> & v & -> & Hv)].
    + right. left. repeat split; try done.
      * apply elem_of_app. right. by apply list_elem_of_singleton.
      * apply Forall_app. split; [done|]. by constructor.
      * rewrite length_app. cbn. lia.
    + right. right. repeat split; try done. right.
      exists (responses (contributors_url org x) (log p)), (status, data), v.
      repeat split; try done. by rewrite lookup_insert_eq.
  - rewrite bool_decide_eq_false_2 by done. rewrite app_nil_r.
    assert (Hmap : contributors_map p' !! r = contributors_map p !! r).
    { destruct Hcase as [(_ & -> & _) | (_ & _ & v & -> & _)]; [done|].
      by rewrite lookup_insert_ne. }
    assert (Hpend : r ∈ pending_repos p' ↔ r ∈ pending_repos p).
    { destruct Hcase as [(_ & _ & ->) | (_ & -> & _)]; [|done].
      rewrite elem_of_app, list_elem_of_singleton.
      split; [intros [?|?]; [done | congruence] | by left]. }
    assert (Htodo : r ∈ x :: todo ↔ r ∈ todo).
    { rewrite elem_of_cons. split; [intros [?|?]; [congruence | done] | by right]. }
    rewrite Hmap. specialize (Hunits r). unfold unit_inv in Hunits.
    rewrite <- Htodo. rewrite Hpend. exact Hunits.
Qed.

Lemma requests_all_pass_inv n todo (p p' : poller St) :
  requests_all org todo p p' ->
  pass_inv org n todo p -> pass_inv org n [] p'.
Proof.
  induction 1 as [p | x todo p p1 p' Hreq _ IH]; [done|].
  intros Hinv. apply IH. by eapply requested_pass_inv.
Qed.

Lemma requests_all_keys todo (p p' : poller St) :
  requests_all org todo p p' ->
  dom (contributors_map p') ∪ list_to_set (pending_repos p')
  = (list_to_set todo ∪ dom (contributors_map p)
     ∪ list_to_set (pending_repos p) : gset string).
Proof.
  induction 1 as [p | x todo p p1 p' Hreq _ IH]; [set_solver|].
  rewrite IH. destruct Hreq as (status & data & _ & Hcase).
  destruct Hcase as [(_ & -> & ->) | (_ & -> & v & -> & _)].
  - rewrite list_to_set_app_L. set_solver.
  - rewrite dom_insert_L. set_solver.
Qed.

Lemma requests_all_waits todo (p p' : poller St) :
  requests_all org todo p p' -> waits (log p') = waits (log p).
Proof.
  induction 1 as [p | x todo p p1 p' Hreq _ IH]; [done|].
  rewrite IH. destruct Hreq as (status & data & -> & _).
  apply waits_snoc_get.
Qed.

Lemma first_pass_requests_all repos (p : poller St) :
  json_bodies json_loads requestJson ->
  ∃ p', first_pass json_loads requestJson org p repos = inr p'
        ∧ requests_all org repos p p'.
Proof.
  intros Hbodies. revert p.
  induction repos as [|x repos IH]; intros p; cbn.
  - exists p. split; [done | constructor].
  - destruct (first_request_requested p x Hbodies) as (p1 & -> & Hreq).
    destruct (IH p1) as (p' & Hrun & Hall). cbn.
    exists p'. split; [done|]. by econstructor.
Qed.

Lemma fold_retry_requests_all todo (p : poller St) :
  requests_all org todo p (fold_left (retry_request requestJson org) todo p).
Proof.
  revert p. induction todo as [|x todo IH]; intros p; cbn; [constructor|].
  econstructor; [apply retry_request_requested | apply IH].
Qed.

Lemma retry_pass_requests_all (p : poller St) :
  requests_all org (pending_repos p) (start_pass p)
               (retry_pass requestJson org p).
Proof. apply fold_retry_requests_all. Qed.

Lemma start_pass_inv n (p : poller St) :
  pass_inv org n [] p -> pass_inv org (S n) (pending_repos p) (start_pass p).
Proof.
  intros (_ & Hnd & Hunits). split; [done|]. split; [constructor|].
  intros r. unfold unit_inv. cbn. rewrite responses_wait.
  destruct (Hunits r) as [(Hin & _) | [(_ & Hin & Hv & Hall & Hlen)
                                      | (_ & Hnin & Hrest)]].
  - by apply elem_of_nil in Hin.
  - left. repeat split; try done. apply not_elem_of_nil.
  - right. right. repeat split; try done. apply not_elem_of_nil.
Qed.

(** The [while] loop: [k] passes are made, one sleep each; if a unit
    is left pending, the whole budget was spent. *)
Lemma retry_loop_inv remaining :
  ∀ n (p : poller St),
    let p' := retry_loop requestJson remaining org p in
    ∃ k, (k ≤ remaining)%nat
         ∧ (pass_inv org n [] p -> pass_inv org (n + k) [] p')
         ∧ waits (log p')
           = waits (log p) ++ replicate k CONTRIBUTOR_RETRY_SLEEP_SECONDS
         ∧ (pending_repos p' ≠ [] -> k = remaining)
         ∧ (pending_repos p ≠ [] -> (0 < remaining)%nat -> (0 < k)%nat)
         ∧ dom (contributors_map p') ∪ list_to_set (pending_repos p')
           = (dom (contributors_map p) ∪ list_to_set (pending_repos p)
              : gset string).
Proof.
  induction remaining as [|remaining IH]; intros n p; cbn.
  - exists 0%nat. rewrite Nat.add_0_r, app_nil_r.
    destruct (pending_repos p) eqn:Hpend; rewrite ?Hpend;
      split_and!; try done; intros; lia.
  - destruct (pending_repos p) as [|x todo] eqn:Hpend.
    { exists 0%nat. rewrite Nat.add_0_r, app_nil_r, Hpend.
      split_and!; try done; intros; lia. }
    pose proof (retry_pass_requests_all p) as Hall.
    destruct (IH (S n) (retry_pass requestJson org p))
      as (k & Hk & Hinv' & Hw & Hleft & _ & Hkeys).
    exists (S k). split_and!; try lia.
    + intros Hinv. rewrite Nat.add_succ_r. apply Hinv'.
      by apply (requests_all_pass_inv _ _ _ _ Hall), start_pass_inv.
    + rewrite Hw, (requests_all_waits _ _ _ Hall). cbn.
      rewrite waits_snoc_wait, <- app_assoc. done.
    + intros Hne. by rewrite (Hleft Hne).
    + rewrite Hkeys, (requests_all_keys _ _ _ Hall).
      cbn [start_pass contributors_map pending_repos].
      rewrite Hpend. set_solver.
Qed.

Lemma time_out_lookup pend (m : gmap string Z) r :
  fold_left (fun m x => <[x := 0]> m) pend m !! r
  = if decide (r ∈ pend) then Some 0 else m !! r.
Proof.
  revert m. induction pend as [|x pend IH]; intros m; cbn.
  - by rewrite decide_False by apply not_elem_of_nil.
  - rewrite IH. destruct (decide (r ∈ pend)) as [Hin | Hnin].
    + rewrite decide_True; [done | by right].
    + destruct (decide (x = r)) as [-> | Hne].
      * rewrite lookup_insert_eq, decide_True; [done | by left].
      * rewrite lookup_insert_ne by done.
        rewrite decide_False; [done|].
        rewrite elem_of_cons. intros [?|?]; congruence.
Qed.

Lemma time_out_dom pend (m : gmap string Z) :
  dom (fold_left (fun m x => <[x := 0]> m) pend m)
  = (dom m ∪ list_to_set pend : gset string).
Proof.
  revert m. induction pend as [|x pend IH]; intros m; cbn.
  - set_solver.
  - rewrite IH, dom_insert_L. set_solver.
Qed.

Lemma snoc_inv {A} (pre post pre' : list A) (x fin : A) :
  pre ++ x :: post = pre' ++ [fin] -> (post = [] ∧ x = fin) ∨ x ∈ pre'.
Proof.
  destruct post as [|y post] using rev_ind.
  - intros [_ ->]%app_inj_tail. by left.
  - clear IHpost. intros Heq. right.
    rewrite app_comm_cons, app_assoc in Heq.
    apply app_inj_tail in Heq as [<- _].
    apply elem_of_app. right. by left.
Qed.

Lemma start_inv (st : St) repos :
  NoDup repos ->
  pass_inv org 0 repos
           {| contributors_map := ∅; pending_repos := [];
              log := []; requester := st |}.
Proof.
  intros Hnd. split; [done|]. split; [constructor|].
  intros r. unfold unit_inv. cbn.
  destruct (decide (r ∈ repos)) as [Hin | Hnin].
  - left. split_and!; try done; [apply not_elem_of_nil | constructor].
  - right. right. split_and!; try done; [apply not_elem_of_nil | by left].
Qed.

(** X28. For a requester whose non-empty bodies are JSON arrays or
    objects, whatever the list of repositories,
    [_fetch_all_contributors] returns a mapping whose keys are exactly
    their names, after at most [MAX_CONTRIBUTOR_RETRIES] sleeps.  For
    distinct names: an answer with a status other than 200 and 202 is
    the last request made for its unit (no retry) and the unit maps to
    0; and a unit answered 202 every time was asked once and then once
    in each of the [MAX_CONTRIBUTOR_RETRIES] passes, and maps to 0. *)
Theorem fetch_all_contributors_resolves (st : St) repos :
  json_bodies json_loads requestJson ->
  ∃ m tr st',
    _fetch_all_contributors json_loads requestJson st org repos
      = inr (m, tr, st')
    ∧ dom m = list_to_set repos
    ∧ (length (waits tr) ≤ MAX_CONTRIBUTOR_RETRIES)%nat
    ∧ (NoDup repos ->
       ∀ r, r ∈ repos ->
         let rs := responses (contributors_url org r) tr in
         (∀ pre status data post,
             rs = pre ++ (status, data) :: post ->
             status ≠ HTTP_OK -> status ≠ HTTP_ACCEPTED ->
             post = [] ∧ m !! r = Some 0)
         ∧ (all_pending rs ->
            m !! r = Some 0 ∧ length rs = S MAX_CONTRIBUTOR_RETRIES)).
Proof.
  intros Hbodies. unfold _fetch_all_contributors.
  set (p0 := {| contributors_map := ∅; pending_repos := [];
                log := []; requester := st |}).
  destruct (first_pass_requests_all repos p0 Hbodies) as (p1 & -> & Hall).
  cbn [bind ret].
  set (p2 := retry_loop requestJson MAX_CONTRIBUTOR_RETRIES org p1).
  eexists _, _, _. split; [reflexivity|].
  pose proof (requests_all_keys _ _ _ Hall) as Hkeys1.
  pose proof (requests_all_waits _ _ _ Hall) as Hwaits1.
  cbn [contributors_map pending_repos log p0] in Hkeys1, Hwaits1.
  destruct (retry_loop_inv MAX_CONTRIBUTOR_RETRIES 0 p1)
    as (k & Hk & Hinv & Hwaits & Hleft & _ & Hkeys).
  fold p2 in Hinv, Hwaits, Hleft, Hkeys.
  assert (Hdom : dom (contributors_map (time_out p2))
                 = (list_to_set repos : gset string)).
  { unfold time_out. cbn [contributors_map]. rewrite time_out_dom.
    rewrite Hkeys, Hkeys1, dom_empty_L, list_to_set_nil.
    by rewrite !(right_id_L ∅ (∪)). }
  split; [exact Hdom|]. split.
  { unfold time_out. cbn [log]. rewrite Hwaits, Hwaits1.
    change (waits []) with (@nil Z). cbn [app].
    by rewrite length_replicate. }
  intros Hnd r Hr.
  specialize (Hinv (requests_all_pass_inv _ _ _ _ Hall (start_inv st repos Hnd))).
  destruct Hinv as (_ & _ & Hunits).
  assert (Hfinal : contributors_map (time_out p2) !! r
                   = if decide (r ∈ pending_repos p2) then Some 0
                     else contributors_map p2 !! r).
  { unfold time_out. cbn [contributors_map]. apply time_out_lookup. }
  assert (His : is_Some (contributors_map (time_out p2) !! r)).
  { apply elem_of_dom. rewrite Hdom. by apply elem_of_list_to_set. }
  change (log (time_out p2)) with (log p2).
  destruct (Hunits r) as [(Hin & _) | [(_ & Hin & Hv & Hpend & Hlen)
                                      | (_ & Hnin & Hrest)]].
  - by apply elem_of_nil in Hin.
  - rewrite decide_True in Hfinal by done. split.
    + intros pre status data post Heq Hok Hacc. exfalso.
      rewrite Heq in Hpend. apply Forall_app in Hpend as [_ Hpend].
      apply Forall_cons in Hpend as [Hst _]. done.
    + intros _. split; [done|]. rewrite Hlen. f_equal.
      apply Hleft. intros Hnil. rewrite Hnil in Hin.
      by apply elem_of_nil in Hin.
  - rewrite decide_False in Hfinal by done. rewrite Hfinal in *.
    destruct Hrest as [[_ Hnone] | (pre' & fin & v & Hrs & Hpre & Hfin & Hv & Hzero)].
    { rewrite Hnone in His. by destruct His. }
    split.
    + intros pre status data post Heq Hok Hacc. rewrite Hrs in Heq.
      symmetry in Heq.
      destruct (snoc_inv _ _ _ _ _ Heq) as [[-> <-] | Hin].
      * split; [done|]. rewrite Hv. f_equal. by apply Hzero.
      * exfalso. unfold all_pending in Hpre.
        rewrite Forall_forall in Hpre. by apply Hpre in Hin.
    + intros Hall'. exfalso. rewrite Hrs in Hall'.
      apply Forall_app in Hall' as [_ Hall'].
      apply Forall_cons in Hall' as [Hst _]. done.
Qed.
End PollerFacts.

Lemma scenario_json_bodies :
  json_bodies JsonText.loads
              (scenario_requester "org" "a" "b" "c" "[{}, {}, {}]" "[{}, {}]").
Proof.
  intros polls method url status body st' Hreq.
  unfold scenario_requester in Hreq.
  repeat match type of Hreq with
         | context [String.eqb ?a ?b] => destruct (String.eqb a b)
         | context [(?a <? ?b)%nat] => destruct (a <? b)%nat
         end;
    inversion Hreq; subst; right; left; eexists; vm_compute; reflexivity.
Qed.

Lemma fetch_all_contributors_resolves_witness :
  ∃ m tr st',
    _fetch_all_contributors
      JsonText.loads
      (scenario_requester "org" "a" "b" "c" "[{}, {}, {}]" "[{}, {}]")
      0%nat "org" ["a"; "b"; "c"] = inr (m, tr, st')
    ∧ dom m = list_to_set ["a"; "b"; "c"].
Proof.
  destruct (fetch_all_contributors_resolves
              JsonText.loads
              (scenario_requester "org" "a" "b" "c" "[{}, {}, {}]" "[{}, {}]")
              "org" 0%nat ["a"; "b"; "c"] scenario_json_bodies)
    as (m & tr & st' & Hrun & Hdom & _).
  exists m, tr, st'. split; [exact Hrun | exact Hdom].
Defined.

(** An answer whose status is neither 200 nor 202 and whose body is
    not JSON, met by the first loop and by a retry pass: the first loop
    parses the body before it looks at the status, and the exception of
    [json.loads] ends the call; a retry pass maps the repository to 0. *)
Lemma error_body_two_paths {St : Type} json_loads
    (requestJson : St -> string -> string -> option (Z * option string) * St)
    org (p : poller St) x status body st' e rest :
  requestJson (requester p) "GET" (contributors_url org x)
    = (Some (status, Some body), st') ->
  body ≠ "" ->
  json_loads body = inl e ->
  status ≠ HTTP_OK -> status ≠ HTTP_ACCEPTED ->
  first_pass json_loads requestJson org p (x :: rest) = inl e
  ∧ contributors_map (retry_request requestJson org p x) !! x = Some 0
  ∧ pending_repos (retry_request requestJson org p x) = pending_repos p.
Proof.
  intros Hreq Hbody Hloads Hok Hacc.
  assert (Hdata : has_data (Some body) = true).
  { cbn. apply negb_true_iff. by apply String.eqb_neq. }
  apply Z.eqb_neq in Hok, Hacc.
  cbn [first_pass]. unfold first_request, retry_request, rest_request.
  rewrite Hreq, Hdata, Hloads, Hok, Hacc. cbn.
  split; [done|]. split; [by rewrite lookup_insert_eq | done].
Qed.

(** C3 (the code departs from it).  A repository whose first request
    is answered with status 502 and an HTML body does not map to 0:
    the first loop hands the body to [json.loads] before it looks at
    the status, and the call ends with [JSONDecodeError], no mapping
    returned.  The same answer met in a retry pass, after a 202, maps
    the repository to 0, as the claim says. *)
Theorem first_loop_parses_error_bodies :
  error_run = inl JSONDecodeError
  ∧ count_of error_run "a" = None
  ∧ count_of late_error_run "a" = Some 0
  ∧ JsonText.loads error_page = inl JSONDecodeError
  ∧ HTTP_BAD_GATEWAY ≠ HTTP_OK ∧ HTTP_BAD_GATEWAY ≠ HTTP_ACCEPTED.
Proof. vm_compute. by split_and!. Qed.

(** The same answer, 200 with a non-empty JSON array, counted by the
    first loop and by a retry pass. *)
Lemma same_answer_two_counts {St : Type} json_loads
    (requestJson : St -> string -> string -> option (Z * option string) * St)
    org (p : poller St) x body items st' :
  requestJson (requester p) "GET" (contributors_url org x)
    = (Some (HTTP_OK, Some body), st') ->
  body ≠ "" ->
  json_loads body = inr (JArr items) ->
  items ≠ [] ->
  (∃ p1, first_request json_loads requestJson org p x = inr p1
         ∧ contributors_map p1 !! x = Some (Z.of_nat (length items)))
  ∧ contributors_map (retry_request requestJson org p x) !! x
    = Some (Z.of_nat (code_points body)).
Proof.
  intros Hreq Hbody Hloads Hitems.
  assert (Hdata : has_data (Some body) = true).
  { cbn. apply negb_true_iff. by apply String.eqb_neq. }
  unfold first_request, retry_request, rest_request. rewrite Hreq, Hdata, Hloads.
  destruct items as [|item items]; [done|]. cbn.
  split; [eexists; split; [reflexivity|] |]; cbn; by rewrite lookup_insert_eq.
Qed.

(** C4 (the code departs from it).  A body of two contributor entries
    answered with 200 at the first request is counted as 2; the same
    body answered with 200 in the second retry pass is counted as 8,
    the number of characters of its text: the retry pass takes
    [len(data)] of the unparsed body. *)
Theorem retry_pass_counts_characters :
  count_of prompt_run "b" = Some 2
  ∧ count_of late_run "b" = Some 8
  ∧ JsonText.loads "[{}, {}]" = inr (JArr [JObj []; JObj []])
  ∧ String.length "[{}, {}]" = 8%nat.
Proof. vm_compute. repeat split. Qed.

Lemma scenario_run_total_wait :
  total_wait_of scenario_run
  = Some (Z.of_nat MAX_CONTRIBUTOR_RETRIES * CONTRIBUTOR_RETRY_SLEEP_SECONDS).
Proof. vm_compute. reflexivity. Qed.

(** C5 as worded fails on the scenario: with a unit that stays pending,
    the loop sleeps in every one of its [MAX_CONTRIBUTOR_RETRIES]
    passes, so the waits cannot add up to twice the interval. *)
Lemma poller_convergence_counterexample :
  ¬ convergence_as_claimed scenario_run "org" "a" "b" "c" 3 2.
Proof.
  intros (m & tr & st' & Hrun & _ & _ & _ & _ & _ & _ & Hwait).
  pose proof scenario_run_total_wait as Htotal.
  rewrite Hrun in Htotal. cbn in Htotal. rewrite Hwait in Htotal.
  discriminate.
Qed.

(** *** The three-unit scenario, for any names and bodies *)

Section Scenario.
Variable json_loads : string -> result json.
Variables org ready slow stuck ready_body slow_body : string.
Variable items : list json.
Hypothesis ready_slow : ready ≠ slow.
Hypothesis ready_stuck : ready ≠ stuck.
Hypothesis slow_stuck : slow ≠ stuck.
Hypothesis ready_body_text : ready_body ≠ "".
Hypothesis slow_body_text : slow_body ≠ "".
Hypothesis ready_body_items : json_loads ready_body = inr (JArr items).
Hypothesis ready_items : items ≠ [].

Local Abbreviation rq :=
  (scenario_requester org ready slow stuck ready_body slow_body).
Local Abbreviation url := (contributors_url org).

Lemma rest_ready polls :
  rest_request rq polls "GET" (url ready) = (HTTP_OK, Some ready_body, polls).
Proof.
  unfold rest_request, scenario_requester.
  by rewrite String.eqb_refl.
Qed.

Lemma rest_slow polls :
  rest_request rq polls "GET" (url slow)
  = (if (polls <? 2)%nat then (HTTP_ACCEPTED, None, S polls)
     else (HTTP_OK, Some slow_body, S polls)).
Proof.
  unfold rest_request, scenario_requester.
  rewrite contributors_url_eqb, bool_decide_eq_false_2 by congruence.
  rewrite String.eqb_refl. by destruct (polls <? 2)%nat.
Qed.

Lemma rest_stuck polls :
  rest_request rq polls "GET" (url stuck) = (HTTP_ACCEPTED, None, polls).
Proof.
  unfold rest_request, scenario_requester.
  rewrite contributors_url_eqb, bool_decide_eq_false_2 by congruence.
  rewrite contributors_url_eqb, bool_decide_eq_false_2 by congruence.
  by rewrite String.eqb_refl.
Qed.

Lemma has_data_text body : body ≠ "" -> has_data (Some body) = true.
Proof. intros Hne. cbn. apply negb_true_iff. by apply String.eqb_neq. Qed.

Lemma first_request_ready (p : poller nat) :
  first_request json_loads rq org p ready
  = inr {| contributors_map :=
             <[ready := Z.of_nat (length items)]> (contributors_map p);
           pending_repos := pending_repos p;
           log := log p ++ [Get (url ready) HTTP_OK (Some ready_body)];
           requester := requester p |}.
Proof.
  unfold first_request. rewrite rest_ready.
  rewrite has_data_text, ready_body_items by done.
  destruct items; [done|]. reflexivity.
Qed.

Lemma first_request_pending (p : poller nat) x polls' :
  rest_request rq (requester p) "GET" (url x) = (HTTP_ACCEPTED, None, polls') ->
  first_request json_loads rq org p x
  = inr {| contributors_map := contributors_map p;
           pending_repos := pending_repos p ++ [x];
           log := log p ++ [Get (url x) HTTP_ACCEPTED None];
           requester := polls' |}.
Proof. intros Hrest. unfold first_request. by rewrite Hrest. Qed.

Lemma retry_request_pending (p : poller nat) x polls' :
  rest_request rq (requester p) "GET" (url x) = (HTTP_ACCEPTED, None, polls') ->
  retry_request rq org p x
  = {| contributors_map := contributors_map p;
       pending_repos := pending_repos p ++ [x];
       log := log p ++ [Get (url x) HTTP_ACCEPTED None];
       requester := polls' |}.
Proof. intros Hrest. unfold retry_request. by rewrite Hrest. Qed.

Lemma retry_request_done (p : poller nat) x body polls' :
  rest_request rq (requester p) "GET" (url x) = (HTTP_OK, Some body, polls') ->
  body ≠ "" ->
  retry_request rq org p x
  = {| contributors_map :=
         <[x := Z.of_nat (code_points body)]> (contributors_map p);
       pending_repos := pending_repos p;
       log := log p ++ [Get (url x) HTTP_OK (Some body)];
       requester := polls' |}.
Proof.
  intros Hrest Hbody. unfold retry_request.
  by rewrite Hrest, has_data_text.
Qed.

(** With only [stuck] pending, every pass sleeps, asks once and gets
    nowhere. *)
Lemma retry_loop_stuck n (p : poller nat) :
  pending_repos p = [stuck] ->
  retry_loop rq n org p
  = {| contributors_map := contributors_map p;
       pending_repos := [stuck];
       log := log p
              ++ concat (replicate n [Wait CONTRIBUTOR_RETRY_SLEEP_SECONDS;
                                      Get (url stuck) HTTP_ACCEPTED None]);
       requester := requester p |}.
Proof.
  revert p. induction n as [|n IH]; intros p Hpend.
  - cbn. rewrite Hpend, app_nil_r. by destruct p; cbn in *; subst.
  - cbn [retry_loop]. rewrite Hpend. unfold retry_pass. rewrite Hpend.
    cbn [fold_left].
    rewrite (retry_request_pending _ stuck (requester p)) by apply rest_stuck.
    rewrite IH by done. cbn. by rewrite <- !app_assoc.
Qed.

Lemma retry_loop_step n (p : poller nat) x todo :
  pending_repos p = x :: todo ->
  retry_loop rq (S n) org p = retry_loop rq n org (retry_pass rq org p).
Proof. intros Hpend. cbn [retry_loop]. by rewrite Hpend. Qed.

Lemma responses_concat_stuck x n :
  responses (url x)
            (concat (replicate n [Wait CONTRIBUTOR_RETRY_SLEEP_SECONDS;
                                  Get (url stuck) HTTP_ACCEPTED None]))
  = if bool_decide (stuck = x) then replicate n (HTTP_ACCEPTED, None) else [].
Proof.
  induction n as [|n IH]; [by case_bool_decide|].
  cbn [replicate concat app].
  rewrite responses_cons_wait, responses_cons_get, IH.
  rewrite contributors_url_eqb. by case_bool_decide.
Qed.

Lemma waits_concat_stuck n :
  waits (concat (replicate n [Wait CONTRIBUTOR_RETRY_SLEEP_SECONDS;
                              Get (url stuck) HTTP_ACCEPTED None]))
  = replicate n CONTRIBUTOR_RETRY_SLEEP_SECONDS.
Proof.
  induction n as [|n IH]; [done|].
  cbn [replicate concat app].
  by rewrite waits_cons_wait, waits_cons_get, IH.
Qed.

Local Abbreviation log1 :=
  [Get (url ready) HTTP_OK (Some ready_body);
   Get (url slow) HTTP_ACCEPTED None;
   Get (url stuck) HTTP_ACCEPTED None].
Local Abbreviation m1 :=
  (<[ready := Z.of_nat (length items)]> (∅ : gmap string Z)).

Lemma scenario_first_pass :
  first_pass json_loads rq org
             {| contributors_map := ∅; pending_repos := [];
                log := []; requester := 0%nat |}
             [ready; slow; stuck]
  = inr {| contributors_map := m1; pending_repos := [slow; stuck];
           log := log1; requester := 1%nat |}.
Proof.
  cbn [first_pass].
  rewrite first_request_ready. cbn [bind].
  rewrite (first_request_pending _ slow 1)
    by (rewrite rest_slow; reflexivity).
  cbn [bind contributors_map pending_repos log requester].
  rewrite (first_request_pending _ stuck 1) by apply rest_stuck.
  reflexivity.
Qed.

Lemma scenario_retry_loop :
  retry_loop rq MAX_CONTRIBUTOR_RETRIES org
             {| contributors_map := m1; pending_repos := [slow; stuck];
                log := log1; requester := 1%nat |}
  = {| contributors_map :=
         <[slow := Z.of_nat (code_points slow_body)]> m1;
       pending_repos := [stuck];
       log := (log1
               ++ [Wait CONTRIBUTOR_RETRY_SLEEP_SECONDS;
                   Get (url slow) HTTP_ACCEPTED None;
                   Get (url stuck) HTTP_ACCEPTED None;
                   Wait CONTRIBUTOR_RETRY_SLEEP_SECONDS])
              ++ Get (url slow) HTTP_OK (Some slow_body)
                 :: Get (url stuck) HTTP_ACCEPTED None
                 :: concat (replicate 18
                              [Wait CONTRIBUTOR_RETRY_SLEEP_SECONDS;
                               Get (url stuck) HTTP_ACCEPTED None]);
       requester := 3%nat |}.
Proof.
  change MAX_CONTRIBUTOR_RETRIES with (S (S 18)).
  rewrite (retry_loop_step _ _ slow [stuck]) by reflexivity.
  unfold retry_pass at 1.
  cbn [fold_left contributors_map pending_repos log requester].
  rewrite (retry_request_pending _ slow 2)
    by (rewrite rest_slow; reflexivity).
  cbn [contributors_map pending_repos log requester app].
  rewrite (retry_request_pending _ stuck 2) by apply rest_stuck.
  cbn [contributors_map pending_repos log requester app].
  rewrite (retry_loop_step _ _ slow [stuck]) by reflexivity.
  unfold retry_pass at 1.
  cbn [fold_left contributors_map pending_repos log requester].
  rewrite (retry_request_done _ slow slow_body 3)
    by (rewrite ?rest_slow; done).
  cbn [contributors_map pending_repos log requester app].
  rewrite (retry_request_pending _ stuck 3) by apply rest_stuck.
  cbn [contributors_map pending_repos log requester app].
  rewrite retry_loop_stuck by reflexivity.
  cbn [contributors_map pending_repos log requester app].
  reflexivity.
Qed.

(** C5, amended.  In the three-unit scenario the poller returns with
    [ready] resolved to the number of entries of its body by its one
    and only request, [slow] resolved by its third request, which is
    made in the second retry pass (after exactly two sleeps), and
    [stuck] set to 0 after [1 + MAX_CONTRIBUTOR_RETRIES] requests;
    the log holds one sleep per pass, [MAX_CONTRIBUTOR_RETRIES] in
    all, so the total wait is [MAX_CONTRIBUTOR_RETRIES] times the
    retry interval. *)
Theorem poller_convergence :
  ∃ m tr,
    _fetch_all_contributors json_loads rq 0%nat org [ready; slow; stuck]
      = inr (m, tr, 3%nat)
    ∧ m !! ready = Some (Z.of_nat (length items))
    ∧ responses (url ready) tr = [(HTTP_OK, Some ready_body)]
    ∧ is_Some (m !! slow)
    ∧ responses (url slow) tr
      = [(HTTP_ACCEPTED, None); (HTTP_ACCEPTED, None);
         (HTTP_OK, Some slow_body)]
    ∧ (∃ before after,
          tr = before ++ Get (url slow) HTTP_OK (Some slow_body) :: after
          ∧ waits before = replicate 2 CONTRIBUTOR_RETRY_SLEEP_SECONDS)
    ∧ m !! stuck = Some 0
    ∧ responses (url stuck) tr
      = replicate (S MAX_CONTRIBUTOR_RETRIES) (HTTP_ACCEPTED, None)
    ∧ waits tr
      = replicate MAX_CONTRIBUTOR_RETRIES CONTRIBUTOR_RETRY_SLEEP_SECONDS
    ∧ total_wait tr
      = Z.of_nat MAX_CONTRIBUTOR_RETRIES * CONTRIBUTOR_RETRY_SLEEP_SECONDS.
Proof.
  unfold _fetch_all_contributors. rewrite scenario_first_pass.
  cbn [bind]. rewrite scenario_retry_loop. unfold time_out.
  cbn [fold_left contributors_map pending_repos log requester].
  eexists _, _. split; [reflexivity|].
  assert (Hwaits : ∀ after,
             waits ((log1
                     ++ [Wait CONTRIBUTOR_RETRY_SLEEP_SECONDS;
                         Get (url slow) HTTP_ACCEPTED None;
                         Get (url stuck) HTTP_ACCEPTED None;
                         Wait CONTRIBUTOR_RETRY_SLEEP_SECONDS])
                    ++ after)
             = replicate 2 CONTRIBUTOR_RETRY_SLEEP_SECONDS ++ waits after).
  { intros after. by rewrite waits_app. }
  assert (Hresp : ∀ x,
             responses (url x)
               ((log1
                 ++ [Wait CONTRIBUTOR_RETRY_SLEEP_SECONDS;
                     Get (url slow) HTTP_ACCEPTED None;
                     Get (url stuck) HTTP_ACCEPTED None;
                     Wait CONTRIBUTOR_RETRY_SLEEP_SECONDS])
                ++ Get (url slow) HTTP_OK (Some slow_body)
                   :: Get (url stuck) HTTP_ACCEPTED None
                   :: concat (replicate 18
                                [Wait CONTRIBUTOR_RETRY_SLEEP_SECONDS;
                                 Get (url stuck) HTTP_ACCEPTED None]))
             = (if bool_decide (ready = x)
                then [(HTTP_OK, Some ready_body)] else [])
               ++ (if bool_decide (slow = x)
                   then [(HTTP_ACCEPTED, None); (HTTP_ACCEPTED, None);
                         (HTTP_OK, Some slow_body)] else [])
               ++ (if bool_decide (stuck = x)
                   then replicate 21 (HTTP_ACCEPTED, None) else [])).
  { intros x. cbn [app].
    repeat first [rewrite responses_cons_get | rewrite responses_cons_wait].
    rewrite responses_concat_stuck.
    rewrite !contributors_url_eqb.
    repeat case_bool_decide; subst; try congruence; reflexivity. }
  rewrite !Hresp, Hwaits. unfold total_wait. rewrite Hwaits.
  rewrite waits_cons_get, waits_cons_get, waits_concat_stuck.
  split_and!.
  - by rewrite !lookup_insert_ne, lookup_insert_eq by congruence.
  - repeat case_bool_decide; try congruence; reflexivity.
  - rewrite lookup_insert_ne, lookup_insert_eq by congruence. by eexists.
  - repeat case_bool_decide; try congruence; reflexivity.
  - eexists _, _. split; [reflexivity|]. by rewrite waits_app.
  - by rewrite lookup_insert_eq.
  - repeat case_bool_decide; try congruence; reflexivity.
  - reflexivity.
  - reflexivity.
Qed.
End Scenario.

Lemma poller_convergence_witness :
  ∃ m tr,
    scenario_run = inr (m, tr, 3%nat)
    ∧ m !! "a" = Some 3
    ∧ m !! "c" = Some 0
    ∧ total_wait tr = 200.
Proof.
  assert (Hab : "a" ≠ "b") by discriminate.
  assert (Hac : "a" ≠ "c") by discriminate.
  assert (Hbc : "b" ≠ "c") by discriminate.
  assert (Hready : "[{}, {}, {}]" ≠ "") by discriminate.
  assert (Hslow : "[{}, {}]" ≠ "") by discriminate.
  assert (Hloads : JsonText.loads "[{}, {}, {}]"
                   = inr (JArr [JObj []; JObj []; JObj []]))
    by (vm_compute; reflexivity).
  assert (Hitems : [JObj []; JObj []; JObj []] ≠ []) by discriminate.
  destruct (poller_convergence
              JsonText.loads "org" "a" "b" "c" "[{}, {}, {}]" "[{}, {}]"
              [JObj []; JObj []; JObj []]
              Hab Hac Hbc Hready Hslow Hloads Hitems)
    as (m & tr & Hrun & Ha & _ & _ & _ & _ & Hc & _ & _ & Hw).
  exists m, tr. split; [exact Hrun|]. split; [exact Ha|].
  split; [exact Hc | exact Hw].
Defined.


(** ** The lookup-only steps *)





Section DownloadsFacts.
Variable now : Z.
Variable strptime : string -> result Z.
Variable strftime : Z -> string.


End DownloadsFacts.

Section LookupSteps.
Context {St P : Type}.
Variable graphql : St -> string -> dict -> result json * St.
Variable _fetch_downloads : P -> string -> string -> pepy_answer * P.
Variable now : Z.
Variable strptime : string -> result Z.
Variable strftime : Z -> string.
Variable fuel : nat.
Variable st : St.
Variable p : P.
Variable file : option (list string).
Variable c : cache.
Variable legacy_file : option dict.
Variable conda : CondaData.
Variable res : Result.
Variable config : Config.

End LookupSteps.



(** ** Accumulation *)

Lemma conda_loop_accumulates
    (add : Z -> RepositoryResult -> RepositoryResult)
    (field : RepositoryResult -> Z) legacy :
  (∀ total r, field (add total r) = field r + total) ->
  ∀ rows res name r,
    repositories res !! name = Some r ->
    ∃ r', repositories (conda_loop add legacy res rows) !! name = Some r'
          ∧ field r' = field r + contribution legacy name rows.
Proof.
  intros Hadd. induction rows as [|[pkg total] rows IH]; intros res name r Hr.
  - exists r. cbn. split; [done | lia].
  - cbn. destruct (String.eqb (remap legacy pkg) name) eqn:Heq.
    + apply String.eqb_eq in Heq. rewrite Heq, Hr.
      destruct (IH (with_repositories
                      res (<[name := add total r]> (repositories res)))
                   name (add total r)) as (r' & Hr' & Hfield).
      { cbn. apply lookup_insert_eq. }
      exists r'. split; [done|]. rewrite Hfield, Hadd. lia.
    + apply String.eqb_neq in Heq.
      destruct (repositories res !! remap legacy pkg) as [r0|] eqn:Hr0.
      * destruct (IH (with_repositories
                        res (<[remap legacy pkg := add total r0]>
                               (repositories res)))
                     name r) as (r' & Hr' & Hfield).
        { cbn. by rewrite lookup_insert_ne. }
        exists r'. split; [done|]. rewrite Hfield. lia.
      * destruct (IH res name r Hr) as (r' & Hr' & Hfield).
        exists r'. split; [done|]. rewrite Hfield. lia.
Qed.

(** C8, amended.  The two Conda fields are added to in place: after the
    loop, a record holds what it held plus the totals of all the rows
    that land on it, so a legacy name and the current name of one
    package sum into the one record.  The four PyPI download counts are
    assigned what PePy reports, whatever the record held, and
    [collaborators_count] is assigned once, from the poller's mapping,
    in the record that replaces whatever was stored under the name. *)
Theorem accumulation_semantics :
  (∀ legacy rows res name r,
      repositories res !! name = Some r ->
      ∃ r', repositories (conda_loop add_conda_total_downloads legacy res rows)
              !! name = Some r'
            ∧ conda_total_downloads r'
              = conda_total_downloads r + contribution legacy name rows)
  ∧ (∀ legacy rows res name r,
        repositories res !! name = Some r ->
        ∃ r', repositories (conda_loop add_conda_monthly_downloads legacy res rows)
                !! name = Some r'
              ∧ conda_monthly_downloads r'
                = conda_monthly_downloads r + contribution legacy name rows)
  ∧ (∀ legacy res old current r t1 t2,
        legacy_get old legacy = Some current ->
        legacy_get current legacy = None ->
        repositories res !! current = Some r ->
        ∃ r', repositories (conda_loop add_conda_total_downloads legacy res
                                       [(old, t1); (current, t2)])
                !! current = Some r'
              ∧ conda_total_downloads r' = conda_total_downloads r + t1 + t2)
  ∧ (∀ now strptime strftime res repo_name r data total monthly weekly daily,
        repositories res !! repo_name = Some r ->
        _process_download_numbers now strptime strftime data
          = inr (total, monthly, weekly, daily) ->
        ∃ res' r',
          downloads_loop now strptime strftime res [(repo_name, data)] = inr res'
          ∧ repositories res' !! repo_name = Some r'
          ∧ total_download_count r' = total
          ∧ monthly_download_count r' = monthly
          ∧ weekly_download_count r' = weekly
          ∧ daily_download_count r' = daily)
  ∧ (∀ contributors_map res repo res' repo_name,
        store_repository contributors_map res repo = inr res' ->
        subscript repo "name" = inr (JStr repo_name) ->
        ∃ r', repositories res' !! repo_name = Some r'
              ∧ collaborators_count r'
                = default 0 (contributors_map !! repo_name)
              ∧ contributors_count r' = 0).
Proof.
  split_and!.
  - intros legacy. by apply conda_loop_accumulates.
  - intros legacy. by apply conda_loop_accumulates.
  - intros legacy res old current r t1 t2 Hold Hcur Hr.
    destruct (conda_loop_accumulates
                add_conda_total_downloads conda_total_downloads legacy
                ltac:(done) [(old, t1); (current, t2)] res current r Hr)
      as (r' & Hr' & Hfield).
    exists r'. split; [done|]. rewrite Hfield. cbn. unfold remap.
    rewrite Hold, Hcur, String.eqb_refl. lia.
  - intros now strptime strftime res repo_name r data total monthly weekly daily
           Hr Hproc.
    cbn. rewrite Hr, Hproc. cbn.
    eexists _, _. split; [reflexivity|]. cbn.
    rewrite lookup_insert_eq. by split_and!.
  - intros contributors_map res repo res' repo_name Hrun Hname.
    unfold store_repository in Hrun. rewrite Hname in Hrun. cbn in Hrun.
    repeat match type of Hrun with
           | bind ?m _ = inr _ => destruct m; [discriminate|]; cbn in Hrun
           end.
    injection Hrun as <-. cbn. rewrite lookup_insert_eq.
    eexists. split; [reflexivity|]. by split.
Qed.

Lemma accumulation_semantics_witness :
  ∃ r', repositories (conda_loop add_conda_total_downloads [("old", "a")]
                                 report_a [("old", 5); ("a", 2)])
          !! "a" = Some r'
        ∧ conda_total_downloads r' = 7.
Proof.
  destruct accumulation_semantics as (_ & _ & Hsum & _).
  destruct (Hsum [("old", "a")] report_a "old" "a"
                 (new_RepositoryResult "a" "org/a" "No License" [] 0 0 0 0
                                       false false false 0)
                 5 2 eq_refl eq_refl eq_refl)
    as (r' & Hr' & Hfield).
  exists r'. split; [exact Hr' | exact Hfield].
Defined.

(** C8 as worded fails for the PyPI counts: a record that counts five
    downloads and is reported seven ends with seven, not twelve. *)
Lemma pepy_assigns_counterexample :
  let run := downloads_loop 0 (fun _ => inr 0) (fun _ => "") report_a5
                            [("a", JObj [("total_downloads", JNum 7)])] in
  total_downloads_in (inr report_a5) "a" = Some 5
  ∧ total_downloads_in run "a" = Some 7
  ∧ total_downloads_in run "a" ≠ Some (5 + 7).
Proof. vm_compute. by split_and!. Qed.

(** ** Configuration errors *)

(** C9 as worded fails for a missing secret: the run logs warnings and
    returns, which is exit status 0. *)
Lemma missing_secret_counterexample :
  ¬ (missing_secret ci_env -> exit_status (main_with_stubs ci_env).2 ≠ 0).
Proof. intros Hclaim. apply Hclaim; [by left | reflexivity]. Qed.

Section MainFacts.
Variable normalize_since : json -> result string.
Variable default_since : string.
Variable run_pipeline : string -> Config -> result Result.

(** C9, amended.  A run without one of the two secrets is detected
    first: it logs warnings only, the last one saying that the fetch is
    skipped, and returns normally, exit status 0.  A run with both
    secrets and no organization name, neither in [ORGANIZATION_NAME]
    nor in [config.yml], ends with exit status 1: after logging an
    error, through [sys.exit(1)], when [config.yml] is absent or holds
    a mapping; with an uncaught [AttributeError] and no error message
    of its own when [config.yml] holds anything else (an empty file
    loads as [None]), because the configuration is asked for its
    organization before the guard.  In all these cases nothing has used
    the network and no report is written. *)
Theorem configuration_errors env :
  let run := main normalize_since default_since run_pipeline env in
  (missing_secret env ->
   run.2 = Returned
   ∧ exit_status run.2 = 0
   ∧ Forall (is_message WARNING) run.1
   ∧ last run.1
     = Some (Logged WARNING "Missing secrets - skipping fetch step")
   ∧ Forall quiet run.1)
  ∧ (¬ missing_secret env -> missing_organization env ->
     exit_status run.2 = 1
     ∧ Forall quiet run.1
     ∧ (is_mapping (yaml_config env) = true ->
        run.2 = Exited 1
        ∧ last run.1
          = Some (Logged ERROR
                         "ORGANIZATION_NAME or config.yml organization required"))
     ∧ (is_mapping (yaml_config env) = false ->
        run.2 = Uncaught AttributeError
        ∧ Forall (fun ev => ¬ is_message ERROR ev) run.1)).
Proof.
  unfold missing_secret, missing_organization, main. cbv zeta. split.
  - intros Hmissing.
    assert (Hor : unset (GRAPHQL_TOKEN env) || unset (PEPY_API_KEY env) = true)
      by (apply orb_true_iff; exact Hmissing).
    rewrite Hor.
    destruct (unset (GRAPHQL_TOKEN env)), (unset (PEPY_API_KEY env)); cbn;
      split_and!; try reflexivity;
      repeat constructor; unfold quiet; cbn; tauto.
  - intros Hsecrets [Henv Hyaml].
    destruct (unset (GRAPHQL_TOKEN env)) eqn:Htoken; [destruct Hsecrets; by left|].
    destruct (unset (PEPY_API_KEY env)) eqn:Hkey; [destruct Hsecrets; by right|].
    cbn [orb].
    destruct (yaml_config env) as [| b | n | s | items | yaml]; cbn [is_mapping].
    6:{ cbn [yaml_get] in Hyaml. rewrite Henv, Hyaml. cbn.
        split_and!; try done.
        repeat constructor; unfold quiet; cbn; tauto. }
    all: cbn; split_and!; try done;
      repeat constructor; unfold quiet; cbn; try tauto; discriminate.
Qed.

End MainFacts.

Lemma configuration_errors_witness :
  (main_with_stubs ci_env).2 = Returned
  ∧ (main_with_stubs no_org_env).2 = Exited 1
  ∧ (main_with_stubs empty_config_env).2 = Uncaught AttributeError.
Proof.
  split_and!.
  - destruct (configuration_errors
                (fun _ => inr "2024-01-01T00:00:00") "2024-01-01T00:00:00"
                (fun _ _ => inr Result_default) ci_env) as [Hsecret _].
    destruct Hsecret as (Hend & _); [by left | exact Hend].
  - destruct (configuration_errors
                (fun _ => inr "2024-01-01T00:00:00") "2024-01-01T00:00:00"
                (fun _ _ => inr Result_default) no_org_env) as [_ Horg].
    destruct Horg as (_ & _ & Hmapping & _).
    + intros [H | H]; discriminate H.
    + split; reflexivity.
    + destruct Hmapping as [Hend _]; [reflexivity | exact Hend].
  - destruct (configuration_errors
                (fun _ => inr "2024-01-01T00:00:00") "2024-01-01T00:00:00"
                (fun _ _ => inr Result_default) empty_config_env) as [_ Horg].
    destruct Horg as (_ & _ & _ & Hother).
    + intros [H | H]; discriminate H.
    + split; reflexivity.
    + destruct Hother as [Hend _]; [reflexivity | exact Hend].
Defined.


(** * Further properties of the code *)

(** ** More on [graphql_paginate] *)

Section PaginateMore.
Context {St : Type}.
Variable graphql : St -> string -> dict -> result json * St.
Variable query : string.
Variable variables : dict.
Variable path : list string.

Local Abbreviation loop := (paginate_loop graphql query variables path).

Lemma requests_emit_run evs (r : @run St) :
  requests (emit evs r).1.1 = requests evs ++ requests r.1.1.
Proof. destruct r as [[tr out] st]. cbn. unfold requests. apply omap_app. Qed.

Lemma yields_emit_run evs (r : @run St) :
  yields (emit evs r).1.1 = yields evs ++ yields r.1.1.
Proof. destruct r as [[tr out] st]. cbn. unfold yields. apply omap_app. Qed.

Lemma sleeps_emit_run evs (r : @run St) :
  sleeps (emit evs r).1.1 = sleeps evs ++ sleeps r.1.1.
Proof. destruct r as [[tr out] st]. cbn. unfold sleeps. apply omap_app. Qed.

Lemma emit_outcome_run evs (r : @run St) : (emit evs r).1.2 = r.1.2.
Proof. by destruct r as [[tr out] st]. Qed.

Lemma paginate_loop_requests fuel st c h :
  Forall (fun req => ∃ c', req = request_for query variables c')
         (requests (loop fuel st c h).1.1).
Proof.
  revert st c h. induction fuel as [|fuel IH]; intros st c h; cbn;
    destruct (truthy h); cbn; try constructor.
  destruct (graphql st query _) as [[e|p] st1].
  - destruct (is_rate_limit e).
    + rewrite requests_emit_run. apply Forall_app. split; [|apply IH].
      repeat constructor. by exists c.
    + repeat constructor. by exists c.
  - destruct (navigate p path) as [e|data]; [repeat constructor; by exists c|].
    destruct (next_position data) as [e|[h' c']]; [repeat constructor; by exists c|].
    rewrite requests_emit_run. apply Forall_app. split; [|apply IH].
    repeat constructor. by exists c.
Qed.

Lemma next_position_end_cursor p data h c :
  navigate p path = inr data ->
  next_position data = inr (h, c) ->
  end_cursor path p = c.
Proof.
  intros Hnav. unfold end_cursor, next_position. rewrite Hnav.
  destruct data as [| | | | |conn]; try discriminate. cbn.
  destruct (dict_get "pageInfo" conn) as [[| | | | |info]|]; cbn;
    try discriminate.
  - intros [= _ <-]. by destruct (dict_get "endCursor" info).
  - by intros [= _ <-].
Qed.

Lemma split_one {A} (a x : A) tr1 tr2 :
  [a] = tr1 ++ x :: tr2 -> tr1 = [] ∧ x = a.
Proof.
  destruct tr1 as [|e tr1]; cbn; intros [= -> Hrest]; [done|].
  by destruct tr1.
Qed.

Lemma split_two {A} (a b x : A) l tr1 tr2 :
  a :: b :: l = tr1 ++ x :: tr2 ->
  (tr1 = [] ∧ x = a) ∨ (tr1 = [a] ∧ x = b)
  ∨ ∃ tr1', tr1 = a :: b :: tr1' ∧ l = tr1' ++ x :: tr2.
Proof.
  destruct tr1 as [|e1 [|e2 tr1]]; cbn.
  - intros [= -> _]. by left.
  - intros [= -> -> _]. right. by left.
  - intros [= -> -> ->]. right. right. by eexists.
Qed.

Lemma paginate_loop_request_cursor fuel :
  ∀ st c h tr1 q vars tr2,
    (loop fuel st c h).1.1 = tr1 ++ Request q vars :: tr2 ->
    q = query
    ∧ vars = dict_set "cursor"
                      (from_option (end_cursor path) c (last (yields tr1)))
                      variables.
Proof.
  induction fuel as [|fuel IH]; intros st c h tr1 q vars tr2; cbn [paginate_loop].
  - destruct (truthy h); cbn; intros Heq; by destruct tr1.
  - destruct (truthy h); [|cbn; intros Heq; by destruct tr1].
    destruct (graphql st query _) as [[e | p] st1].
    + destruct (is_rate_limit e).
      * destruct (loop fuel st1 c h) as [[tr out] st2] eqn:Hrest. cbn.
        intros [[-> [= -> ->]] | [[_ Heq] | (tr1' & -> & Heq)]]%split_two;
          [done | discriminate Heq |].
        change (yields (_ :: Sleep _ :: tr1')) with (yields tr1').
        apply (IH st1 c h tr1' q vars tr2). by rewrite Hrest.
      * cbn. by intros [-> [= -> ->]]%split_one.
    + destruct (navigate p path) as [e | data] eqn:Hnav.
      { cbn. by intros [-> [= -> ->]]%split_one. }
      destruct (next_position data) as [e | [h' c']] eqn:Hpos.
      { cbn. intros [[-> [= -> ->]] | [[_ Heq] | (tr1' & -> & Heq)]]%split_two;
          [done | discriminate Heq | by destruct tr1']. }
      destruct (loop fuel st1 c' h') as [[tr out] st2] eqn:Hrest. cbn.
      intros [[-> [= -> ->]] | [[_ Heq] | (tr1' & -> & Heq)]]%split_two;
        [done | discriminate Heq |].
      change (yields (_ :: Yield p :: tr1')) with (p :: yields tr1').
      destruct (IH st1 c' h' tr1' q vars tr2) as [-> ->];
        [by rewrite Hrest|].
      split; [done|]. rewrite last_cons.
      rewrite <- (next_position_end_cursor _ _ _ _ Hnav Hpos).
      by destruct (last (yields tr1')).
Qed.

(** X1. Every request of [graphql_paginate] is the caller's query with
    the caller's variables, except that ["cursor"] is bound by the
    client: to the [endCursor] of the last page yielded before the
    request, to null when no page has been yielded yet.  A ["cursor"]
    entry the caller passed is overridden, every other variable is
    passed on as it is. *)
Theorem requests_carry_cursor fuel st tr1 q vars tr2 :
  (graphql_paginate graphql query variables path fuel st).1.1
    = tr1 ++ Request q vars :: tr2 ->
  q = query
  ∧ dict_get "cursor" vars = Some (cursor_after path (yields tr1))
  ∧ ∀ key, key ≠ "cursor" -> dict_get key vars = dict_get key variables.
Proof.
  intros Hsplit.
  destruct (paginate_loop_request_cursor fuel st JNull (JBool true)
                                         tr1 q vars tr2 Hsplit) as [-> ->].
  split; [done|]. split.
  - rewrite dict_get_set_eq. unfold cursor_after.
    by destruct (last (yields tr1)).
  - intros key Hne. by apply dict_get_set_ne.
Qed.

(** X2. In any run of [graphql_paginate] every request is accounted
    for: it is followed by a sleep (rate limit) or by a page yielded,
    except for at most one last request, the one that raised; a run
    that finishes has made exactly as many requests as it slept and
    yielded. *)
Theorem requests_accounted fuel st :
  let run := graphql_paginate graphql query variables path fuel st in
  let r := length (requests run.1.1) in
  let y := length (yields run.1.1) in
  let s := length (sleeps run.1.1) in
  (y + s ≤ r)%nat ∧ (r ≤ y + s + 1)%nat
  ∧ (run.1.2 = Finished -> r = (y + s)%nat)
  ∧ ((r = y + s + 1)%nat -> ∃ e, run.1.2 = Raised e).
Proof.
  cbv zeta. unfold graphql_paginate.
  generalize JNull (JBool true). revert st.
  assert (Hstop : ∀ evs (out : outcome) (st : St),
             (length (yields evs) + length (sleeps evs) + 1
              = length (requests evs))%nat ->
             (∃ e, out = Raised e) ->
             let run : @run St := (evs, out, st) in
             (length (yields run.1.1) + length (sleeps run.1.1)
              ≤ length (requests run.1.1))%nat
             ∧ (length (requests run.1.1)
                ≤ length (yields run.1.1) + length (sleeps run.1.1) + 1)%nat
             ∧ (run.1.2 = Finished ->
                length (requests run.1.1)
                = (length (yields run.1.1) + length (sleeps run.1.1))%nat)
             ∧ (length (requests run.1.1)
                = (length (yields run.1.1) + length (sleeps run.1.1) + 1)%nat ->
                ∃ e, run.1.2 = Raised e)).
  { intros evs out st Hlen [e ->]. cbn. split_and!; try lia; [done | by eexists]. }
  assert (Hnone : ∀ (out : outcome) (st : St),
             out ≠ Finished ∨ True ->
             let run : @run St := ([], out, st) in
             (length (yields run.1.1) + length (sleeps run.1.1)
              ≤ length (requests run.1.1))%nat
             ∧ (length (requests run.1.1)
                ≤ length (yields run.1.1) + length (sleeps run.1.1) + 1)%nat
             ∧ (run.1.2 = Finished ->
                length (requests run.1.1)
                = (length (yields run.1.1) + length (sleeps run.1.1))%nat)
             ∧ (length (requests run.1.1)
                = (length (yields run.1.1) + length (sleeps run.1.1) + 1)%nat ->
                ∃ e, run.1.2 = Raised e)).
  { intros out st _. cbn. split_and!; vm_compute; try lia; try done;
      intros Hr; lia. }
  assert (Hmore : ∀ evs (r : @run St),
             (length (yields evs) + length (sleeps evs)
              = length (requests evs))%nat ->
             (length (yields r.1.1) + length (sleeps r.1.1)
              ≤ length (requests r.1.1))%nat
             ∧ (length (requests r.1.1)
                ≤ length (yields r.1.1) + length (sleeps r.1.1) + 1)%nat
             ∧ (r.1.2 = Finished ->
                length (requests r.1.1)
                = (length (yields r.1.1) + length (sleeps r.1.1))%nat)
             ∧ (length (requests r.1.1)
                = (length (yields r.1.1) + length (sleeps r.1.1) + 1)%nat ->
                ∃ e, r.1.2 = Raised e) ->
             let run := emit evs r in
             (length (yields run.1.1) + length (sleeps run.1.1)
              ≤ length (requests run.1.1))%nat
             ∧ (length (requests run.1.1)
                ≤ length (yields run.1.1) + length (sleeps run.1.1) + 1)%nat
             ∧ (run.1.2 = Finished ->
                length (requests run.1.1)
                = (length (yields run.1.1) + length (sleeps run.1.1))%nat)
             ∧ (length (requests run.1.1)
                = (length (yields run.1.1) + length (sleeps run.1.1) + 1)%nat ->
                ∃ e, run.1.2 = Raised e)).
  { intros evs r Hlen (H1 & H2 & H3 & H4). cbv zeta.
    rewrite requests_emit_run, yields_emit_run, sleeps_emit_run,
      emit_outcome_run, !length_app.
    split_and!; try lia.
    - intros Hf. specialize (H3 Hf). lia.
    - intros Hr. apply H4. lia. }
  induction fuel as [|fuel IH]; intros st c h; cbn;
    destruct (truthy h); try (apply Hnone; by right).
  destruct (graphql st query _) as [[e|p] st1].
  - destruct (is_rate_limit e).
    + apply Hmore; [reflexivity | apply IH].
    + apply Hstop; [reflexivity | by eexists].
  - destruct (navigate p path) as [e|data];
      [apply Hstop; [reflexivity | by eexists]|].
    destruct (next_position data) as [e|[h' c']].
    + cbn. split_and!; try done; vm_compute; lia.
    + apply Hmore; [reflexivity | apply IH].
Qed.

(** X3. There is no cap on the rate-limit retries: against a provider
    that refuses every request, the client never yields, never raises
    and never finishes; after [n] iterations it has issued the same
    first request [n] times and slept [n] cooldowns. *)
Theorem rate_limit_without_end fuel st :
  (∀ st' q vars, (graphql st' q vars).1 = inl RateLimitExceededException) ->
  let run := graphql_paginate graphql query variables path fuel st in
  run.1.2 = OutOfFuel
  ∧ yields run.1.1 = []
  ∧ requests run.1.1 = replicate fuel (request_for query variables JNull)
  ∧ sleeps run.1.1 = replicate fuel RATE_LIMIT_SLEEP_SECONDS.
Proof.
  intros Hprov. cbv zeta. unfold graphql_paginate. revert st.
  induction fuel as [|fuel IH]; intros st; cbn; [done|].
  pose proof (Hprov st query (dict_set "cursor" JNull variables)) as Hst.
  destruct (graphql st query _) as [r st1]. cbn in Hst. subst r. cbn.
  rewrite requests_emit_run, yields_emit_run, sleeps_emit_run, emit_outcome_run.
  destruct (IH st1) as (-> & -> & -> & ->). done.
Qed.

(** X4. What a malformed first page does.  When the path to the
    connection cannot be followed in it, the page is not yielded and
    the exception of the failed subscript ends the stream; when the
    connection is there but its pagination metadata cannot be read
    (the connection or its [pageInfo] is not a dict), the page has
    been yielded already when [AttributeError] ends the stream. *)
Theorem malformed_first_page fuel st p st' :
  graphql st query (dict_set "cursor" JNull variables) = (inr p, st') ->
  let run := graphql_paginate graphql query variables path (S fuel) st in
  (∀ e, navigate p path = inl e ->
        run = ([Request query (dict_set "cursor" JNull variables)],
               Raised e, st'))
  ∧ (∀ data, navigate p path = inr data ->
             (match data with
              | JObj conn =>
                  match dict_get "pageInfo" conn with
                  | Some (JObj _) | None => False
                  | Some _ => True
                  end
              | _ => True
              end) ->
             run = ([Request query (dict_set "cursor" JNull variables); Yield p],
                    Raised AttributeError, st')).
Proof.
  intros Hreq. cbv zeta. unfold graphql_paginate. cbn. rewrite Hreq. split.
  - intros e ->. reflexivity.
  - intros data -> Hbad.
    assert (next_position data = inl AttributeError) as ->; [|done].
    unfold next_position.
    destruct data as [| | | | |conn]; try reflexivity. cbn.
    destruct (dict_get "pageInfo" conn) as [[| | | | |info]|]; try done.
Qed.
End PaginateMore.

Lemma rate_limit_without_end_witness :
  (graphql_paginate exhausted_provider "q" [] ["organization"] 3 tt).1.2
  = OutOfFuel.
Proof.
  destruct (rate_limit_without_end exhausted_provider "q" []
                                   ["organization"] 3 tt) as [Hout _].
  - reflexivity.
  - exact Hout.
Defined.

Lemma malformed_first_page_witness :
  graphql_paginate (one_page_provider (JObj [("organization", JNull)])) "q" []
                   ["organization"; "repositories"] 1 tt
  = ([Request "q" [("cursor", JNull)]], Raised TypeError, tt).
Proof.
  destruct (malformed_first_page
              (one_page_provider (JObj [("organization", JNull)])) "q" []
              ["organization"; "repositories"] 0 tt
              (JObj [("organization", JNull)]) tt eq_refl) as [Hnav _].
  apply Hnav. reflexivity.
Defined.

Lemma requests_carry_cursor_witness :
  dict_get "cursor" [("cursor", JStr "c1"); ("organization", JStr "org")]
  = Some (cursor_after ["organization"; "repositories"]
                       [repositories_page ["a"; "b"] (Some (true, JStr "c1"))])
  ∧ dict_get "cursor" [("cursor", JNull); ("organization", JStr "org")]
    = Some (cursor_after ["organization"; "repositories"] []).
Proof.
  split.
  - destruct (requests_carry_cursor
                two_page_stub "q"
                [("cursor", JStr "mine"); ("organization", JStr "org")]
                ["organization"; "repositories"] 2 tt
                [Request "q" [("cursor", JNull); ("organization", JStr "org")];
                 Yield (repositories_page ["a"; "b"] (Some (true, JStr "c1")))]
                "q" [("cursor", JStr "c1"); ("organization", JStr "org")]
                [Yield (repositories_page ["c"] None)] eq_refl)
      as (_ & Hcursor & _).
    exact Hcursor.
  - destruct (requests_carry_cursor
                two_page_stub "q"
                [("cursor", JStr "mine"); ("organization", JStr "org")]
                ["organization"; "repositories"] 2 tt
                [] "q" [("cursor", JNull); ("organization", JStr "org")]
                [Yield (repositories_page ["a"; "b"] (Some (true, JStr "c1")));
                 Request "q" [("cursor", JStr "c1"); ("organization", JStr "org")];
                 Yield (repositories_page ["c"] None)] eq_refl)
      as (_ & Hcursor & _).
    exact Hcursor.
Defined.

Lemma requests_accounted_witness :
  ∃ e, (graphql_paginate (one_page_provider (JObj [("organization", JNull)]))
                         "q" [] ["organization"; "repositories"] 1 tt).1.2
       = Raised e.
Proof.
  destruct (requests_accounted
              (one_page_provider (JObj [("organization", JNull)])) "q" []
              ["organization"; "repositories"] 1 tt) as (_ & _ & _ & Hraised).
  apply Hraised. reflexivity.
Defined.

(** ** More on the contributor poller *)

Lemma gets_snoc_get tr u status data :
  gets (tr ++ [Get u status data]) = gets tr ++ [u].
Proof. unfold gets. by rewrite omap_app. Qed.

Lemma gets_snoc_wait tr s : gets (tr ++ [Wait s]) = gets tr.
Proof. unfold gets. rewrite omap_app. cbn. by rewrite app_nil_r. Qed.

Section PollerMore.
Variable json_loads : string -> result json.
Context {St : Type}.
Variable requestJson : St -> string -> string -> option (Z * option string) * St.
Variable org : string.

Lemma requests_all_gets todo (p p' : poller St) :
  requests_all org todo p p' ->
  gets (log p') = gets (log p) ++ map (contributors_url org) todo
  ∧ (length (pending_repos p') ≤ length (pending_repos p) + length todo)%nat
  ∧ (∀ x, x ∈ pending_repos p' -> x ∈ pending_repos p ∨ x ∈ todo).
Proof.
  induction 1 as [p | x todo p p1 p' Hreq _ (IHg & IHl & IHin)].
  - rewrite app_nil_r. split_and!; [done | cbn; lia | auto].
  - destruct Hreq as (status & data & Hlog & Hcase).
    rewrite IHg, Hlog, gets_snoc_get, <- app_assoc. cbn.
    destruct Hcase as [(_ & _ & Hp) | (_ & Hp & _)]; rewrite Hp in *.
    + rewrite length_app in IHl. cbn in IHl. split_and!; [done | lia |].
      intros y Hy. destruct (IHin y Hy) as [Hy' | Hy'].
      * apply elem_of_app in Hy' as [? | ->%list_elem_of_singleton];
          [by left | right; by left].
      * right. by right.
    + split_and!; [done | lia |].
      intros y Hy. destruct (IHin y Hy) as [Hy' | Hy']; [by left|].
      right. by right.
Qed.

Lemma retry_loop_gets remaining :
  ∀ (p : poller St),
    let p' := retry_loop requestJson remaining org p in
    (length (gets (log p'))
     ≤ length (gets (log p)) + remaining * length (pending_repos p))%nat
    ∧ (length (gets (log p)) ≤ length (gets (log p')))%nat
    ∧ (length (pending_repos p') ≤ length (pending_repos p))%nat
    ∧ (∀ u, u ∈ gets (log p') ->
            u ∈ gets (log p)
            ∨ ∃ x, x ∈ pending_repos p ∧ u = contributors_url org x)
    ∧ (∀ x, x ∈ pending_repos p' -> x ∈ pending_repos p).
Proof.
  induction remaining as [|remaining IH]; intros p; cbn.
  - destruct (pending_repos p) eqn:Hpend; rewrite ?Hpend;
      split_and!; try lia; try done; intros; by left.
  - destruct (pending_repos p) as [|x todo] eqn:Hpend.
    { rewrite Hpend. split_and!; try lia; try done; intros; by left. }
    pose proof (retry_pass_requests_all requestJson org p) as Hall.
    apply requests_all_gets in Hall as (Hg & Hl & Hin).
    destruct (IH (retry_pass requestJson org p))
      as (IHg & IHm & IHl & IHu & IHin).
    cbn [start_pass log pending_repos] in Hg, Hl, Hin.
    rewrite gets_snoc_wait, Hpend in Hg. rewrite Hpend in Hl, Hin.
    cbn [length] in Hl.
    rewrite Hg, length_app, length_map in IHg, IHm.
    cbn [length] in IHg, IHm |- *.
    split_and!.
    + nia.
    + lia.
    + lia.
    + intros u Hu. destruct (IHu u Hu) as [Hu' | (y & Hy & ->)].
      * rewrite Hg in Hu'. apply elem_of_app in Hu' as [? | Hu']; [by left|].
        right. apply list_elem_of_fmap in Hu' as (y & -> & Hy). by exists y.
      * right. exists y. split; [|done].
        destruct (Hin y Hy) as [Hnil | ?]; [by apply elem_of_nil in Hnil | done].
    + intros y Hy. apply IHin in Hy.
      destruct (Hin y Hy) as [Hnil | ?]; [by apply elem_of_nil in Hnil | done].
Qed.

Lemma times_app x l1 l2 : times x (l1 ++ l2) = (times x l1 + times x l2)%nat.
Proof. apply count_occ_app. Qed.

Lemma times_urls x l :
  times (contributors_url org x) (map (contributors_url org) l) = times x l.
Proof.
  unfold times. induction l as [|y l IH]; [done|]. cbn.
  destruct (string_dec y x) as [-> | Hne].
  - by rewrite IH; destruct (string_dec _ _).
  - destruct (string_dec _ _) as [Heq | _]; [|done].
    by apply contributors_url_inj in Heq.
Qed.

Lemma requests_all_kept todo (p p' : poller St) :
  requests_all org todo p p' ->
  ∃ kept, pending_repos p' = pending_repos p ++ kept
          ∧ ∀ x, (times x kept ≤ times x todo)%nat.
Proof.
  induction 1 as [p | y todo p p1 p' Hreq _ (kept & Hp' & Hkept)].
  - exists []. by rewrite app_nil_r.
  - destruct Hreq as (status & data & _ & [(_ & _ & Hp) | (_ & Hp & _)]);
      rewrite Hp in Hp'.
    + exists (y :: kept). rewrite <- app_assoc in Hp'. split; [done|].
      intros x. specialize (Hkept x). unfold times in *. cbn.
      destruct (string_dec y x); lia.
    + exists kept. split; [done|].
      intros x. specialize (Hkept x). unfold times in *. cbn.
      destruct (string_dec y x); lia.
Qed.

Lemma retry_loop_asked remaining x :
  ∀ (p : poller St),
    let p' := retry_loop requestJson remaining org p in
    (asked org x (log p) ≤ asked org x (log p'))%nat
    ∧ (asked org x (log p')
       ≤ asked org x (log p) + remaining * times x (pending_repos p))%nat.
Proof.
  induction remaining as [|remaining IH]; intros p; cbn zeta; cbn [retry_loop].
  - destruct (pending_repos p); lia.
  - destruct (pending_repos p) as [|y todo] eqn:Hpend; [lia|].
    pose proof (retry_pass_requests_all requestJson org p) as Hall.
    pose proof (requests_all_gets _ _ _ Hall) as (Hg & _).
    destruct (requests_all_kept _ _ _ Hall) as (kept & Hp1 & Hkept).
    cbn [start_pass log pending_repos app] in Hg, Hp1.
    rewrite gets_snoc_wait, Hpend in Hg.
    destruct (IH (retry_pass requestJson org p)) as [IHlo IHhi].
    unfold asked in *. rewrite Hg, times_app, times_urls in IHlo, IHhi.
    rewrite Hp1 in IHhi. specialize (Hkept x). rewrite Hpend in Hkept.
    split; [lia | nia].
Qed.

(** X5. The poller's request budget, repository by repository: a
    repository that occurs [n] times in the input is asked for at
    least [n] times and at most [n * (1 + MAX_CONTRIBUTOR_RETRIES)]
    times, so a repository of a list of distinct names is asked for at
    least once and at most [1 + MAX_CONTRIBUTOR_RETRIES] times; nothing
    else is asked for. *)
Theorem poller_request_budget (st : St) repos :
  json_bodies json_loads requestJson ->
  ∃ m tr st',
    _fetch_all_contributors json_loads requestJson st org repos
      = inr (m, tr, st')
    ∧ (length repos ≤ length (gets tr))%nat
    ∧ (length (gets tr) ≤ length repos * (1 + MAX_CONTRIBUTOR_RETRIES))%nat
    ∧ (∀ u, u ∈ gets tr -> ∃ x, x ∈ repos ∧ u = contributors_url org x)
    ∧ (∀ x, times x repos ≤ asked org x tr
                          ≤ times x repos * (1 + MAX_CONTRIBUTOR_RETRIES))%nat
    ∧ (NoDup repos ->
       ∀ x, x ∈ repos ->
            (1 ≤ asked org x tr ≤ 1 + MAX_CONTRIBUTOR_RETRIES)%nat).
Proof.
  intros Hbodies. unfold _fetch_all_contributors.
  destruct (first_pass_requests_all json_loads requestJson org repos
              {| contributors_map := ∅; pending_repos := [];
                 log := []; requester := st |} Hbodies) as (p1 & -> & Hall).
  cbn [bind ret]. eexists _, _, _. split; [reflexivity|].
  destruct (requests_all_kept _ _ _ Hall) as (kept & Hp1 & Hkept).
  apply requests_all_gets in Hall as (Hg & Hl & Hin).
  cbn [log pending_repos app] in Hg, Hl, Hin, Hp1.
  change (gets []) with (@nil string) in Hg. cbn [app length] in Hg, Hl.
  destruct (retry_loop_gets MAX_CONTRIBUTOR_RETRIES p1) as (Lg & Lm & _ & Lu & _).
  cbn [time_out log]. rewrite Hg, length_map in Lg, Lm.
  assert (Hper : ∀ x, (times x repos
                       ≤ asked org x
                               (log (retry_loop requestJson
                                                MAX_CONTRIBUTOR_RETRIES org p1))
                       ≤ times x repos * (1 + MAX_CONTRIBUTOR_RETRIES))%nat).
  { intros x.
    destruct (retry_loop_asked MAX_CONTRIBUTOR_RETRIES x p1) as [Hlo Hhi].
    unfold asked in *. rewrite Hg, times_urls, Hp1 in *.
    specialize (Hkept x). split; [lia | nia]. }
  split_and!.
  - lia.
  - nia.
  - intros u Hu. destruct (Lu u Hu) as [Hu' | (x & Hx & ->)].
    + rewrite Hg in Hu'. apply list_elem_of_fmap in Hu' as (x & -> & Hx).
      by exists x.
    + exists x. split; [|done].
      destruct (Hin x Hx) as [Hnil | ?]; [by apply elem_of_nil in Hnil | done].
  - exact Hper.
  - intros Hnd x Hx. specialize (Hper x).
    assert (times x repos = 1%nat) as Hone.
    { unfold times. apply NoDup_count_occ'; [|by apply list_elem_of_In].
      by apply NoDup_ListNoDup. }
    rewrite Hone in Hper. lia.
Qed.
End PollerMore.

Section PollerStraight.
Variable json_loads : string -> result json.
Context {St : Type}.
Variable requestJson : St -> string -> string -> option (Z * option string) * St.
Variable org : string.

Lemma retry_loop_nothing_pending remaining (p : poller St) :
  pending_repos p = [] -> retry_loop requestJson remaining org p = p.
Proof. intros Hp. destruct remaining; cbn; by rewrite Hp. Qed.

Lemma time_out_nothing_pending (p : poller St) :
  pending_repos p = [] -> time_out p = p.
Proof. intros Hp. unfold time_out. destruct p; cbn in *. by subst. Qed.

Lemma first_request_settles (p : poller St) x :
  json_bodies json_loads requestJson ->
  never_pending requestJson ->
  ∃ p', first_request json_loads requestJson org p x = inr p'
        ∧ pending_repos p' = pending_repos p
        ∧ ∃ status data,
            log p' = log p ++ [Get (contributors_url org x) status data].
Proof.
  intros Hbodies Hnever. unfold first_request, rest_request.
  destruct (requestJson (requester p) "GET" _) as [[[status data]|] st'] eqn:Hreq.
  2:{ cbn. eexists. split; [reflexivity|]. split; [done | by eexists _, _]. }
  pose proof (Hnever _ _ _ _ _ _ Hreq) as Hstatus.
  apply Z.eqb_neq in Hstatus.
  assert (Hdict : ∃ data_dict,
             match data with
             | Some s => if has_data data then json_loads s else ret JNull
             | None => ret JNull
             end = inr data_dict
             ∧ (truthy data_dict = true -> ∃ n, py_len data_dict = inr n)).
  { destruct data as [body|]; [|by exists JNull].
    destruct (has_data (Some body)) eqn:Hd; [|by exists JNull].
    destruct (Hbodies _ _ _ _ _ _ Hreq) as [-> | [[l Hl] | [l Hl]]];
      [discriminate | |]; rewrite Hl; eexists; (split; [done|]);
      cbn; eauto. }
  destruct Hdict as (data_dict & -> & Hlen). cbn [bind]. rewrite Hstatus.
  destruct ((status =? HTTP_OK) && truthy data_dict) eqn:Hok.
  - apply andb_true_iff in Hok as [_ Ht]. destruct (Hlen Ht) as [n ->]. cbn.
    eexists. split; [reflexivity|]. split; [done | by eexists _, _].
  - cbn. eexists. split; [reflexivity|]. split; [done | by eexists _, _].
Qed.

Lemma first_pass_settles repos :
  json_bodies json_loads requestJson ->
  never_pending requestJson ->
  ∀ (p : poller St),
  ∃ p', first_pass json_loads requestJson org p repos = inr p'
        ∧ pending_repos p' = pending_repos p
        ∧ gets (log p') = gets (log p) ++ map (contributors_url org) repos
        ∧ waits (log p') = waits (log p).
Proof.
  intros Hbodies Hnever. induction repos as [|x repos IH]; intros p; cbn.
  - exists p. by rewrite app_nil_r.
  - destruct (first_request_settles p x Hbodies Hnever)
      as (p1 & -> & Hp1 & status & data & Hlog).
    cbn. destruct (IH p1) as (p' & -> & Hp' & Hg & Hw).
    exists p'. split; [done|]. split; [congruence|].
    rewrite Hg, Hw, Hlog, gets_snoc_get, waits_snoc_get, <- app_assoc. done.
Qed.

(** X6. With a requester that never answers 202, the poller makes
    exactly one request per repository, in the order of its input, and
    never sleeps. *)
Theorem poller_without_pending (st : St) repos :
  json_bodies json_loads requestJson ->
  never_pending requestJson ->
  ∃ m tr st',
    _fetch_all_contributors json_loads requestJson st org repos
      = inr (m, tr, st')
    ∧ gets tr = map (contributors_url org) repos
    ∧ waits tr = [].
Proof.
  intros Hbodies Hnever. unfold _fetch_all_contributors.
  destruct (first_pass_settles repos Hbodies Hnever
              {| contributors_map := ∅; pending_repos := [];
                 log := []; requester := st |}) as (p1 & -> & Hp & Hg & Hw).
  cbn [bind ret pending_repos log] in *.
  rewrite retry_loop_nothing_pending, time_out_nothing_pending by done.
  by eexists _, _, _.
Qed.

Lemma first_pass_failing repos :
  (∀ st method url, (requestJson st method url).1 = None) ->
  ∀ (p : poller St),
  ∃ p', first_pass json_loads requestJson org p repos = inr p'
        ∧ pending_repos p' = pending_repos p
        ∧ (∀ r, contributors_map p' !! r
                = if decide (r ∈ repos) then Some 0
                  else contributors_map p !! r)
        ∧ log p'
          = log p ++ map (fun x => Get (contributors_url org x)
                                       HTTP_INTERNAL_SERVER_ERROR None) repos.
Proof.
  intros Hfail. induction repos as [|x repos IH]; intros p.
  - exists p. rewrite app_nil_r. by split_and!.
  - cbn [first_pass]. unfold first_request at 1, rest_request.
    pose proof (Hfail (requester p) "GET" (contributors_url org x)) as Hnone.
    destruct (requestJson (requester p) "GET" _) as [answer st1].
    cbn in Hnone. subst answer. cbn.
    match goal with
    | |- ∃ p', first_pass _ _ _ ?q _ = _ ∧ _ => destruct (IH q) as (p' & -> & Hp & Hm & Hl)
    end.
    cbn in Hp, Hm, Hl. exists p'. split_and!; try done.
    + intros r. rewrite Hm.
      destruct (decide (r ∈ repos)) as [Hin | Hnin].
      * rewrite decide_True; [done | by right].
      * destruct (decide (x = r)) as [-> | Hne].
        -- rewrite lookup_insert_eq, decide_True; [done | by left].
        -- rewrite lookup_insert_ne by done.
           rewrite decide_False; [done|].
           rewrite elem_of_cons. intros [?|?]; congruence.
    + rewrite Hl, <- app_assoc. done.
Qed.

(** X7. When every request raises [GithubException], the poller does
    not raise: [rest_request] turns each failure into status 500 with
    no body, every repository of the input maps to 0 after its one
    request, and there is no sleep. *)
Theorem poller_with_failing_requester (st : St) repos :
  (∀ st method url, (requestJson st method url).1 = None) ->
  ∃ m tr st',
    _fetch_all_contributors json_loads requestJson st org repos
      = inr (m, tr, st')
    ∧ (∀ r, m !! r = if decide (r ∈ repos) then Some 0 else None)
    ∧ tr = map (fun x => Get (contributors_url org x)
                             HTTP_INTERNAL_SERVER_ERROR None) repos.
Proof.
  intros Hfail. unfold _fetch_all_contributors.
  destruct (first_pass_failing repos Hfail
              {| contributors_map := ∅; pending_repos := [];
                 log := []; requester := st |}) as (p1 & -> & Hp & Hm & Hl).
  cbn [bind ret pending_repos log contributors_map] in *.
  rewrite retry_loop_nothing_pending, time_out_nothing_pending by done.
  eexists _, _, _. split; [reflexivity|]. split; [|done].
  intros r. rewrite Hm. by rewrite lookup_empty.
Qed.
End PollerStraight.

Lemma poller_request_budget_witness :
  ∃ m tr st',
    scenario_run = inr (m, tr, st')
    ∧ (1 ≤ asked "org" "c" tr ≤ 1 + MAX_CONTRIBUTOR_RETRIES)%nat.
Proof.
  destruct (poller_request_budget
              JsonText.loads
              (scenario_requester "org" "a" "b" "c" "[{}, {}, {}]" "[{}, {}]")
              "org" 0%nat ["a"; "b"; "c"] scenario_json_bodies)
    as (m & tr & st' & Hrun & _ & _ & _ & _ & Hone).
  exists m, tr, st'. split; [exact Hrun|].
  apply Hone.
  - repeat (apply NoDup_cons; split;
            [intros Hin;
             repeat (apply elem_of_cons in Hin as [Heq | Hin];
                     [discriminate Heq|]);
             by apply elem_of_nil in Hin|]).
    apply NoDup_nil. done.
  - right. right. by left.
Defined.

Lemma poller_with_failing_requester_witness :
  ∃ m tr st',
    _fetch_all_contributors JsonText.loads failing_requester tt "org" ["a"; "b"]
      = inr (m, tr, st')
    ∧ m !! "a" = Some 0.
Proof.
  destruct (poller_with_failing_requester
              JsonText.loads failing_requester "org" tt ["a"; "b"])
    as (m & tr & st' & Hrun & Hm & _).
  - reflexivity.
  - exists m, tr, st'. split; [exact Hrun|]. by rewrite Hm.
Defined.

Lemma failing_requester_checks :
  json_bodies JsonText.loads failing_requester ∧ never_pending failing_requester.
Proof. split; intros ? ? ? ? ? ? H; discriminate H. Qed.

Lemma ready_requester_checks :
  json_bodies JsonText.loads ready_requester ∧ never_pending ready_requester.
Proof.
  split; intros st method url status body st' Hreq;
    unfold ready_requester in Hreq; injection Hreq as <- <-.
  - right. left. eexists. vm_compute. reflexivity.
  - discriminate.
Qed.

Lemma poller_without_pending_witness :
  ∃ m tr st',
    _fetch_all_contributors JsonText.loads ready_requester tt "org" ["a"; "b"]
      = inr (m, tr, st')
    ∧ gets tr = [contributors_url "org" "a"; contributors_url "org" "b"]
    ∧ waits tr = [].
Proof.
  destruct ready_requester_checks as [Hbodies Hnever].
  destruct (poller_without_pending
              JsonText.loads ready_requester "org" tt ["a"; "b"]
              Hbodies Hnever)
    as (m & tr & st' & Hrun & Hg & Hw).
  exists m, tr, st'. split_and!; [exact Hrun | exact Hg | exact Hw].
Defined.

(** ** Repository discovery, beyond one node *)

Lemma select_repo_cache file c config repo kept c' :
  select_repo file c config repo = inr (kept, c') ->
  (load_excluded_repos file c').1 = (load_excluded_repos file c).1.
Proof.
  assert (Hstable := load_excluded_repos_stable file c).
  unfold select_repo, should_exclude_repo, get_method, subscript, bind, ret, raise.
  destruct (load_excluded_repos file c) as [ex c1] eqn:Hload. cbn [snd] in Hstable.
  intros Hrun.
  assert (c' = c ∨ c' = c1) as [-> | ->].
  { repeat case_match; simplify_eq; auto. }
  - by rewrite Hload.
  - by rewrite Hstable.
Qed.

Lemma select_repo_verdict file c config repo kept c' :
  select_repo file c config repo = inr (kept, c') ->
  (kept = Some repo ∧ passes_policy (load_excluded_repos file c).1 config repo)
  ∨ (kept = None ∧ ¬ passes_policy (load_excluded_repos file c).1 config repo).
Proof.
  intros Hrun.
  destruct repo as [| b | n | s | items | fields].
  1-5: right; split;
    [ unfold select_repo, get_method, bind, raise, ret in Hrun; by simplify_eq
    | by intros (fields & name & ? & _) ].
  destruct (dict_get "name" fields) as [[| | | name | |]|] eqn:Hname.
  4:{ destruct (select_repo_decision file c config fields name Hname)
        as (kept' & c'' & Hrun' & Hkept & Hiff).
      rewrite Hrun in Hrun'. simplify_eq.
      destruct Hkept as [-> | ->].
      - right. split; [done|]. intros (fields' & name' & ? & Hname' & Hnot).
        simplify_eq. apply Hnot. by apply Hiff.
      - left. split; [done|]. exists fields, name. split_and!; try done.
        intros Hex. by apply Hiff in Hex. }
  all: right; split;
    [ unfold select_repo, get_method, subscript, bind, ret, raise in Hrun;
      rewrite Hname in Hrun; repeat case_match; by simplify_eq
    | intros (fields' & name' & ? & Hname' & _); simplify_eq ].
Qed.

Lemma select_repos_kept file config nodes :
  ∀ c all_repos out c',
  select_repos file c config nodes all_repos = inr (out, c') ->
  (load_excluded_repos file c').1 = (load_excluded_repos file c).1
  ∧ ∃ kept,
      out = all_repos ++ kept
      ∧ kept = List.filter (fun repo =>
                 match select_repo file c config repo with
                 | inr (Some _, _) => true
                 | _ => false
                 end) nodes
      ∧ ∀ repo, repo ∈ kept
                ↔ repo ∈ nodes
                  ∧ passes_policy (load_excluded_repos file c).1 config repo.
Proof.
  induction nodes as [|repo nodes IH]; intros c all_repos out c' Hrun.
  - cbn in Hrun. unfold ret in Hrun. simplify_eq. split; [done|]. exists [].
    rewrite app_nil_r. split_and!; try done.
    intros repo. split; [by intros ?%elem_of_nil | by intros [?%elem_of_nil _]].
  - cbn [select_repos] in Hrun.
    destruct (select_repo file c config repo) as [e | [k c1]] eqn:Hone;
      [discriminate|].
    cbn [bind fst snd] in Hrun.
    pose proof (select_repo_cache _ _ _ _ _ _ Hone) as Hcache.
    pose proof (select_repo_verdict _ _ _ _ _ _ Hone) as Hverdict.
    destruct (IH _ _ _ _ Hrun) as (Hc' & kept & -> & Hfilter & Hkept).
    split; [congruence|].
    assert (Hsame : List.filter (fun repo0 =>
                 match select_repo file c1 config repo0 with
                 | inr (Some _, _) => true
                 | _ => false
                 end) nodes
              = List.filter (fun repo0 =>
                 match select_repo file c config repo0 with
                 | inr (Some _, _) => true
                 | _ => false
                 end) nodes).
    { apply filter_ext_in. intros r _.
      destruct (select_repo file c1 config r) as [e1 | [k1 c2]] eqn:H1,
               (select_repo file c config r) as [e2 | [k2 c3]] eqn:H2.
      - done.
      - exfalso. revert H1 H2. clear.
        unfold select_repo, should_exclude_repo, get_method, subscript,
          bind, ret, raise.
        destruct (load_excluded_repos file c1), (load_excluded_repos file c).
        repeat case_match; intros; simplify_eq.
      - exfalso. revert H1 H2. clear.
        unfold select_repo, should_exclude_repo, get_method, subscript,
          bind, ret, raise.
        destruct (load_excluded_repos file c1), (load_excluded_repos file c).
        repeat case_match; intros; simplify_eq.
      - apply select_repo_verdict in H1, H2. rewrite Hcache in H1.
        destruct H1 as [[-> ?] | [-> ?]], H2 as [[-> ?] | [-> ?]]; done. }
    rewrite Hcache in Hkept. rewrite Hsame in Hfilter.
    destruct Hverdict as [[-> Hpass] | [-> Hfail]].
    + exists (repo :: kept). rewrite <- app_assoc. split; [done|]. split.
      * cbn. rewrite Hone. by f_equal.
      * intros r. rewrite !elem_of_cons, Hkept. split.
        -- intros [-> | [? ?]]; auto.
        -- intros [[-> | ?] ?]; auto.
    + exists kept. split; [done|]. split.
      * cbn. by rewrite Hone.
      * intros r. rewrite elem_of_cons, Hkept. split.
        -- intros [? ?]; auto.
        -- intros [[-> | ?] ?]; [done | auto].
Qed.

Lemma filter_sublist_of {A} (f : A -> bool) (l : list A) :
  List.filter f l `sublist_of` l.
Proof.
  induction l as [|x l IH]; cbn; [done|].
  destruct (f x); by constructor.
Qed.

(** X8. Whatever the state of the cache, a run of the discovery loop
    over the nodes of one page that does not raise appends to
    [all_repos], in the order of the page, exactly the nodes that are
    dicts with a string name that the policy keeps, judged against the
    exclusion list as the first call of the process read it; what was
    collected before is left as it was. *)
Theorem select_repos_policy file c config nodes all_repos out c' :
  select_repos file c config nodes all_repos = inr (out, c') ->
  ∃ kept,
    out = all_repos ++ kept
    ∧ kept `sublist_of` nodes
    ∧ (∀ repo, repo ∈ kept
               ↔ repo ∈ nodes
                 ∧ passes_policy (load_excluded_repos file c).1 config repo)
    ∧ (load_excluded_repos file c').1 = (load_excluded_repos file c).1.
Proof.
  intros Hrun.
  destruct (select_repos_kept _ _ _ _ _ _ _ Hrun)
    as (Hcache & kept & -> & Hfilter & Hkept).
  exists kept. split_and!; try done.
  rewrite Hfilter. apply filter_sublist_of.
Qed.

Lemma select_repos_policy_witness :
  ∃ kept,
    [JObj [("name", JStr "a")]] = [] ++ kept
    ∧ kept `sublist_of` [JNull; JObj [("name", JStr "a")];
                         JObj [("name", JStr "slides-x")]].
Proof.
  destruct (select_repos_policy
              None None default_config
              [JNull; JObj [("name", JStr "a")];
               JObj [("name", JStr "slides-x")]] []
              [JObj [("name", JStr "a")]] (Some []) eq_refl)
    as (kept & Hout & Hsub & _).
  exists kept. by split.
Defined.

Lemma select_pages_kept file config pages :
  ∀ c all_repos out c',
  select_pages file c config pages all_repos = inr (out, c') ->
  (load_excluded_repos file c').1 = (load_excluded_repos file c).1
  ∧ ∃ kept,
      out = all_repos ++ kept
      ∧ ∀ repo, repo ∈ kept
                ↔ node_of pages repo
                  ∧ passes_policy (load_excluded_repos file c).1 config repo.
Proof.
  induction pages as [|page pages IH]; intros c all_repos out c' Hrun.
  - cbn in Hrun. unfold ret in Hrun. simplify_eq. split; [done|]. exists [].
    rewrite app_nil_r. split; [done|]. intros repo. split.
    + by intros ?%elem_of_nil.
    + by intros [(page & items & ?%elem_of_nil & _) _].
  - cbn [select_pages] in Hrun.
    destruct (page_items page) as [e | items] eqn:Hitems.
    { unfold page_items in Hitems.
      destruct (navigate page _) as [e1 | nodes]; cbn [bind] in *;
        [discriminate|].
      destruct (py_iter nodes); cbn [bind] in *; discriminate. }
    assert (Hstep : ∃ r, select_repos file c config items all_repos = inr r
                         ∧ select_pages file r.2 config pages r.1 = inr (out, c')).
    { unfold page_items in Hitems.
      destruct (navigate page _) as [e1 | nodes]; cbn [bind] in *;
        [discriminate|].
      destruct (py_iter nodes) as [e2 | items']; cbn [bind] in *;
        [discriminate|]. simplify_eq.
      destruct (select_repos file c config items all_repos) as [e3 | r];
        cbn [bind] in *; [discriminate|]. by exists r. }
    destruct Hstep as ([mid c1] & Hone & Hrest). cbn [fst snd] in Hrest.
    destruct (select_repos_kept _ _ _ _ _ _ _ Hone)
      as (Hc1 & kept1 & -> & _ & Hkept1).
    destruct (IH _ _ _ _ Hrest) as (Hc' & kept2 & -> & Hkept2).
    split; [congruence|]. exists (kept1 ++ kept2).
    rewrite app_assoc. split; [done|].
    intros repo. rewrite elem_of_app, Hkept1, Hkept2, Hc1. split.
    + intros [[Hin Hpass] | [(page' & items' & Hpage & Hit & Hin) Hpass]].
      * split; [|done]. exists page, items. split_and!; try done. by left.
      * split; [|done]. exists page', items'. split_and!; try done. by right.
    + intros [(page' & items' & Hpage & Hit & Hin) Hpass].
      apply elem_of_cons in Hpage as [-> | Hpage].
      * left. rewrite Hitems in Hit. by simplify_eq.
      * right. split; [|done]. by exists page', items'.
Qed.

Lemma select_repo_named file c config repo :
  named_or_null repo -> ∃ r, select_repo file c config repo = inr r.
Proof.
  intros [-> | (fields & name & -> & Hname)]; [by eexists|].
  destruct (select_repo_decision file c config fields name Hname)
    as (kept & c' & -> & _). by eexists.
Qed.

Lemma select_repos_named file config items :
  Forall named_or_null items ->
  ∀ c all_repos, ∃ r, select_repos file c config items all_repos = inr r.
Proof.
  induction 1 as [|repo items Hrepo _ IH]; intros c all_repos; [by eexists|].
  cbn [select_repos].
  destruct (select_repo_named file c config repo Hrepo) as (r & ->).
  cbn [bind]. apply IH.
Qed.

Lemma select_pages_readable file config pages :
  Forall readable_page pages ->
  ∀ c all_repos, ∃ r, select_pages file c config pages all_repos = inr r.
Proof.
  induction 1 as [|page pages (items & Hitems & Hnamed) _ IH];
    intros c all_repos; [by eexists|].
  cbn [select_pages]. unfold page_items in Hitems.
  destruct (navigate page _) as [e1 | nodes]; cbn [bind] in *; [discriminate|].
  destruct (py_iter nodes) as [e2 | items']; cbn [bind] in *; [discriminate|].
  simplify_eq.
  destruct (select_repos_named file config items Hnamed c all_repos) as (r & ->).
  cbn [bind]. apply IH.
Qed.

Lemma two_page_stub_serves q :
  serves two_page_stub q [("organization", JStr "org")]
         ["organization"; "repositories"] tt JNull
         [repositories_page ["a"; "b"] (Some (true, JStr "c1"));
          repositories_page ["c"] None] tt.
Proof.
  eapply serves_more with (c' := JStr "c1");
    [reflexivity | | eapply serves_last; [reflexivity|]].
  - eexists _, _. repeat split; reflexivity.
  - eexists. split; [reflexivity|]. by left.
Qed.

Lemma navigate_app data path1 path2 :
  navigate data (path1 ++ path2)
  = try! d := navigate data path1 in navigate d path2.
Proof.
  revert data. induction path1 as [|key path1 IH]; intros data; [done|].
  cbn. destruct (subscript data key); cbn; [done | apply IH].
Qed.

Section Discovery.
Context {St : Type}.
Variable graphql : St -> string -> dict -> result json * St.

(** X9. Against a provider that serves a finite chain of readable
    pages, [query_repo_names] returns, and the repositories it returns
    are exactly the nodes of those pages that are dicts with a string
    name that the policy keeps. *)
Theorem query_repo_names_discovers st pages st' fuel file c config :
  serves graphql REPO_NAMES_QUERY [("organization", JStr (organization config))]
         ["organization"; "repositories"] st JNull pages st' ->
  (length pages ≤ fuel)%nat ->
  Forall readable_page pages ->
  ∃ out c',
    query_repo_names graphql fuel st file c config = Some (inr (out, c'))
    ∧ ∀ repo, repo ∈ out
              ↔ node_of pages repo
                ∧ passes_policy (load_excluded_repos file c).1 config repo.
Proof.
  intros Hchain Hfuel Hread.
  destruct (paginate_loop_serves _ _ _ _ _ _ _ _ Hchain fuel Hfuel)
    as (tr & Hrun & Hy & _).
  destruct (select_pages_readable file config pages Hread c [])
    as ([out c'] & Hsel).
  exists out, c'. unfold query_repo_names, graphql_paginate.
  rewrite Hrun, Hy, Hsel. split; [done|].
  destruct (select_pages_kept _ _ _ _ _ _ _ Hsel) as (_ & kept & -> & Hkept).
  done.
Qed.

(** X10. A page the generator yields without complaint can still end
    [query_repo_names]: when the first page has no [nodes] under
    [organization.repositories], the call raises [KeyError] for
    [nodes], whatever the provider would have answered next. *)
Theorem query_repo_names_page_without_nodes st page st1 fuel file c config conn :
  graphql st REPO_NAMES_QUERY
          (dict_set "cursor" JNull [("organization", JStr (organization config))])
    = (inr page, st1) ->
  navigate page ["organization"; "repositories"] = inr (JObj conn) ->
  dict_get "nodes" conn = None ->
  query_repo_names graphql (S fuel) st file c config
    = Some (inl (KeyError "nodes")).
Proof.
  intros Hreq Hnav Hnodes.
  assert (Hbody : ∀ rest all_repos,
             select_pages file c config (page :: rest) all_repos
             = inl (KeyError "nodes")).
  { intros rest all_repos. cbn [select_pages].
    change ["organization"; "repositories"; "nodes"]
      with (["organization"; "repositories"] ++ ["nodes"]).
    rewrite navigate_app, Hnav. cbn. by rewrite Hnodes. }
  unfold query_repo_names, graphql_paginate. cbn [paginate_loop truthy].
  rewrite Hreq, Hnav.
  destruct (next_position (JObj conn)) as [e | [more cursor]].
  - change (yields [Request _ _; Yield page]) with [page]. by rewrite Hbody.
  - destruct (paginate_loop _ _ _ _ fuel st1 cursor more) as [[tr out] st2].
    unfold emit. cbn [app].
    change (yields (_ :: Yield page :: tr)) with (page :: yields tr).
    by rewrite Hbody.
Qed.
End Discovery.

Lemma query_repo_names_discovers_witness :
  ∃ out c',
    query_repo_names two_page_stub 2 tt None None default_config
      = Some (inr (out, c')).
Proof.
  destruct (query_repo_names_discovers
              two_page_stub tt
              [repositories_page ["a"; "b"] (Some (true, JStr "c1"));
               repositories_page ["c"] None] tt 2 None None default_config
              (two_page_stub_serves REPO_NAMES_QUERY))
    as (out & c' & Hrun & _).
  - cbn. lia.
  - apply Forall_cons; split; [|apply Forall_cons; split; [|by apply Forall_nil]].
    + eexists. split; [reflexivity|].
      apply Forall_cons; split; [right; by eexists _, _|].
      apply Forall_cons; split; [right; by eexists _, _ | by apply Forall_nil].
    + eexists. split; [reflexivity|].
      apply Forall_cons; split; [right; by eexists _, _ | by apply Forall_nil].
  - by exists out, c'.
Defined.

Lemma query_repo_names_page_without_nodes_witness :
  query_repo_names
    (one_page_provider (JObj [("organization", JObj [("repositories", JObj [])])]))
    1 tt None None default_config
  = Some (inl (KeyError "nodes")).
Proof.
  by apply (query_repo_names_page_without_nodes
              (one_page_provider
                 (JObj [("organization", JObj [("repositories", JObj [])])]))
              tt (JObj [("organization", JObj [("repositories", JObj [])])])
              tt 0 None None default_config []).
Defined.

Lemma collect_nodes_concat pages itemss :
  Forall2 (fun page items => page_items page = inr items) pages itemss ->
  ∀ all_repos,
    collect_nodes pages all_repos
    = inr (all_repos
           ++ List.filter (fun n => negb (is_none n)) (concat itemss)).
Proof.
  induction 1 as [|page items pages itemss Hitems _ IH]; intros all_repos.
  - cbn. by rewrite app_nil_r.
  - cbn [collect_nodes concat]. unfold page_items in Hitems.
    destruct (navigate page _) as [e1 | nodes]; cbn [bind] in *; [discriminate|].
    destruct (py_iter nodes) as [e2 | items']; cbn [bind] in *; [discriminate|].
    simplify_eq. rewrite IH, List.filter_app, app_assoc. done.
Qed.

(** X11. Against a provider that serves a finite chain of pages whose
    [nodes] can be iterated, [_get_issue_and_pr_data] and
    [_query_for_discussions] return the nodes of all pages in page
    order, the [null] nodes left out and nothing else dropped: no
    filter of the discovery loop applies here. *)
Theorem query_nodes_collects {St} (graphql : St -> string -> dict -> result json * St)
    query st pages st' fuel config itemss :
  serves graphql query [("organization", JStr (organization config))]
         ["organization"; "repositories"] st JNull pages st' ->
  (length pages ≤ fuel)%nat ->
  Forall2 (fun page items => page_items page = inr items) pages itemss ->
  query_nodes graphql query fuel st config
  = Some (inr (List.filter (fun n => negb (is_none n)) (concat itemss))).
Proof.
  intros Hchain Hfuel Hitems.
  destruct (paginate_loop_serves _ _ _ _ _ _ _ _ Hchain fuel Hfuel)
    as (tr & Hrun & Hy & _).
  unfold query_nodes, graphql_paginate.
  by rewrite Hrun, Hy, (collect_nodes_concat _ _ Hitems).
Qed.

Lemma query_nodes_collects_witness :
  query_nodes two_page_stub ISSUE_AND_PR_QUERY 2 tt default_config
  = Some (inr [JObj [("name", JStr "a")]; JObj [("name", JStr "b")];
               JObj [("name", JStr "c")]]).
Proof.
  apply (query_nodes_collects
           two_page_stub ISSUE_AND_PR_QUERY tt
           [repositories_page ["a"; "b"] (Some (true, JStr "c1"));
            repositories_page ["c"] None] tt 2 default_config
           [[JObj [("name", JStr "a")]; JObj [("name", JStr "b")]];
            [JObj [("name", JStr "c")]]]
           (two_page_stub_serves ISSUE_AND_PR_QUERY)).
  - cbn. lia.
  - repeat (constructor; [reflexivity|]). constructor.
Defined.

(** ** The enrichment steps: what they leave alone *)

Lemma should_exclude_repo_next file c other config name :
  (should_exclude_repo file (should_exclude_repo file c other config).2
                       name config).1
  = (should_exclude_repo file c name config).1.
Proof. by destruct c. Qed.

(** X12. The loops of [add_issue_and_pr_data] and [add_discussion_data]
    update only records that a node of the response names: a record
    whose name is excluded (by the exclusion list or a prefix) is left
    as it was even when the response holds a node for it, and so is a
    record no node names. *)
Theorem lookup_steps_frame upd file c config res data res' c' name :
  lookup_loop upd file c config res data = inr (res', c') ->
  (should_exclude_repo file c name config).1 = true
  ∨ (∀ node, node ∈ data -> repo_name_of node ≠ inr name) ->
  repositories res' !! name = repositories res !! name.
Proof.
  revert c res. induction data as [|node data IH]; intros c res Hrun Hname;
    cbn in Hrun.
  - by injection Hrun as -> ->.
  - destruct (repo_name_of node) as [e|repo_name] eqn:Hnode; [discriminate|].
    cbn in Hrun.
    pose proof (should_exclude_repo_next file c repo_name config name) as Hnext.
    destruct (should_exclude_repo file c repo_name config) as [excluded c1]
      eqn:Hverdict.
    cbn [snd] in Hnext.
    assert (Hrest : (should_exclude_repo file c1 name config).1 = true
                    ∨ (∀ node', node' ∈ data -> repo_name_of node' ≠ inr name)).
    { destruct Hname as [Hex | Hno]; [left; congruence | right].
      intros node' Hin. apply Hno. by right. }
    destruct excluded; [by apply (IH _ _ Hrun)|].
    destruct (repositories res !! repo_name) as [r|] eqn:Hr;
      [|by apply (IH _ _ Hrun)].
    destruct (upd node r) as [e|r']; [discriminate|]. cbn in Hrun.
    rewrite (IH _ _ Hrun Hrest). cbn.
    apply lookup_insert_ne. intros ->.
    destruct Hname as [Hex | Hno].
    + rewrite Hverdict in Hex. discriminate.
    + apply (Hno node); [by left | done].
Qed.

Lemma lookup_steps_frame_witness :
  ∃ res' c',
    lookup_loop discussions_update None None default_config report_slides
                [slides_node] = inr (res', c')
    ∧ repositories res' !! "slides-x" = repositories report_slides !! "slides-x".
Proof.
  assert (Hrun : lookup_loop discussions_update None None default_config
                             report_slides [slides_node]
                 = inr (report_slides, Some [])) by (vm_compute; reflexivity).
  exists report_slides, (Some []). split; [exact Hrun|].
  apply (lookup_steps_frame _ _ _ _ _ _ _ _ "slides-x" Hrun).
  left. reflexivity.
Defined.

Lemma conda_loop_frame add legacy rows name :
  ∀ res,
  Forall (fun row => remap legacy (fst row) ≠ name) rows ->
  repositories (conda_loop add legacy res rows) !! name
  = repositories res !! name.
Proof.
  induction rows as [|[pkg total] rows IH]; intros res Hrows; [done|].
  apply Forall_cons in Hrows as [Hpkg Hrows]. cbn in *.
  destruct (repositories res !! remap legacy pkg) as [r|]; [|by apply IH].
  rewrite IH by done. cbn. by apply lookup_insert_ne.
Qed.

Lemma legacy_get_value key legacy current :
  legacy_get key legacy = Some current -> current ∈ map snd legacy.
Proof.
  induction legacy as [|[k v] legacy IH]; cbn; [done|].
  destruct (String.eqb k key).
  - intros [= ->]. by left.
  - intros H. right. by apply IH.
Qed.

Lemma legacy_get_key key legacy :
  key ∈ map fst legacy -> ∃ current, legacy_get key legacy = Some current.
Proof.
  induction legacy as [|[k v] legacy IH]; cbn.
  - by intros ?%elem_of_nil.
  - intros [-> | Hin]%elem_of_cons.
    + rewrite String.eqb_refl. by eexists.
    + destruct (String.eqb k key); [by eexists | by apply IH].
Qed.

Lemma remap_packages legacy names pkg :
  pkg ∈ names ++ map fst legacy ->
  remap legacy pkg ∈ names ∨ remap legacy pkg ∈ map snd legacy.
Proof.
  intros Hin. unfold remap.
  destruct (legacy_get pkg legacy) as [current|] eqn:Hget.
  - right. by eapply legacy_get_value.
  - apply elem_of_app in Hin as [Hin | Hin]; [by left|].
    destruct (legacy_get_key _ _ Hin) as [current Hcur]. congruence.
Qed.

Lemma rows_of_packages packages rows row :
  row ∈ rows_of packages rows -> fst row ∈ packages.
Proof.
  unfold rows_of. rewrite list_elem_of_In, filter_In.
  intros [_ Hrow]. by apply contains_elem_of.
Qed.

(** X13. [add_conda_data] touches only the records of the repositories
    that discovery returns and of the current names of legacy packages:
    a record of the report under any other name is left as it was, even
    when the download table holds rows for that name. *)
Theorem conda_touches_only_packages {St}
    (graphql : St -> string -> dict -> result json * St)
    fuel st file c legacy_file conda res config repos c0 names name :
  query_repo_names graphql fuel st file c config = Some (inr (repos, c0)) ->
  names_of repos = inr names ->
  name ∉ names ->
  name ∉ map snd (legacy_packages_map config legacy_file) ->
  ∃ res',
    add_conda_data graphql fuel st file c legacy_file conda res config
      = Some (inr (res', c0))
    ∧ repositories res' !! name = repositories res !! name.
Proof.
  intros Hquery Hnames Hname Hlegacy. unfold add_conda_data.
  rewrite Hquery, Hnames.
  assert (Hrows : ∀ rows,
             Forall (fun row =>
                       remap (legacy_packages_map config legacy_file) (fst row)
                       ≠ name)
                    (rows_of (names
                              ++ map fst (legacy_packages_map config legacy_file))
                             rows)).
  { intros rows. apply Forall_forall. intros row Hrow%rows_of_packages.
    intros Heq. apply remap_packages in Hrow as [Hin | Hin];
      rewrite Heq in Hin; contradiction. }
  destruct (failed conda); [by eexists|].
  eexists. split; [reflexivity|].
  rewrite conda_loop_frame.
  - by rewrite conda_loop_frame.
  - destruct (last_month conda); [apply Hrows | constructor].
Qed.

Lemma conda_touches_only_packages_witness :
  ∃ res',
    add_conda_data two_page_stub 2 tt None None None
                   {| table := [("slides-x", 5)]; last_month := None;
                      failed := false |}
                   report_slides default_config
      = Some (inr (res', Some []))
    ∧ repositories res' !! "slides-x" = repositories report_slides !! "slides-x".
Proof.
  apply (conda_touches_only_packages
           two_page_stub 2 tt None None None
           {| table := [("slides-x", 5)]; last_month := None; failed := false |}
           report_slides default_config
           [JObj [("name", JStr "a")]; JObj [("name", JStr "b")];
            JObj [("name", JStr "c")]]
           (Some []) ["a"; "b"; "c"] "slides-x").
  - vm_compute. reflexivity.
  - reflexivity.
  - intros Hin. repeat (apply elem_of_cons in Hin as [Heq | Hin];
                        [discriminate Heq|]).
    by apply elem_of_nil in Hin.
  - intros Hin. by apply elem_of_nil in Hin.
Defined.

(** ** The order of the download rows *)

Lemma rows_of_Permutation packages rows rows' :
  rows ≡ₚ rows' -> rows_of packages rows ≡ₚ rows_of packages rows'.
Proof.
  unfold rows_of. induction 1 as [|row l l' _ IH|row1 row2 l|l1 l2 l3 _ IH1 _ IH2].
  - done.
  - cbn. destruct (contains packages row.1); [by constructor | done].
  - cbn. destruct (contains packages row1.1), (contains packages row2.1);
      try done. apply perm_swap.
  - by etrans.
Qed.

Lemma conda_loop_Permutation add legacy rows rows' :
  (∀ a b r, add a (add b r) = add b (add a r)) ->
  rows ≡ₚ rows' ->
  ∀ res, conda_loop add legacy res rows = conda_loop add legacy res rows'.
Proof.
  intros Hcomm.
  induction 1 as [|[pkg total] l l' _ IH
                  |[pkg1 total1] [pkg2 total2] l|l1 l2 l3 _ IH1 _ IH2];
    intros res.
  - done.
  - cbn. destruct (repositories res !! remap legacy pkg); apply IH.
  - cbn. destruct (decide (remap legacy pkg1 = remap legacy pkg2)) as [Heq | Hne].
    + rewrite Heq.
      destruct (repositories res !! remap legacy pkg2) as [r|] eqn:Hr; cbn.
      * rewrite !lookup_insert_eq, !insert_insert_eq. unfold with_repositories.
        cbn. by rewrite Hcomm.
      * done.
    + destruct (repositories res !! remap legacy pkg2) as [r2|] eqn:Hr2,
               (repositories res !! remap legacy pkg1) as [r1|] eqn:Hr1; cbn.
      * rewrite !lookup_insert_ne, Hr1, Hr2 by done.
        unfold with_repositories. cbn. f_equal. f_equal.
        by apply insert_insert_ne.
      * by rewrite lookup_insert_ne, Hr1 by done.
      * by rewrite lookup_insert_ne, Hr2 by done.
      * done.
  - by rewrite IH1, IH2.
Qed.

(** X14. The report [add_conda_data] returns does not depend on the
    order in which the two download queries return their rows: the
    loops add, and additions into the records commute. *)
Theorem conda_row_order_irrelevant {St}
    (graphql : St -> string -> dict -> result json * St)
    fuel st file c legacy_file conda conda' res config :
  table conda ≡ₚ table conda' ->
  option_Forall2 (≡ₚ) (last_month conda) (last_month conda') ->
  failed conda = failed conda' ->
  add_conda_data graphql fuel st file c legacy_file conda res config
  = add_conda_data graphql fuel st file c legacy_file conda' res config.
Proof.
  intros Htable Hmonth Hfailed. unfold add_conda_data.
  destruct (query_repo_names graphql fuel st file c config)
    as [[e | [repos c0]]|]; try done.
  destruct (names_of repos) as [e | names]; [done|].
  rewrite <- Hfailed. destruct (failed conda); [done|].
  set (legacy := legacy_packages_map config legacy_file).
  set (packages := names ++ map fst legacy).
  assert (Hadd1 : ∀ a b r, add_conda_total_downloads a (add_conda_total_downloads b r)
                           = add_conda_total_downloads b (add_conda_total_downloads a r)).
  { intros a b r. unfold add_conda_total_downloads. cbn. f_equal. lia. }
  assert (Hadd2 : ∀ a b r, add_conda_monthly_downloads a (add_conda_monthly_downloads b r)
                           = add_conda_monthly_downloads b (add_conda_monthly_downloads a r)).
  { intros a b r. unfold add_conda_monthly_downloads. cbn. f_equal. lia. }
  rewrite (conda_loop_Permutation _ legacy _ _ Hadd1
             (rows_of_Permutation packages _ _ Htable)).
  f_equal. f_equal. f_equal.
  destruct Hmonth as [rows rows' Hrows|]; [|done].
  apply (conda_loop_Permutation _ legacy _ _ Hadd2).
  by apply rows_of_Permutation.
Qed.

Lemma conda_row_order_irrelevant_witness :
  add_conda_data two_page_stub 2 tt None None None
                 {| table := [("a", 5); ("b", 1)]; last_month := None;
                    failed := false |} report_a default_config
  = add_conda_data two_page_stub 2 tt None None None
                   {| table := [("b", 1); ("a", 5)]; last_month := None;
                      failed := false |} report_a default_config.
Proof.
  apply conda_row_order_irrelevant.
  - apply perm_swap.
  - constructor.
  - reflexivity.
Defined.

(** ** The records of the report *)

Lemma store_repository_stores contributors_map res repo res' :
  store_repository contributors_map res repo = inr res' ->
  ∃ repo_name r,
    repo_name_of repo = inr repo_name
    ∧ res' = with_repositories res (<[repo_name := r]> (repositories res))
    ∧ repository_name r = repo_name
    ∧ collaborators_count r = default 0 (contributors_map !! repo_name)
    ∧ total_issues_count r = 0
    ∧ discussions_count r = 0
    ∧ total_download_count r = 0
    ∧ conda_total_downloads r = 0
    ∧ conda_monthly_downloads r = 0
    ∧ open_issues_count r = 0
    ∧ closed_issues_count r = 0
    ∧ total_pull_requests_count r = 0
    ∧ open_pull_requests_count r = 0
    ∧ closed_pull_requests_count r = 0
    ∧ merged_pull_requests_count r = 0
    ∧ monthly_download_count r = 0
    ∧ weekly_download_count r = 0
    ∧ daily_download_count r = 0
    ∧ contributors_count r = 0.
Proof.
  intros Hrun. unfold store_repository in Hrun.
  destruct (subscript repo "name") as [e | [| | | repo_name | |]] eqn:Hname;
    try discriminate.
  cbn in Hrun.
  repeat match type of Hrun with
         | bind ?m _ = inr _ => destruct m; [discriminate|]; cbn in Hrun
         end.
  injection Hrun as <-. eexists repo_name, _. split.
  { unfold repo_name_of. by rewrite Hname. }
  split; [reflexivity|]. by split_and!.
Qed.

Lemma store_repositories_stored contributors_map repos :
  ∀ res res',
  store_repositories contributors_map res repos = inr res' ->
  ∃ names,
    names_of repos = inr names
    ∧ dom (repositories res') = dom (repositories res) ∪ list_to_set names
    ∧ meta res' = meta res ∧ org_info res' = org_info res
    ∧ (∀ name, name ∉ names ->
               repositories res' !! name = repositories res !! name)
    ∧ (∀ name, name ∈ names ->
               ∃ r, repositories res' !! name = Some r
                    ∧ repository_name r = name
                    ∧ collaborators_count r
                      = default 0 (contributors_map !! name)
                    ∧ total_issues_count r = 0
                    ∧ discussions_count r = 0
                    ∧ total_download_count r = 0
                    ∧ conda_total_downloads r = 0
                    ∧ conda_monthly_downloads r = 0
                    ∧ open_issues_count r = 0
                    ∧ closed_issues_count r = 0
                    ∧ total_pull_requests_count r = 0
                    ∧ open_pull_requests_count r = 0
                    ∧ closed_pull_requests_count r = 0
                    ∧ merged_pull_requests_count r = 0
                    ∧ monthly_download_count r = 0
                    ∧ weekly_download_count r = 0
                    ∧ daily_download_count r = 0
                    ∧ contributors_count r = 0).
Proof.
  induction repos as [|repo repos IH]; intros res res' Hrun; cbn in Hrun.
  - injection Hrun as <-. exists []. split_and!; try done.
    + set_solver.
    + by intros name ?%elem_of_nil.
  - destruct (store_repository contributors_map res repo) as [e | res1] eqn:Hone;
      [discriminate|].
    cbn in Hrun.
    destruct (store_repository_stores _ _ _ _ Hone)
      as (repo_name & r & Hname & -> & Hr).
    destruct (IH _ _ Hrun) as (names & Hnames & Hdom & Hmeta & Horg & Hout & Hin).
    exists (repo_name :: names). cbn [names_of]. rewrite Hname, Hnames.
    cbn in *. split_and!; try done.
    + rewrite Hdom, dom_insert_L. set_solver.
    + intros name Hnot. rewrite not_elem_of_cons in Hnot.
      destruct Hnot as [Hne Hnot]. rewrite (Hout _ Hnot).
      by apply lookup_insert_ne.
    + intros name Hname'.
      destruct (decide (name ∈ names)) as [Hlater | Hnot]; [by apply Hin|].
      apply elem_of_cons in Hname' as [-> | ?]; [|done].
      exists r. rewrite (Hout _ Hnot), lookup_insert_eq. done.
Qed.


(** X15. What [add_repositories_to_result] stores.  When the loop over
    the discovered repositories does not raise, the report holds a
    record under each of their names and under the names it held
    before, and nothing else; a record under another name is left as it
    was; a record under a discovered name is a new one, stored under
    its own name, with the collaborators the poller counted (0 when it
    counted none) and every count of the later steps back at 0,
    whatever the report held under that name before. *)
Theorem store_repositories_records contributors_map repos :
  ∀ res res',
  store_repositories contributors_map res repos = inr res' ->
  ∃ names,
    names_of repos = inr names
    ∧ dom (repositories res') = dom (repositories res) ∪ list_to_set names
    ∧ meta res' = meta res ∧ org_info res' = org_info res
    ∧ (∀ name, name ∉ names ->
               repositories res' !! name = repositories res !! name)
    ∧ (∀ name, name ∈ names ->
               ∃ r, repositories res' !! name = Some r
                    ∧ repository_name r = name
                    ∧ collaborators_count r
                      = default 0 (contributors_map !! name)
                    ∧ total_issues_count r = 0
                    ∧ discussions_count r = 0
                    ∧ total_download_count r = 0
                    ∧ conda_total_downloads r = 0
                    ∧ conda_monthly_downloads r = 0
                    ∧ open_issues_count r = 0
                    ∧ closed_issues_count r = 0
                    ∧ total_pull_requests_count r = 0
                    ∧ open_pull_requests_count r = 0
                    ∧ closed_pull_requests_count r = 0
                    ∧ merged_pull_requests_count r = 0
                    ∧ monthly_download_count r = 0
                    ∧ weekly_download_count r = 0
                    ∧ daily_download_count r = 0
                    ∧ contributors_count r = 0).
Proof. apply store_repositories_stored. Qed.

Lemma store_repositories_records_witness :
  ∃ names,
    names_of [JObj [("name", JStr "a")]] = inr names
    ∧ ∀ name, name ∈ names ->
              ∃ r, repositories
                     (with_repositories
                        Result_default
                        {[ "a" := new_RepositoryResult "a" "" "No License" []
                                    0 0 0 7 false false false 0 ]}) !! name
                   = Some r
                   ∧ collaborators_count r = 7.
Proof.
  destruct (store_repositories_records
              {[ "a" := 7 ]} [JObj [("name", JStr "a")]] Result_default
              (with_repositories
                 Result_default
                 {[ "a" := new_RepositoryResult "a" "" "No License" []
                             0 0 0 7 false false false 0 ]}))
    as (names & Hnames & _ & _ & _ & _ & Hin).
  - vm_compute. reflexivity.
  - exists names. split; [exact Hnames|].
    intros name Hname. destruct (Hin name Hname) as (r & Hr & _ & Hcount & _).
    exists r. split; [exact Hr|]. rewrite Hcount.
    cbn in Hnames. injection Hnames as <-.
    apply elem_of_cons in Hname as [-> | Hname]; [reflexivity|].
    by apply elem_of_nil in Hname.
Defined.

Lemma lookup_loop_keyed upd file config data :
  (∀ node r r', upd node r = inr r' -> repository_name r' = repository_name r) ->
  ∀ c res res' c',
  keyed_by_name res ->
  lookup_loop upd file c config res data = inr (res', c') ->
  keyed_by_name res'.
Proof.
  intros Hupd. induction data as [|node data IH]; intros c res res' c' Hkeyed Hrun;
    cbn in Hrun.
  - by injection Hrun as <- <-.
  - destruct (repo_name_of node) as [e|repo_name]; [discriminate|]. cbn in Hrun.
    destruct (should_exclude_repo file c repo_name config) as [[|] c1];
      [by eapply IH|].
    destruct (repositories res !! repo_name) as [r|] eqn:Hr; [|by eapply IH].
    destruct (upd node r) as [e|r'] eqn:Hone; [discriminate|]. cbn in Hrun.
    eapply IH; [|exact Hrun].
    intros name r0. cbn. destruct (decide (repo_name = name)) as [-> | Hne].
    + rewrite lookup_insert_eq. intros [= <-].
      rewrite (Hupd _ _ _ Hone). by apply Hkeyed.
    + rewrite lookup_insert_ne by done. apply Hkeyed.
Qed.

Lemma conda_loop_keyed add legacy rows :
  (∀ total r, repository_name (add total r) = repository_name r) ->
  ∀ res, keyed_by_name res -> keyed_by_name (conda_loop add legacy res rows).
Proof.
  intros Hadd. induction rows as [|[pkg total] rows IH]; intros res Hkeyed;
    [done|].
  cbn. destruct (repositories res !! remap legacy pkg) as [r|] eqn:Hr;
    [|by apply IH].
  apply IH. intros name r0. cbn.
  destruct (decide (remap legacy pkg = name)) as [<- | Hne].
  - rewrite lookup_insert_eq. intros [= <-]. rewrite Hadd. by apply Hkeyed.
  - rewrite lookup_insert_ne by done. apply Hkeyed.
Qed.

Lemma issue_and_pr_update_name node r r' :
  issue_and_pr_update node r = inr r' -> repository_name r' = repository_name r.
Proof.
  unfold issue_and_pr_update. intros Hrun.
  repeat match type of Hrun with
         | bind ?m _ = inr _ => destruct m; [discriminate|]; cbn in Hrun
         end.
  by injection Hrun as <-.
Qed.

Lemma discussions_update_name node r r' :
  discussions_update node r = inr r' -> repository_name r' = repository_name r.
Proof.
  unfold discussions_update. intros Hrun.
  repeat match type of Hrun with
         | bind ?m _ = inr _ => destruct m; [discriminate|]; cbn in Hrun
         end.
  by injection Hrun as <-.
Qed.

Section Keyed.
Variable now : Z.
Variable strptime : string -> result Z.
Variable strftime : Z -> string.

Lemma downloads_loop_keyed output :
  ∀ res res',
  keyed_by_name res ->
  downloads_loop now strptime strftime res output = inr res' ->
  keyed_by_name res'.
Proof.
  induction output as [|[repo_name data] output IH]; intros res res' Hkeyed Hrun;
    cbn in Hrun.
  - by injection Hrun as <-.
  - destruct (repositories res !! repo_name) as [r|] eqn:Hr; [|by eapply IH].
    destruct (_process_download_numbers now strptime strftime data)
      as [e|[[[total monthly] weekly] daily]]; [discriminate|].
    cbn in Hrun. eapply IH; [|exact Hrun].
    intros name r0. cbn. destruct (decide (repo_name = name)) as [-> | Hne].
    + rewrite lookup_insert_eq. intros [= <-]. cbn. by apply Hkeyed.
    + rewrite lookup_insert_ne by done. apply Hkeyed.
Qed.

(** X16. Every record of the report is stored under its own
    [repository_name]: the loop of [add_repositories_to_result]
    establishes this for the records it stores and keeps it for the
    others, and the loops of [add_issue_and_pr_data],
    [add_discussion_data], [add_downloads_pepy] and [add_conda_data]
    keep it. *)
Theorem records_keyed_by_name res :
  keyed_by_name res ->
  (∀ contributors_map repos res',
      store_repositories contributors_map res repos = inr res' ->
      keyed_by_name res')
  ∧ (∀ file c config data res' c',
        lookup_loop issue_and_pr_update file c config res data = inr (res', c') ->
        keyed_by_name res')
  ∧ (∀ file c config data res' c',
        lookup_loop discussions_update file c config res data = inr (res', c') ->
        keyed_by_name res')
  ∧ (∀ output res',
        downloads_loop now strptime strftime res output = inr res' ->
        keyed_by_name res')
  ∧ (∀ legacy total_downloads last_month_downloads,
        keyed_by_name
          (conda_loop add_conda_monthly_downloads legacy
             (conda_loop add_conda_total_downloads legacy res total_downloads)
             last_month_downloads)).
Proof.
  intros Hkeyed. split_and!.
  - intros contributors_map repos res' Hrun name r Hr.
    destruct (store_repositories_stored _ _ _ _ Hrun)
      as (names & _ & _ & _ & _ & Hout & Hin).
    destruct (decide (name ∈ names)) as [Hname | Hname].
    + destruct (Hin _ Hname) as (r0 & Hr0 & Hkey & _). congruence.
    + rewrite (Hout _ Hname) in Hr. by apply Hkeyed.
  - intros file c config data res' c'.
    by apply lookup_loop_keyed; [apply issue_and_pr_update_name|].
  - intros file c config data res' c'.
    by apply lookup_loop_keyed; [apply discussions_update_name|].
  - intros output res'. by apply downloads_loop_keyed.
  - intros legacy total_downloads last_month_downloads.
    by repeat apply conda_loop_keyed.
Qed.
End Keyed.

Lemma records_keyed_by_name_witness :
  keyed_by_name
    (conda_loop add_conda_monthly_downloads []
       (conda_loop add_conda_total_downloads [] report_a [("a", 5)]) []).
Proof.
  assert (Hkeyed : keyed_by_name report_a).
  { intros name r. unfold report_a. cbn. intros Hr.
    apply lookup_singleton_Some in Hr as [<- <-]. reflexivity. }
  destruct (records_keyed_by_name 0 (fun _ => inr 0) (fun _ => "") report_a Hkeyed)
    as (_ & _ & _ & _ & Hconda).
  apply Hconda.
Defined.

(** ** PePy *)

Lemma calls_length (api_key : string) ks :
  Forall (fun k => 1 ≤ k ≤ PEPY_MAX_RETRIES)%nat ks ->
  ∀ names : list string,
  length ks = length names ->
  (length names
   ≤ length (concat (zip_with (fun k repo_name => replicate k (repo_name, api_key))
                              ks names))
   ≤ PEPY_MAX_RETRIES * length names)%nat.
Proof.
  induction 1 as [|k ks [Hk1 Hk2] _ IH]; intros [|name names] Hlen;
    try discriminate; cbn; [lia|].
  rewrite length_app, length_replicate.
  specialize (IH names ltac:(cbn in Hlen; lia)). cbn in IH.
  unfold PEPY_MAX_RETRIES in *. lia.
Qed.

Section PepyFacts.
Context {P : Type}.
Variable _fetch_downloads : P -> string -> string -> pepy_answer * P.

Lemma attempts_calls retries repo_name api_key :
  ∀ s : pepy_state (P * list (string * string)),
  ∃ k, (k ≤ retries)%nat
       ∧ (0 < retries -> 1 ≤ k)%nat
       ∧ (pepy (attempts (recording _fetch_downloads) retries repo_name api_key s)).2
         = (pepy s).2 ++ replicate k (repo_name, api_key).
Proof.
  induction retries as [|retries IH]; intros s.
  - exists 0%nat. cbn. rewrite app_nil_r. split_and!; [lia | lia | done].
  - cbn [attempts]. unfold recording at 1.
    destruct (_fetch_downloads (pepy s).1 repo_name api_key) as [answer p'].
    assert (Hstop : ∀ results n sl,
               ∃ k, (k ≤ S retries)%nat ∧ (0 < S retries -> 1 ≤ k)%nat
                    ∧ (pepy {| project_results := results; num_requests := n;
                               pepy_sleeps := sl;
                               pepy := (p', (pepy s).2 ++ [(repo_name, api_key)]) |}).2
                      = (pepy s).2 ++ replicate k (repo_name, api_key)).
    { intros. exists 1%nat. split_and!; [lia | lia | done]. }
    assert (Hmore : ∀ s1 : pepy_state (P * list (string * string)),
               ∃ k, (k ≤ S retries)%nat ∧ (0 < S retries -> 1 ≤ k)%nat
                    ∧ (pepy (attempts (recording _fetch_downloads) retries
                                      repo_name api_key
                                      (back_off s1 (p', (pepy s).2 ++ [(repo_name, api_key)])))).2
                      = (pepy s).2 ++ replicate k (repo_name, api_key)).
    { intros s1.
      destruct (IH (back_off s1 (p', (pepy s).2 ++ [(repo_name, api_key)])))
        as (k & Hk & _ & Hlog).
      exists (S k). split_and!; [lia | lia |].
      rewrite Hlog. cbn. by rewrite <- app_assoc. }
    destruct answer as [|status_code body]; [apply Hmore|].
    destruct (status_code =? HTTP_NOT_FOUND); [apply Hstop|].
    destruct (status_code =? HTTP_TOO_MANY_REQUESTS); [apply Hmore|].
    destruct body as [project_data|]; [|apply Hmore].
    destruct (truthy project_data); apply Hstop.
Qed.

Lemma query_projects_calls api_key repos :
  ∀ (s s' : pepy_state (P * list (string * string))),
  query_projects (recording _fetch_downloads) repos api_key s = inr s' ->
  ∃ names ks,
    names_of repos = inr names
    ∧ length ks = length names
    ∧ Forall (fun k => 1 ≤ k ≤ PEPY_MAX_RETRIES)%nat ks
    ∧ (pepy s').2
      = (pepy s).2
        ++ concat (zip_with (fun k repo_name => replicate k (repo_name, api_key))
                            ks names).
Proof.
  induction repos as [|repo repos IH]; intros s s' Hrun;
    cbn [query_projects] in Hrun.
  - injection Hrun as <-. exists [], []. cbn. rewrite app_nil_r.
    split_and!; try done.
  - destruct (subscript repo "name") as [e | [| | | repo_name | |]] eqn:Hname;
      try discriminate.
    cbn [bind as_str ret] in Hrun. destruct (IH _ _ Hrun) as (names & ks & Hnames & Hlen & Hks & Hlog).
    destruct (attempts_calls PEPY_MAX_RETRIES repo_name api_key s)
      as (k & Hk & Hk1 & Hone).
    exists (repo_name :: names), (k :: ks). cbn [names_of].
    unfold repo_name_of. rewrite Hname. cbn [bind ret]. rewrite Hnames.
    split_and!; try done.
    + cbn. by rewrite Hlen.
    + constructor; [|done]. split; [apply Hk1; unfold PEPY_MAX_RETRIES; lia | done].
    + rewrite Hlog, Hone. cbn. by rewrite <- app_assoc.
Qed.

(** X17. The calls [_query_projects_for_repositories] makes to PePy:
    the repositories are asked for one after the other, in the order
    of the input, each at least once and at most [PEPY_MAX_RETRIES]
    times, always with the key the function was given; no other
    project is asked for. *)
Theorem pepy_request_budget repos api_key p results sleeps p' calls :
  _query_projects_for_repositories (recording _fetch_downloads) repos api_key
                                   (p, [])
    = inr (results, sleeps, (p', calls)) ->
  ∃ names ks,
    names_of repos = inr names
    ∧ length ks = length names
    ∧ Forall (fun k => 1 ≤ k ≤ PEPY_MAX_RETRIES)%nat ks
    ∧ calls = concat (zip_with (fun k repo_name => replicate k (repo_name, api_key))
                               ks names)
    ∧ (length names ≤ length calls ≤ PEPY_MAX_RETRIES * length names)%nat.
Proof.
  unfold _query_projects_for_repositories. intros Hrun.
  destruct (query_projects _ repos api_key _) as [e | s'] eqn:Hloop;
    [discriminate|].
  cbn in Hrun. destruct (query_projects_calls _ _ _ _ Hloop)
    as (names & ks & Hnames & Hlen & Hks & Hlog).
  cbn in Hlog. destruct (pepy s') as [p1 calls1]. cbn in *.
  unfold ret in Hrun. simplify_eq.
  exists names, ks. split_and!; try done; by apply calls_length.
Qed.
End PepyFacts.

Lemma pepy_request_budget_witness :
  ∃ names ks,
    names_of [JObj [("name", JStr "a")]] = inr names
    ∧ length ks = length names
    ∧ [("a", "key"); ("a", "key")]
      = concat (zip_with (fun k repo_name => replicate k (repo_name, "key"))
                         ks names).
Proof.
  destruct (pepy_request_budget
              pepy_busy [JObj [("name", JStr "a")]] "key" tt []
              [PEPY_RATE_LIMIT_SLEEP_SECONDS; PEPY_RATE_LIMIT_SLEEP_SECONDS] tt
              [("a", "key"); ("a", "key")] eq_refl)
    as (names & ks & Hnames & Hlen & _ & Hcalls & _).
  by exists names, ks.
Defined.

Section PepyResults.
Context {P : Type}.
Variable _fetch_downloads : P -> string -> string -> pepy_answer * P.

Lemma attempts_results retries repo_name api_key :
  ∀ s : pepy_state P,
  let s' := attempts _fetch_downloads retries repo_name api_key s in
  (project_results s' = project_results s
   ∨ ∃ project_data,
       truthy project_data = true
       ∧ project_results s' = project_results s ++ [(repo_name, project_data)])
  ∧ ∃ n, pepy_sleeps s'
         = pepy_sleeps s ++ replicate n PEPY_RATE_LIMIT_SLEEP_SECONDS.
Proof.
  induction retries as [|retries IH]; intros s; cbn zeta.
  - cbn. split; [by left|]. exists 0%nat. by rewrite app_nil_r.
  - cbn [attempts].
    destruct (_fetch_downloads (pepy s) repo_name api_key) as [answer p'].
    set (throttled := PEPY_RATE_LIMIT_REQUESTS <=? num_requests s).
    assert (Hsl : ∃ n, (if throttled
                        then pepy_sleeps s ++ [PEPY_RATE_LIMIT_SLEEP_SECONDS]
                        else pepy_sleeps s)
                       = pepy_sleeps s ++ replicate n PEPY_RATE_LIMIT_SLEEP_SECONDS).
    { destruct throttled; [by exists 1%nat | exists 0%nat; by rewrite app_nil_r]. }
    destruct Hsl as [n0 Hsl]. rewrite Hsl.
    assert (Hmore : ∀ s1 : pepy_state P,
               project_results s1 = project_results s ->
               pepy_sleeps s1
               = pepy_sleeps s ++ replicate n0 PEPY_RATE_LIMIT_SLEEP_SECONDS ->
               let s' := attempts _fetch_downloads retries repo_name api_key
                                  (back_off s1 p') in
               (project_results s' = project_results s
                ∨ ∃ project_data,
                    truthy project_data = true
                    ∧ project_results s'
                      = project_results s ++ [(repo_name, project_data)])
               ∧ ∃ n, pepy_sleeps s'
                      = pepy_sleeps s ++ replicate n PEPY_RATE_LIMIT_SLEEP_SECONDS).
    { intros s1 Hres Hsleeps. cbn zeta.
      destruct (IH (back_off s1 p')) as [Hr [n Hs]]. cbn in Hr, Hs.
      rewrite Hres in Hr. split; [done|].
      exists (n0 + 1 + n)%nat. rewrite Hs, Hsleeps.
      rewrite !replicate_add, <- !app_assoc. done. }
    destruct answer as [|status_code body]; [by apply Hmore|].
    destruct (status_code =? HTTP_NOT_FOUND).
    { cbn. split; [by left | by exists n0]. }
    destruct (status_code =? HTTP_TOO_MANY_REQUESTS); [by apply Hmore|].
    destruct body as [project_data|]; [|by apply Hmore].
    destruct (truthy project_data) eqn:Ht; cbn.
    + split; [right; by exists project_data | by exists n0].
    + split; [by left | by exists n0].
Qed.

Lemma query_projects_results api_key repos :
  ∀ names, names_of repos = inr names ->
  ∀ s : pepy_state P,
  ∃ s' found n,
    query_projects _fetch_downloads repos api_key s = inr s'
    ∧ project_results s' = project_results s ++ found
    ∧ map fst found `sublist_of` names
    ∧ Forall (fun project => truthy project.2 = true) found
    ∧ pepy_sleeps s'
      = pepy_sleeps s ++ replicate n PEPY_RATE_LIMIT_SLEEP_SECONDS.
Proof.
  induction repos as [|repo repos IH]; intros names Hnames s;
    cbn [names_of] in Hnames.
  - injection Hnames as <-. exists s, [], 0%nat. cbn.
    rewrite !app_nil_r. split_and!; try done.
  - unfold repo_name_of in Hnames.
    destruct (subscript repo "name") as [e | [| | | repo_name | |]] eqn:Hname;
      try discriminate.
    cbn [bind ret] in Hnames.
    destruct (names_of repos) as [e | names'] eqn:Hrest; [discriminate|].
    cbn [bind ret] in Hnames. injection Hnames as <-.
    cbn [query_projects]. rewrite Hname. cbn [bind as_str ret].
    destruct (attempts_results PEPY_MAX_RETRIES repo_name api_key s)
      as [Hone [n1 Hs1]].
    destruct (IH names' eq_refl
                 (attempts _fetch_downloads PEPY_MAX_RETRIES repo_name api_key s))
      as (s' & found & n & -> & Hres & Hsub & Htruthy & Hs).
    destruct Hone as [Hone | (project_data & Ht & Hone)].
    + exists s', found, (n1 + n)%nat. split; [done|].
      rewrite Hres, Hone, Hs, Hs1, replicate_add, <- app_assoc.
      split_and!; try done. by apply sublist_cons.
    + exists s', ((repo_name, project_data) :: found), (n1 + n)%nat.
      split; [done|].
      rewrite Hres, Hone, Hs, Hs1, replicate_add, <- !app_assoc.
      split_and!; try done.
      * cbn. by apply sublist_skip.
      * by constructor.
Qed.

End PepyResults.

Section PepyAnswers.
Context {P : Type}.
Variable _fetch_downloads : P -> string -> string -> pepy_answer * P.

Local Abbreviation noted := (noting _fetch_downloads).

Lemma attempts_noted retries repo_name api_key :
  ∀ s s' : pepy_state (P * list (string * pepy_answer)),
  attempts noted retries repo_name api_key s = s' ->
  ∃ calls,
    (pepy s').2 = (pepy s).2 ++ calls
    ∧ project_results s' = project_results s ++ omap returned calls.
Proof.
  induction retries as [|retries IH]; intros s s' Hrun.
  - cbn in Hrun. subst s'. exists []. cbn. by rewrite !app_nil_r.
  - cbn [attempts] in Hrun. unfold noting at 1 in Hrun.
    destruct (_fetch_downloads (pepy s).1 repo_name api_key) as [answer p'].
    assert (Hmore : ∀ s1 : pepy_state (P * list (string * pepy_answer)),
               project_results s1 = project_results s ->
               returned (repo_name, answer) = None ->
               attempts noted retries repo_name api_key
                        (back_off s1 (p', (pepy s).2 ++ [(repo_name, answer)]))
               = s' ->
               ∃ calls,
                 (pepy s').2 = (pepy s).2 ++ calls
                 ∧ project_results s'
                   = project_results s ++ omap returned calls).
    { intros s1 Hres Hnone Hrest.
      destruct (IH _ _ Hrest) as (calls & Hcalls & Hresults).
      exists ((repo_name, answer) :: calls). cbn [pepy back_off snd] in Hcalls.
      rewrite Hcalls, Hresults, <- app_assoc. cbn [project_results back_off].
      rewrite Hres. cbn [omap list_omap app]. by rewrite Hnone. }
    destruct answer as [|status_code body];
      [eapply Hmore; [| |exact Hrun]; done|].
    destruct (status_code =? HTTP_NOT_FOUND) eqn:H404.
    { subst s'. exists [(repo_name, Response status_code body)]. cbn.
      unfold returned. cbn. rewrite H404. cbn.
      destruct body; by rewrite ?app_nil_r. }
    destruct (status_code =? HTTP_TOO_MANY_REQUESTS) eqn:H429.
    { eapply Hmore; [| |exact Hrun]; [done|]. unfold returned. cbn.
      rewrite H404, H429. by destruct body. }
    destruct body as [project_data|];
      [|eapply Hmore; [| |exact Hrun]; done].
    destruct (truthy project_data) eqn:Ht; subst s'.
    + exists [(repo_name, Response status_code (Some project_data))]. cbn.
      unfold returned. cbn. by rewrite H404, H429, Ht.
    + exists [(repo_name, Response status_code (Some project_data))]. cbn.
      unfold returned. cbn. rewrite H404, H429, Ht. cbn.
      by rewrite app_nil_r.
Qed.

Lemma query_projects_noted api_key repos :
  ∀ (s s' : pepy_state (P * list (string * pepy_answer))),
  query_projects noted repos api_key s = inr s' ->
  ∃ calls,
    (pepy s').2 = (pepy s).2 ++ calls
    ∧ project_results s' = project_results s ++ omap returned calls.
Proof.
  induction repos as [|repo repos IH]; intros s s' Hrun;
    cbn [query_projects] in Hrun.
  - injection Hrun as <-. exists []. cbn. by rewrite !app_nil_r.
  - destruct (subscript repo "name") as [e | [| | | repo_name | |]];
      try discriminate.
    cbn [bind as_str ret] in Hrun.
    destruct (IH _ _ Hrun) as (calls2 & Hcalls2 & Hres2).
    destruct (attempts_noted PEPY_MAX_RETRIES repo_name api_key s _ eq_refl)
      as (calls1 & Hcalls1 & Hres1).
    exists (calls1 ++ calls2).
    rewrite Hcalls2, Hres2, Hcalls1, Hres1, omap_app, <- !app_assoc. done.
Qed.

(** X18. [_query_projects_for_repositories] returns for any PePy,
    whatever it answers or raises, as soon as every repository has a
    name.  The projects it returns are exactly, in the order of the
    calls, the data of the answers whose status is neither 404 nor 429
    and whose JSON is not empty, each under the name the call was made
    for: a call answered with 404 (whatever its body), with 429, with
    empty data or with an exception returns nothing.  They are
    repositories of the input, in the order of the input and at most
    once for each occurrence, and every sleep lasts
    [PEPY_RATE_LIMIT_SLEEP_SECONDS]. *)
Theorem pepy_results repos api_key p names :
  names_of repos = inr names ->
  ∃ results sleeps p' calls,
    _query_projects_for_repositories noted repos api_key (p, [])
      = inr (results, sleeps, (p', calls))
    ∧ results = omap returned calls
    ∧ map fst results `sublist_of` names
    ∧ Forall (fun project => truthy project.2 = true) results
    ∧ Forall (fun seconds => seconds = PEPY_RATE_LIMIT_SLEEP_SECONDS) sleeps.
Proof.
  intros Hnames. unfold _query_projects_for_repositories.
  destruct (query_projects_results
              noted api_key repos names Hnames
              {| project_results := []; num_requests := 0;
                 pepy_sleeps := []; pepy := (p, []) |})
    as (s' & found & n & Hrun & Hres & Hsub & Htruthy & Hs).
  rewrite Hrun.
  destruct (query_projects_noted _ _ _ _ Hrun) as (calls & Hcalls & Hreturned).
  cbn in *. destruct (pepy s') as [p1 calls1]. cbn in *. subst calls1.
  eexists _, _, _, _. split; [reflexivity|]. rewrite Hs.
  split_and!; try done.
  - by rewrite Hres in *.
  - by rewrite Hres.
  - apply Forall_forall. by intros x [-> _]%elem_of_replicate.
Qed.
End PepyAnswers.

Lemma pepy_results_witness :
  ∃ results sleeps p' calls,
    _query_projects_for_repositories
      (noting pepy_knows_a)
      [JObj [("name", JStr "b")]; JObj [("name", JStr "a")]] "key" (tt, [])
      = inr (results, sleeps, (p', calls))
    ∧ results = omap returned calls
    ∧ results = [("a", JObj [("total_downloads", JNum 7)])].
Proof.
  destruct (pepy_results pepy_knows_a
                         [JObj [("name", JStr "b")]; JObj [("name", JStr "a")]]
                         "key" tt ["b"; "a"] eq_refl)
    as (results & sleeps & p' & calls & Hrun & Hreturned & _).
  exists results, sleeps, p', calls. split_and!; [exact Hrun | exact Hreturned |].
  vm_compute in Hrun. by injection Hrun as <- _ _ _.
Defined.

Section DownloadNumbers.
Variable now : Z.
Variable strptime : string -> result Z.
Variable strftime : Z -> string.

Lemma sum_values_nonneg versions total :
  nonneg_versions (JObj versions) ->
  sum_values versions = inr total -> 0 ≤ total.
Proof.
  cbn. intros Hall. revert total.
  induction Hall as [|[k v] versions Hv _ IH]; intros total Hsum; cbn in Hsum.
  - injection Hsum as <-. lia.
  - destruct v as [| | n | | |]; try discriminate. cbn in *.
    destruct (sum_values versions) as [e | rest]; [discriminate|].
    cbn in Hsum. injection Hsum as <-. specialize (IH _ eq_refl). lia.
Qed.

Lemma collapse_nonneg items collapsed :
  Forall (fun kv => nonneg_versions (snd kv)) items ->
  collapse items = inr collapsed ->
  Forall (fun day => 0 ≤ day.2) collapsed.
Proof.
  intros Hall. revert collapsed.
  induction Hall as [|[date_str versions] items Hv _ IH]; intros collapsed Hrun;
    cbn in Hrun.
  - injection Hrun as <-. constructor.
  - destruct versions as [| | | | |d]; try discriminate.
    destruct (sum_values d) as [e | count] eqn:Hsum; [discriminate|].
    cbn in Hrun. destruct (collapse items) as [e | rest]; [discriminate|].
    cbn in Hrun. injection Hrun as <-. constructor; [|by apply IH].
    cbn. by eapply sum_values_nonneg.
Qed.

Lemma downloads_after_le bound1 bound2 collapsed :
  bound1 ≤ bound2 ->
  Forall (fun day => 0 ≤ day.2) collapsed ->
  ∀ acc1 acc2 sum1 sum2,
    acc2 ≤ acc1 ->
    downloads_after strptime bound1 collapsed acc1 = inr sum1 ->
    downloads_after strptime bound2 collapsed acc2 = inr sum2 ->
    acc2 ≤ sum2 ≤ sum1.
Proof.
  intros Hbound. induction 1 as [|[date_str count] collapsed Hc _ IH];
    intros acc1 acc2 sum1 sum2 Hacc H1 H2; cbn in H1, H2.
  - injection H1 as <-. injection H2 as <-. lia.
  - destruct (strptime date_str) as [e | date]; [discriminate|]. cbn in *.
    assert (acc2 ≤ (if bound2 <? date then acc2 + count else acc2)) as Hup.
    { destruct (bound2 <? date); lia. }
    assert ((if bound2 <? date then acc2 + count else acc2)
            ≤ (if bound1 <? date then acc1 + count else acc1)) as Hstep.
    { destruct (Z.ltb_spec bound2 date), (Z.ltb_spec bound1 date); lia. }
    specialize (IH _ _ _ _ Hstep H1 H2). lia.
Qed.

Lemma downloads_after_member bound key collapsed :
  Forall (fun day => 0 ≤ day.2) collapsed ->
  ∀ count date acc sum,
    collapsed_get key collapsed = Some count ->
    strptime key = inr date ->
    bound < date ->
    downloads_after strptime bound collapsed acc = inr sum ->
    acc + count ≤ sum.
Proof.
  induction 1 as [|[date_str c] collapsed Hc Hall IH];
    intros count date acc sum Hget Hdate Hlt Hrun; cbn in Hget, Hrun;
    [discriminate|].
  destruct (strptime date_str) as [e | date'] eqn:Hparse; [discriminate|].
  cbn in *. destruct (String.eqb_spec date_str key) as [-> | Hne].
  - injection Hget as ->. rewrite Hdate in Hparse. injection Hparse as <-.
    apply Z.ltb_lt in Hlt. rewrite Hlt in Hrun.
    destruct (downloads_after_le bound bound collapsed ltac:(lia) Hall
                                 (acc + count) (acc + count) sum sum
                                 ltac:(lia) Hrun Hrun).
    lia.
  - specialize (IH _ _ _ _ Hget Hdate Hlt Hrun).
    destruct (bound <? date'); lia.
Qed.

(** X19. The four numbers of [_process_download_numbers].  For an
    answer whose download counts are not negative, and a calendar in
    which yesterday's date, printed and parsed again, is a midnight
    less than a day before yesterday's reading of the clock, the daily
    count is within the weekly count and the weekly count within the
    monthly count, and none of them is negative. *)
Theorem download_counts_nested project_result total monthly weekly daily :
  nonneg_counts project_result ->
  (∀ midnight, strptime (strftime (now - DAY)) = inr midnight ->
               now - DAY - DAY < midnight) ->
  _process_download_numbers now strptime strftime project_result
    = inr (total, monthly, weekly, daily) ->
  0 ≤ daily ∧ daily ≤ weekly ∧ weekly ≤ monthly.
Proof.
  intros Hcounts Hmidnight Hrun. unfold _process_download_numbers in Hrun.
  cbv zeta in Hrun.
  destruct project_result as [| | | | |fields]; try discriminate.
  cbn [get_method bind ret] in Hrun. cbn in Hcounts.
  destruct (dict_get "downloads" fields) as [downloads|].
  - destruct downloads as [| | | | |items]; try discriminate.
    cbn [bind ret] in Hrun.
    destruct (collapse items) as [e | collapsed] eqn:Hcollapse; [discriminate|].
    cbn [bind] in Hrun.
    pose proof (collapse_nonneg _ _ Hcounts Hcollapse) as Hnonneg.
    destruct (downloads_after strptime (now - DAY - 30 * DAY) collapsed 0)
      as [e | m] eqn:Hm; [discriminate|].
    cbn [bind] in Hrun.
    destruct (downloads_after strptime (now - DAY - 7 * DAY) collapsed 0)
      as [e | w] eqn:Hw; [discriminate|].
    cbn [bind] in Hrun.
    destruct (match dict_get "total_downloads" fields with
              | Some w0 => w0 | None => JNum 0 end) as [| | t | | |];
      try discriminate.
    cbn in Hrun. injection Hrun as <- <- <- <-.
    destruct (downloads_after_le (now - DAY - 30 * DAY) (now - DAY - 7 * DAY)
                collapsed ltac:(unfold DAY; lia) Hnonneg 0 0 m w
                ltac:(lia) Hm Hw)
      as [Hw0 Hwm].
    split_and!; [| |done].
    + destruct (collapsed_get _ collapsed) as [count|] eqn:Hget; cbn; [|lia].
      clear -Hget Hnonneg. induction Hnonneg as [|[k v] l Hv _ IH];
        cbn in Hget; [discriminate|].
      destruct (String.eqb k _); [by injection Hget as <- | by apply IH].
    + destruct (collapsed_get _ collapsed) as [count|] eqn:Hget; cbn; [|lia].
      assert (∃ date, strptime (strftime (now - DAY)) = inr date) as [date Hdate].
      { clear -Hget Hw. revert Hw. generalize 0 at 1. 
        induction collapsed as [|[k v] l IH]; intros acc Hw; cbn in Hget, Hw;
          [discriminate|].
        destruct (strptime k) as [e | d] eqn:Hk; [discriminate|]. cbn in Hw.
        destruct (String.eqb_spec k (strftime (now - DAY))) as [-> | Hne];
          [by eexists | by eapply IH]. }
      pose proof (Hmidnight _ Hdate) as Hlt.
      pose proof (downloads_after_member (now - DAY - 7 * DAY) _ collapsed
                    Hnonneg count date 0 w Hget Hdate
                    ltac:(unfold DAY in *; lia) Hw).
      lia.
  - cbn in Hrun.
    destruct (match dict_get "total_downloads" fields with
              | Some w0 => w0 | None => JNum 0 end) as [| | t | | |];
      try discriminate.
    cbn in Hrun. injection Hrun as <- <- <- <-. lia.
Qed.
End DownloadNumbers.

Lemma download_counts_nested_witness :
  0 ≤ 4 ∧ 4 ≤ 4 ∧ 4 ≤ 7.
Proof.
  apply (download_counts_nested
           (40 * DAY)
           (fun s => if String.eqb s "d39" then inr (39 * DAY)
                     else inr (20 * DAY))
           (fun _ => "d39")
           (JObj [("total_downloads", JNum 100);
                  ("downloads",
                   JObj [("d39", JObj [("1.0", JNum 3); ("1.1", JNum 1)]);
                         ("d20", JObj [("1.0", JNum 3)])])])
           100 7 4 4).
  - cbn. repeat constructor; cbn; lia.
  - intros midnight Hparse. cbn in Hparse. injection Hparse as <-.
    unfold DAY. lia.
  - vm_compute. reflexivity.
Defined.

(** ** The organizations of a run *)

Section MainMore.
Variable normalize_since : json -> result string.
Variable default_since : string.
Variable run_pipeline : string -> Config -> result Result.

Local Abbreviation loop := (fetch_organizations run_pipeline).

Lemma fetch_organizations_override token org yaml since names :
  unset (Some org) = false ->
  (∀ config, ∃ res, run_pipeline token config = inr res) ->
  (loop token (Some org) yaml since names).2 = Returned
  ∧ pipeline_orgs (loop token (Some org) yaml since names).1
    = replicate (length names) org
  ∧ written_names (loop token (Some org) yaml since names).1 = names.
Proof.
  intros Hset Hruns. induction names as [|org_name names IH]; [done|].
  cbn [fetch_organizations]. rewrite Hset. cbn [ret default].
  match goal with
  | |- context [run_pipeline token ?config] =>
      destruct (Hruns config) as [res ->]
  end.
  destruct (loop token (Some org) yaml since names) as [evs e].
  cbn in *. destruct IH as (-> & -> & ->). done.
Qed.

Lemma fetch_organizations_stops token yaml since fetched failing rest e :
  (∀ org config, org ∈ fetched -> organization config = org ->
                 ∃ res, run_pipeline token config = inr res) ->
  (∀ config, organization config = failing ->
             run_pipeline token config = inl e) ->
  let names := map JStr (fetched ++ failing :: rest) in
  (loop token None yaml since names).2 = Uncaught e
  ∧ pipeline_orgs (loop token None yaml since names).1 = fetched ++ [failing]
  ∧ written_names (loop token None yaml since names).1 = map JStr fetched.
Proof.
  intros Hfetched Hfailing. cbv zeta.
  induction fetched as [|org fetched IH]; cbn [app map fetch_organizations unset as_str ret].
  - by rewrite Hfailing.
  - match goal with
    | |- context [run_pipeline token ?config] =>
        destruct (Hfetched org config) as [res ->]; [by left | done |]
    end.
    destruct (loop token None yaml since (map JStr (fetched ++ failing :: rest)))
      as [evs e'].
    cbn in *. destruct IH as (-> & -> & ->); [|done].
    intros org' config Hin. apply Hfetched. by right.
Qed.

(** X20. With both secrets and [ORGANIZATION_NAME] set, the
    organizations to fetch are still those of [config.yml] alone.  When
    [config.yml] is absent or holds a mapping with no organization (and
    no [since] to parse), [main] builds the client and returns normally
    without running the pipeline, writing a report or logging an error.
    When [config.yml] holds anything but a mapping (an empty file loads
    as [None]), [main] ends with an uncaught [AttributeError], exit
    status 1, whatever [ORGANIZATION_NAME] is, again without a pipeline
    run or a report. *)
Theorem main_organization_from_environment_alone env :
  unset (GRAPHQL_TOKEN env) = false ->
  unset (PEPY_API_KEY env) = false ->
  unset (ORGANIZATION_NAME env) = false ->
  let run := main normalize_since default_since run_pipeline env in
  (is_mapping (yaml_config env) = true ->
   yaml_get "organization" (yaml_config env) = None ->
   yaml_get "since" (yaml_config env) = None ->
   run.2 = Returned
   ∧ exit_status run.2 = 0
   ∧ pipeline_orgs run.1 = []
   ∧ written_names run.1 = []
   ∧ ¬ (∃ message, Logged ERROR message ∈ run.1))
  ∧ (is_mapping (yaml_config env) = false ->
     run.2 = Uncaught AttributeError
     ∧ exit_status run.2 = 1
     ∧ pipeline_orgs run.1 = []
     ∧ written_names run.1 = []).
Proof.
  intros Htoken Hkey Horg. unfold main. cbv zeta.
  rewrite Htoken, Hkey, Horg. cbn [orb andb].
  destruct (yaml_config env) as [| b | n | s | items | yaml]; cbn [is_mapping yaml_get];
    (split; [|try done; by intros _]); try done.
  intros _ Hnames Hsince. rewrite Hnames, Hsince. cbn.
  split_and!; try done.
  intros (message & Hin). repeat (apply elem_of_cons in Hin as [Heq | Hin];
                                  [discriminate Heq|]).
  by apply elem_of_nil in Hin.
Qed.

(** X21. When [ORGANIZATION_NAME] is set, it replaces every
    organization of [config.yml]: with a pipeline that succeeds, the
    run fetches that one organization once for each entry of
    [config.yml] and writes each result under the name of the entry,
    not under the name of the organization fetched. *)
Theorem main_environment_overrides_config env org names :
  unset (GRAPHQL_TOKEN env) = false ->
  unset (PEPY_API_KEY env) = false ->
  ORGANIZATION_NAME env = Some org ->
  unset (Some org) = false ->
  yaml_get "organization" (yaml_config env) = Some (JArr names) ->
  yaml_get "since" (yaml_config env) = None ->
  (∀ token config, ∃ res, run_pipeline token config = inr res) ->
  let run := main normalize_since default_since run_pipeline env in
  run.2 = Returned
  ∧ pipeline_orgs run.1 = replicate (length names) org
  ∧ written_names run.1 = names.
Proof.
  intros Htoken Hkey Horg Hset Hnames Hsince Hruns. unfold main. cbv zeta.
  destruct (yaml_config env) as [| | | | |yaml]; try discriminate Hnames.
  cbn [yaml_get] in Hnames, Hsince.
  rewrite Htoken, Hkey, Horg, Hset, Hnames, Hsince.
  cbn [orb andb default from_option id py_iter ret].
  match goal with
  | |- context [fetch_organizations ?f ?token ?o ?yaml ?since ?l] =>
      destruct (fetch_organizations_override token org yaml since l Hset
                                             (Hruns _))
        as (Hend & Horgs & Hwritten);
      destruct (fetch_organizations f token o yaml since l) as [evs e0]
  end.
  cbn in *. by split_and!.
Qed.

(** X22. A pipeline that raises for one organization ends the run
    there with the exception uncaught (exit status 1): the reports of
    the organizations before it are written, nothing is fetched or
    written for the organizations after it. *)
Theorem main_stops_at_failing_organization env fetched failing rest e :
  unset (GRAPHQL_TOKEN env) = false ->
  unset (PEPY_API_KEY env) = false ->
  ORGANIZATION_NAME env = None ->
  yaml_get "organization" (yaml_config env)
    = Some (JArr (map JStr (fetched ++ failing :: rest))) ->
  yaml_get "since" (yaml_config env) = None ->
  (∀ token org config, org ∈ fetched -> organization config = org ->
                       ∃ res, run_pipeline token config = inr res) ->
  (∀ token config, organization config = failing ->
                   run_pipeline token config = inl e) ->
  let run := main normalize_since default_since run_pipeline env in
  run.2 = Uncaught e
  ∧ exit_status run.2 = 1
  ∧ pipeline_orgs run.1 = fetched ++ [failing]
  ∧ written_names run.1 = map JStr fetched.
Proof.
  intros Htoken Hkey Horg Hnames Hsince Hfetched Hfailing. unfold main. cbv zeta.
  destruct (yaml_config env) as [| | | | |yaml]; try discriminate Hnames.
  cbn [yaml_get] in Hnames, Hsince.
  rewrite Htoken, Hkey, Horg, Hnames, Hsince.
  assert (Htruthy : truthy (JArr (map JStr (fetched ++ failing :: rest))) = true).
  { by destruct fetched. }
  cbn [orb andb default from_option id unset]. rewrite Htruthy.
  cbn [negb andb py_iter ret].
  match goal with
  | |- context [fetch_organizations ?f ?token ?o ?yaml ?since ?l] =>
      destruct (fetch_organizations_stops token yaml since fetched failing
                                          rest e (Hfetched _) (Hfailing _))
        as (Hend & Horgs & Hwritten);
      destruct (fetch_organizations f token o yaml since l) as [evs e0]
  end.
  cbn in *. subst e0. by split_and!.
Qed.
End MainMore.

Lemma main_organization_from_environment_alone_witness :
  (main_with_stubs env_org_only).2 = Returned
  ∧ pipeline_orgs (main_with_stubs env_org_only).1 = []
  ∧ (main_with_stubs env_org_empty_config).2 = Uncaught AttributeError.
Proof.
  destruct (main_organization_from_environment_alone
              (fun _ => inr "2024-01-01T00:00:00") "2024-01-01T00:00:00"
              (fun _ _ => inr Result_default) env_org_only
              eq_refl eq_refl eq_refl) as [Hmapping _].
  destruct (Hmapping eq_refl eq_refl eq_refl) as (Hend & _ & Horgs & _).
  destruct (main_organization_from_environment_alone
              (fun _ => inr "2024-01-01T00:00:00") "2024-01-01T00:00:00"
              (fun _ _ => inr Result_default) env_org_empty_config
              eq_refl eq_refl eq_refl) as [_ Hother].
  destruct (Hother eq_refl) as (Hraised & _).
  split_and!; [exact Hend | exact Horgs | exact Hraised].
Defined.

Lemma main_environment_overrides_config_witness :
  pipeline_orgs (main_with_stubs env_and_config_orgs).1 = ["org"; "org"]
  ∧ written_names (main_with_stubs env_and_config_orgs).1 = [JStr "x"; JStr "y"].
Proof.
  destruct (main_environment_overrides_config
              (fun _ => inr "2024-01-01T00:00:00") "2024-01-01T00:00:00"
              (fun _ _ => inr Result_default) env_and_config_orgs
              "org" [JStr "x"; JStr "y"]
              eq_refl eq_refl eq_refl eq_refl eq_refl eq_refl
              (fun _ _ => ex_intro _ Result_default eq_refl))
    as (_ & Horgs & Hwritten).
  split; [exact Horgs | exact Hwritten].
Defined.

Lemma main_stops_at_failing_organization_witness :
  (main (fun _ => inr "2024-01-01T00:00:00") "2024-01-01T00:00:00"
        (pipeline_failing_for "y") three_orgs_env).2
  = Uncaught GithubException.
Proof.
  destruct (main_stops_at_failing_organization
              (fun _ => inr "2024-01-01T00:00:00") "2024-01-01T00:00:00"
              (pipeline_failing_for "y") three_orgs_env
              ["x"] "y" ["z"] GithubException
              eq_refl eq_refl eq_refl eq_refl eq_refl)
    as (Hend & _).
  - intros token org config Hin Horg.
    apply list_elem_of_singleton in Hin. subst org.
    exists Result_default. unfold pipeline_failing_for. by rewrite Horg.
  - intros token config Horg. unfold pipeline_failing_for. by rewrite Horg.
  - exact Hend.
Defined.

(** ** The paging of the issue metrics *)

Lemma subscript_error v key e :
  subscript v key = inl e -> is_github_exception e = false.
Proof.
  destruct v as [| | | | |d]; cbn; try (by intros [= <-]).
  destruct (dict_get key d); [discriminate | by intros [= <-]].
Qed.

Lemma get_method_error v key d e :
  get_method v key d = inl e -> is_github_exception e = false.
Proof. destruct v; cbn; by intros [= <-]. Qed.

Lemma not_none_nodes_error nodes e :
  not_none_nodes nodes = inl e -> is_github_exception e = false.
Proof. destruct nodes; cbn; by intros [= <-]. Qed.

Lemma issues_side_error data key e :
  issues_side data key = inl e -> is_github_exception e = false.
Proof.
  unfold issues_side. intros Hrun.
  repeat match type of Hrun with
         | bind (subscript ?v ?k) _ = inl _ =>
             let H := fresh "H" in
             destruct (subscript v k) eqn:H;
             [injection Hrun as <-; by eapply subscript_error|];
             cbn [bind] in Hrun
         | bind (not_none_nodes ?v) _ = inl _ =>
             let H := fresh "H" in
             destruct (not_none_nodes v) eqn:H;
             [injection Hrun as <-; by eapply not_none_nodes_error|];
             cbn [bind] in Hrun
         end.
  discriminate.
Qed.

Lemma issue_paging_step_error data s e :
  issue_paging_step data s = inl e -> is_github_exception e = false.
Proof.
  unfold issue_paging_step. intros Hrun.
  destruct (truthy (open_has_next s)).
  - destruct (issues_side data "openIssues") as [e1 | [[found has_next] cursor]]
      eqn:Hopen; cbn [bind] in Hrun.
    { injection Hrun as <-. by eapply issues_side_error. }
    cbn [ret bind closed_has_next] in Hrun.
    destruct (truthy (closed_has_next s)); [|discriminate].
    destruct (issues_side data "closedIssues") as [e1 | [[found' has_next'] cursor']]
      eqn:Hclosed; cbn [bind] in Hrun; [|discriminate].
    injection Hrun as <-. by eapply issues_side_error.
  - cbn [ret bind] in Hrun.
    destruct (truthy (closed_has_next s)); [|discriminate].
    destruct (issues_side data "closedIssues") as [e1 | [[found' has_next'] cursor']]
      eqn:Hclosed; cbn [bind] in Hrun; [|discriminate].
    injection Hrun as <-. by eapply issues_side_error.
Qed.

Section IssueMetricsFacts.
Context {St : Type}.
Variable graphql : St -> string -> dict -> result json * St.
Variable query : string.
Variable organization_name : string.
Variable repo_name : string.

Local Abbreviation paging :=
  (issue_metrics_loop graphql query organization_name repo_name).

Lemma issue_metrics_loop_error fuel :
  ∀ st s e,
    (paging fuel st s).1.2 = Some (inl e) -> is_github_exception e = false.
Proof.
  induction fuel as [|fuel IH]; intros st s e; cbn [issue_metrics_loop].
  - destruct (truthy (open_has_next s) || truthy (closed_has_next s));
      cbn; discriminate.
  - destruct (truthy (open_has_next s) || truthy (closed_has_next s));
      [|cbn; discriminate].
    destruct (graphql st query _) as [[e1 | data] st1].
    + destruct (is_github_exception e1) eqn:He1; cbn; [discriminate|].
      by intros [= <-].
    + destruct (get_method data "repository" JNull) as [e1 | repository] eqn:Hget.
      { cbn. intros [= <-]. by eapply get_method_error. }
      destruct (negb (truthy repository)); [cbn; discriminate|].
      destruct (issue_paging_step data s) as [e1 | s'] eqn:Hstep.
      { cbn. intros [= <-]. by eapply issue_paging_step_error. }
      specialize (IH st1 s' e).
      destruct (paging fuel st1 s') as [[asked out] st2]. exact IH.
Qed.

(** X23. [_fetch_issue_metrics_for_repo] never lets a
    [GithubException] of a request out of its paging loop, a
    [RateLimitExceededException] included: the loop ends there, without
    sleeping or asking again, and the ages are computed from the
    issues collected so far.  When the first request fails that way,
    one request has been made, with both cursors null, and no issue
    has been collected. *)
Theorem issue_paging_swallows_github_errors fuel st :
  (∀ e, (fetch_issue_pages graphql query organization_name repo_name fuel st).1.2
        = Some (inl e) ->
        e ≠ GithubException ∧ e ≠ RateLimitExceededException)
  ∧ (∀ e st',
        graphql st query
                [("organization", JStr organization_name);
                 ("repoName", JStr repo_name);
                 ("openCursor", JNull); ("closedCursor", JNull)]
          = (inl e, st') ->
        is_github_exception e = true ->
        fetch_issue_pages graphql query organization_name repo_name (S fuel) st
        = ([[("organization", JStr organization_name);
             ("repoName", JStr repo_name);
             ("openCursor", JNull); ("closedCursor", JNull)]],
           Some (inr ([], [])), st')).
Proof.
  split.
  - intros e Hrun. apply issue_metrics_loop_error in Hrun.
    split; intros ->; discriminate.
  - intros e st' Hreq He. unfold fetch_issue_pages. cbn.
    unfold issue_metrics_variables. cbn. by rewrite Hreq, He.
Qed.
End IssueMetricsFacts.

Lemma issue_paging_swallows_github_errors_witness :
  fetch_issue_pages exhausted_provider "q" "org" "a" 1 tt
  = ([[("organization", JStr "org"); ("repoName", JStr "a");
       ("openCursor", JNull); ("closedCursor", JNull)]],
     Some (inr ([], [])), tt).
Proof.
  destruct (issue_paging_swallows_github_errors
              exhausted_provider "q" "org" "a" 0 tt) as [_ Hfirst].
  by apply (Hfirst RateLimitExceededException tt).
Defined.

Section YieldedPages.
Context {St : Type}.
Variable graphql : St -> string -> dict -> result json * St.
Variable query : string.
Variable variables : dict.
Variable path : list string.

Lemma yields_navigable fuel :
  ∀ st cursor has_next_page,
    Forall (fun page => ∃ data, navigate page path = inr data)
           (yields (paginate_loop graphql query variables path fuel st
                                  cursor has_next_page).1.1).
Proof.
  induction fuel as [|fuel IH]; intros st cursor has_next_page;
    cbn [paginate_loop].
  - destruct (truthy has_next_page); constructor.
  - destruct (truthy has_next_page); [|constructor].
    destruct (graphql st query _) as [[e | page] st1].
    + destruct (is_rate_limit e); [|constructor].
      rewrite yields_emit. apply Forall_app. split; [constructor | apply IH].
    + destruct (navigate page path) as [e | data] eqn:Hnav; [constructor|].
      destruct (next_position data) as [e | [more cursor']].
      * change (yields [Request _ _; Yield page]) with [page].
        constructor; [by eexists | constructor].
      * rewrite yields_emit. apply Forall_app. split; [|apply IH].
        change (yields [Request _ _; Yield page]) with [page].
        constructor; [by eexists | constructor].
Qed.
End YieldedPages.

Lemma navigable_repository page data :
  navigate page ["repository"; "issues"] = inr data ->
  ∃ repository,
    get_method page "repository" JNull = inr repository
    ∧ truthy repository = true.
Proof.
  cbn. destruct page as [| | | | |fields]; try discriminate. cbn.
  destruct (dict_get "repository" fields) as [repository|]; [|discriminate].
  cbn. destruct repository as [| | | | |d]; try discriminate. cbn.
  destruct d as [|kv d]; [discriminate|]. intros _. by eexists.
Qed.

Lemma response_pages_never_stop pages :
  Forall (fun page => ∃ data, navigate page ["repository"; "issues"] = inr data)
         pages ->
  ∀ all_issues r, response_pages pages all_issues = inr r -> r.2 = false.
Proof.
  induction 1 as [|page pages [data Hnav] _ IH]; intros all_issues r Hrun;
    cbn [response_pages] in Hrun.
  - by injection Hrun as <-.
  - destruct (navigable_repository _ _ Hnav) as (repository & Hget & Ht).
    rewrite Hget in Hrun. cbn [bind] in Hrun. rewrite Ht in Hrun.
    cbn [negb] in Hrun.
    destruct (navigate page ["repository"; "issues"; "nodes"]) as [e | nodes];
      [discriminate|].
    cbn [bind] in Hrun.
    destruct (not_none_nodes nodes) as [e | found]; [discriminate|].
    cbn [bind] in Hrun. by eapply IH.
Qed.

(** X24. The guard [if not page_result.get("repository"): break] of
    [_fetch_response_time_for_repo] is never taken: every page the
    generator yields has been followed along [repository.issues]
    before, so its [repository] is a dict that is not empty, and the
    loop over the pages never stops early. *)
Theorem response_time_guard_never_taken {St}
    (graphql : St -> string -> dict -> result json * St)
    query variables fuel st :
  let pages :=
    yields (graphql_paginate graphql query variables
                             ["repository"; "issues"] fuel st).1.1 in
  Forall (fun page => ∃ repository,
              get_method page "repository" JNull = inr repository
              ∧ truthy repository = true) pages
  ∧ ∀ all_issues r, response_pages pages all_issues = inr r -> r.2 = false.
Proof.
  cbv zeta. unfold graphql_paginate.
  pose proof (yields_navigable graphql query variables ["repository"; "issues"]
                               fuel st JNull (JBool true)) as Hnav.
  split.
  - eapply Forall_impl; [exact Hnav|].
    intros page [data Hdata]. by eapply navigable_repository.
  - by apply response_pages_never_stop.
Qed.

(** X25. A repository that does not exist, for which the API answers
    with a null [repository], is handled in two ways: the paging of
    [_fetch_issue_metrics_for_repo] ends after one request with no
    issue and no error, while [_fetch_response_time_for_repo] raises
    [TypeError] from inside the generator, which subscripts the null
    [repository] before it yields the page. *)
Theorem missing_repository_two_ways {St}
    (graphql : St -> string -> dict -> result json * St)
    query query' now_isoformat fuel st config repo_name fields :
  (∀ st q variables, (graphql st q variables).1 = inr (JObj fields)) ->
  dict_get "repository" fields = Some JNull ->
  (fetch_issue_pages graphql query (organization config) repo_name (S fuel) st).1.2
  = Some (inr ([], []))
  ∧ length (fetch_issue_pages graphql query (organization config) repo_name
                              (S fuel) st).1.1 = 1%nat
  ∧ response_time_issues graphql query' now_isoformat (S fuel) st config repo_name
    = Some (inl TypeError).
Proof.
  intros Hanswer Hnull.
  unfold fetch_issue_pages, response_time_issues, graphql_paginate.
  cbn [issue_metrics_loop paginate_loop issue_paging_start truthy orb
       open_has_next closed_has_next].
  pose proof (Hanswer st query
                (issue_metrics_variables (organization config) repo_name
                                         issue_paging_start)) as H1.
  destruct (graphql st query _) as [answer st1]. cbn in H1. subst answer.
  match goal with
  | |- context [graphql st query' ?v] => pose proof (Hanswer st query' v) as H2;
                                         destruct (graphql st query' v) as [answer st2]
  end.
  cbn in H2. subst answer. cbn. rewrite Hnull. cbn. done.
Qed.

Lemma missing_repository_two_ways_witness :
  response_time_issues
    (one_page_provider no_repository) "q" "2024-01-01T00:00:00+00:00"
    1 tt default_config "a"
  = Some (inl TypeError).
Proof.
  destruct (missing_repository_two_ways
              (one_page_provider no_repository) "q" "q"
              "2024-01-01T00:00:00+00:00" 0 tt default_config "a"
              [("repository", JNull)]) as (_ & _ & Hresponse).
  - reflexivity.
  - reflexivity.
  - exact Hresponse.
Defined.

(** ** [add_repositories_to_result] as a whole *)

Section Repositories.
Context {St R : Type}.
Variable graphql : St -> string -> dict -> result json * St.
Variable json_loads : string -> result json.
Variable requestJson : R -> string -> string -> option (Z * option string) * R.

Lemma retry_loop_gets_prefix org remaining :
  ∀ (p : poller R),
  ∃ more, gets (log (retry_loop requestJson remaining org p))
          = gets (log p) ++ more.
Proof.
  induction remaining as [|remaining IH]; intros p; cbn.
  - exists []. rewrite app_nil_r. by destruct (pending_repos p).
  - destruct (pending_repos p) as [|x todo] eqn:Hpend.
    { exists []. by rewrite app_nil_r. }
    pose proof (retry_pass_requests_all requestJson org p) as Hall.
    apply requests_all_gets in Hall as (Hg & _).
    cbn [start_pass log] in Hg. rewrite gets_snoc_wait in Hg.
    destruct (IH (retry_pass requestJson org p)) as [more ->].
    rewrite Hg, <- app_assoc. by eexists.
Qed.

Lemma poller_urls org (rst : R) names :
  json_bodies json_loads requestJson ->
  ∃ m tr rst',
    _fetch_all_contributors json_loads requestJson rst org names
      = inr (m, tr, rst')
    ∧ ∀ u, u ∈ gets tr ↔ ∃ x, x ∈ names ∧ u = contributors_url org x.
Proof.
  intros Hbodies. unfold _fetch_all_contributors.
  destruct (first_pass_requests_all json_loads requestJson org names
              {| contributors_map := ∅; pending_repos := [];
                 log := []; requester := rst |} Hbodies) as (p1 & -> & Hall).
  cbn [bind ret]. eexists _, _, _. split; [reflexivity|].
  apply requests_all_gets in Hall as (Hg & _ & Hin).
  cbn [log pending_repos] in Hg, Hin.
  change (gets []) with (@nil string) in Hg. cbn [app] in Hg.
  destruct (retry_loop_gets requestJson org MAX_CONTRIBUTOR_RETRIES p1)
    as (_ & _ & _ & Lu & _).
  destruct (retry_loop_gets_prefix org MAX_CONTRIBUTOR_RETRIES p1) as [more Hmore].
  cbn [time_out log]. intros u. split.
  - intros Hu. destruct (Lu u Hu) as [Hu' | (x & Hx & ->)].
    + rewrite Hg in Hu'. apply list_elem_of_fmap in Hu' as (x & -> & Hx).
      by exists x.
    + exists x. split; [|done].
      destruct (Hin x Hx) as [Hnil | ?]; [by apply elem_of_nil in Hnil | done].
  - intros (x & Hx & ->). rewrite Hmore, Hg. apply elem_of_app. left.
    apply list_elem_of_fmap. by exists x.
Qed.

Lemma names_of_elem_of repos names :
  names_of repos = inr names ->
  ∀ name, name ∈ names ↔ ∃ repo, repo ∈ repos ∧ repo_name_of repo = inr name.
Proof.
  revert names. induction repos as [|repo repos IH]; intros names Hnames;
    cbn [names_of] in Hnames.
  - injection Hnames as <-. intros name. split.
    + by intros ?%elem_of_nil.
    + by intros (repo & ?%elem_of_nil & _).
  - destruct (repo_name_of repo) as [e | repo_name] eqn:Hname; [discriminate|].
    cbn [bind] in Hnames.
    destruct (names_of repos) as [e | names'] eqn:Hrest; [discriminate|].
    cbn [bind ret] in Hnames. injection Hnames as <-.
    intros name. rewrite elem_of_cons, (IH _ eq_refl). split.
    + intros [-> | (repo' & Hin & Hn)].
      * exists repo. split; [by left | done].
      * exists repo'. split; [by right | done].
    + intros (repo' & [-> | Hin]%elem_of_cons & Hn).
      * left. congruence.
      * right. by exists repo'.
Qed.

(** X26. [add_repositories_to_result] against a provider that serves a
    finite chain of pages and a requester whose bodies are JSON arrays
    or objects: when it returns, the contributor statistics have been
    requested for the repositories that the filtering policy keeps and
    for no other, and the report holds a record under each of their
    names and under the names it held before, and under no other. *)
Theorem add_repositories_requests_and_records
    st rst pages st' fuel file c res config res' c' log :
  serves graphql REPOSITORIES_QUERY
         [("organization", JStr (organization config))]
         ["organization"; "repositories"] st JNull pages st' ->
  (length pages ≤ fuel)%nat ->
  json_bodies json_loads requestJson ->
  add_repositories_to_result graphql json_loads requestJson fuel st rst
                             file c res config
    = Some (inr (res', c', log)) ->
  let kept name :=
    ∃ repo, node_of pages repo
            ∧ passes_policy (load_excluded_repos file c).1 config repo
            ∧ repo_name_of repo = inr name in
  (∀ u, u ∈ gets log
        ↔ ∃ name, kept name ∧ u = contributors_url (organization config) name)
  ∧ (∀ name, name ∈ dom (repositories res')
             ↔ name ∈ dom (repositories res) ∨ kept name).
Proof.
  intros Hchain Hfuel Hbodies Hrun. cbv zeta.
  destruct (paginate_loop_serves _ _ _ _ _ _ _ _ Hchain fuel Hfuel)
    as (tr & Hpages & Hy & _).
  unfold add_repositories_to_result, graphql_paginate in Hrun.
  rewrite Hpages, Hy in Hrun.
  destruct (select_pages file c config pages []) as [e | [all_repos c1]]
    eqn:Hsel; [by injection Hrun|].
  destruct (select_pages_kept _ _ _ _ _ _ _ Hsel) as (_ & kept & Heq & Hkept).
  cbn [app] in Heq. subst kept.
  destruct (names_of all_repos) as [e | names] eqn:Hnames;
    [by injection Hrun|].
  cbn [bind] in Hrun.
  destruct (poller_urls (organization config) rst names Hbodies)
    as (m & ptr & rst' & Hpoll & Hurls).
  rewrite Hpoll in Hrun. cbn [bind] in Hrun.
  destruct (store_repositories m res all_repos) as [e | res1] eqn:Hstore;
    [by injection Hrun|].
  cbn [bind ret] in Hrun. injection Hrun as <- <- <-.
  destruct (store_repositories_stored _ _ _ _ Hstore)
    as (names' & Hnames' & Hdom & _).
  rewrite Hnames in Hnames'. injection Hnames' as <-.
  pose proof (names_of_elem_of _ _ Hnames) as Hin.
  assert (Hname : ∀ name,
             name ∈ names
             ↔ ∃ repo, node_of pages repo
                       ∧ passes_policy (load_excluded_repos file c).1 config repo
                       ∧ repo_name_of repo = inr name).
  { intros name. rewrite Hin. split.
    - intros (repo & Hrepo & Hn). apply Hkept in Hrepo as [? ?]. by exists repo.
    - intros (repo & Hnode & Hpass & Hn). exists repo. split; [|done].
      by apply Hkept. }
  split.
  - intros u. rewrite Hurls. split.
    + intros (x & Hx & ->). exists x. split; [by apply Hname | done].
    + intros (x & Hx & ->). exists x. split; [by apply Hname | done].
  - intros name. rewrite Hdom, elem_of_union, elem_of_list_to_set, Hname. done.
Qed.
End Repositories.

Lemma add_repositories_requests_and_records_witness :
  ∃ res' c' log,
    add_repositories_to_result two_page_stub JsonText.loads failing_requester
                               2 tt tt None None Result_default default_config
      = Some (inr (res', c', log))
    ∧ ∀ name, name ∈ dom (repositories res')
              ↔ name ∈ dom (repositories Result_default)
                ∨ ∃ repo,
                    node_of [repositories_page ["a"; "b"] (Some (true, JStr "c1"));
                             repositories_page ["c"] None] repo
                    ∧ passes_policy (load_excluded_repos None None).1
                                    default_config repo
                    ∧ repo_name_of repo = inr name.
Proof.
  destruct failing_requester_checks as [Hbodies _].
  destruct (add_repositories_to_result
              two_page_stub JsonText.loads failing_requester
              2 tt tt None None Result_default default_config)
    as [[e | [[res' c'] log]]|] eqn:Hrun; try (vm_compute in Hrun; discriminate).
  exists res', c', log. split; [reflexivity|].
  destruct (add_repositories_requests_and_records
              two_page_stub JsonText.loads failing_requester
              tt tt
              [repositories_page ["a"; "b"] (Some (true, JStr "c1"));
               repositories_page ["c"] None] tt 2 None None
              Result_default default_config res' c' log
              (two_page_stub_serves REPOSITORIES_QUERY)) as [_ Hdom].
  - cbn. lia.
  - exact Hbodies.
  - exact Hrun.
  - exact Hdom.
Defined.

(** ** The last month of the Conda downloads *)

Lemma find_skip {A} (f : A -> bool) l1 l2 :
  Forall (fun x => f x = false) l1 -> List.find f (l1 ++ l2) = List.find f l2.
Proof. induction 1 as [|x l1 Hx _ IH]; [done|]. cbn. by rewrite Hx. Qed.

Lemma find_seqZ_first (f : Z -> bool) a n m :
  a ≤ m < a + n ->
  f m = true ->
  (∀ k, a ≤ k < m -> f k = false) ->
  List.find f (seqZ a n) = Some m.
Proof.
  intros Hm Hf Hbefore.
  replace n with ((m - a) + (n - (m - a))) by lia.
  rewrite seqZ_app by lia. rewrite find_skip.
  - rewrite seqZ_cons by lia. cbn. replace (a + (m - a)) with m by lia.
    by rewrite Hf.
  - apply Forall_forall. intros k Hk%elem_of_seqZ. apply Hbefore. lia.
Qed.

Lemma find_seqZ_none (f : Z -> bool) a n :
  (∀ k, a ≤ k < a + n -> f k = false) -> List.find f (seqZ a n) = None.
Proof.
  intros Hall. rewrite <- (app_nil_r (seqZ a n)). rewrite find_skip; [done|].
  apply Forall_forall. intros k Hk%elem_of_seqZ. by apply Hall.
Qed.

Lemma scan_years_skip missing years rest last_month curr_year :
  (∀ year month, year ∈ years -> 1 ≤ month ≤ 12 -> missing year month = false) ->
  scan_years missing (years ++ rest) last_month curr_year
  = scan_years missing rest last_month curr_year.
Proof.
  induction years as [|year years IH]; intros Hall; [done|].
  cbn. rewrite find_seqZ_none.
  - apply IH. intros y m Hy. apply Hall. by right.
  - intros k Hk. apply Hall; [by left | lia].
Qed.

(** X27. The file [add_conda_data] reads as last month's is the file
    of the month just before the first month, from January of
    [start_year] on, whose file is neither on disk nor downloadable,
    December of the year before when that month is a January.  When no
    month up to December of the current year is missing, it is the file
    of January of the current year. *)
Theorem last_month_precedes_first_gap missing start_year now_year :
  (∀ year month,
      start_year ≤ year ≤ now_year -> 1 ≤ month ≤ 12 ->
      missing year month = true ->
      (∀ y m, start_year ≤ y -> 1 ≤ m ≤ 12 ->
              12 * y + m < 12 * year + month -> missing y m = false) ->
      ∀ file_year file_month,
        last_month_file missing start_year now_year = (file_year, file_month) ->
        1 ≤ file_month ≤ 12
        ∧ 12 * file_year + file_month + 1 = 12 * year + month)
  ∧ ((∀ year month, start_year ≤ year ≤ now_year -> 1 ≤ month ≤ 12 ->
                    missing year month = false) ->
     last_month_file missing start_year now_year = (now_year, 1)).
Proof.
  split.
  - intros year month Hyear Hmonth Hmissing Hfirst file_year file_month.
    unfold last_month_file.
    replace (now_year + 1 - start_year)
      with ((year - start_year) + (now_year + 1 - year)) by lia.
    rewrite seqZ_app by lia. rewrite scan_years_skip.
    2:{ intros y m Hy%elem_of_seqZ Hm. apply Hfirst; lia. }
    rewrite seqZ_cons by lia. cbn [scan_years].
    replace (start_year + (year - start_year)) with year by lia.
    rewrite (find_seqZ_first (missing year) 1 12 month) by
      (try done; try lia; intros k Hk; apply Hfirst; lia).
    unfold month_before. destruct (Z.ltb_spec 1 month) as [Hgt | Hle].
    + destruct (Z.eqb_spec (month - 1) 12) as [Heq | Hne]; [lia|].
      intros [= <- <-]. lia.
    + cbn. intros [= <- <-]. lia.
  - intros Hnone. unfold last_month_file.
    rewrite <- (app_nil_r (seqZ _ _)), scan_years_skip; [done|].
    intros y m Hy%elem_of_seqZ Hm. apply Hnone; lia.
Qed.

Lemma last_month_precedes_first_gap_witness :
  1 ≤ 12 ≤ 12 ∧ 12 * 2023 + 12 + 1 = 12 * 2024 + 1.
Proof.
  destruct (last_month_precedes_first_gap
              (fun year month => 2024 <=? year) 2018 2025) as [Hgap _].
  apply (Hgap 2024 1); try lia; reflexivity.
Defined.
